(** * Reference and citation management of the PRISMA 2020 tool

    A shallow embedding of [reference_manager.py]: the [ReferenceManager]
    class (reference store, citation index, renumbering by order of
    citation, rewriting of the citation tokens of the section texts),
    the string functions it relies on, the search for a DOI, and the
    handlers of [app.py] that insert citations into a text.

    Conventions of the embedding.
    - A Python [str] is a [string]; one [ascii] stands for one code point
      in the range 0..255.  On that range the class [\d] of [re] is
      exactly ['0'..'9'] and [str.isspace] is the set listed in
      [is_space].
    - A Python [int] is a [Z]; [int(...)] and [str(...)] are unbounded (a
      limit that an interpreter puts on the number of digits of a
      conversion is not modelled).
    - A [dict] whose iteration order is observable ([sections_content])
      is an association list; the other dicts are [gmap]s.
    - A method takes the manager's state and returns its result together
      with the new state.  The bodies under [try] raise nothing on typed
      arguments, so the [except] branches are not reachable and are left
      out. *)

From Stdlib Require Import ZArith NArith Ascii String DecimalString DecimalN.
From stdpp Require Import gmap strings list sorting.

Local Open Scope Z_scope.

(** ** Characters and [str] methods *)

(** [\d] *)
Definition is_digit (c : ascii) : bool :=
  ((48 <=? N_of_ascii c) && (N_of_ascii c <=? 57))%N.

(** [str.isspace] for one character *)
Definition is_space (c : ascii) : bool :=
  let n := N_of_ascii c in
  (((9 <=? n) && (n <=? 13)) || ((28 <=? n) && (n <=? 32))
   || (n =? 133) || (n =? 160))%N.

Definition is_empty (s : string) : bool :=
  match s with EmptyString => true | String _ _ => false end.

Fixpoint lstrip_by (p : ascii → bool) (s : string) : string :=
  match s with
  | EmptyString => EmptyString
  | String c s' => if p c then lstrip_by p s' else s
  end.

Fixpoint rstrip_by (p : ascii → bool) (s : string) : string :=
  match s with
  | EmptyString => EmptyString
  | String c s' =>
      let r := rstrip_by p s' in
      if is_empty r && p c then EmptyString else String c r
  end.

(** [s.strip()] *)
Definition strip (s : string) : string := rstrip_by is_space (lstrip_by is_space s).

(** [s.rstrip(',')] *)
Definition rstrip_comma (s : string) : string := rstrip_by (Ascii.eqb ",") s.

(** [s.split(sep)] for a one-character separator *)
Fixpoint split_on (sep : ascii) (s : string) : list string :=
  match s with
  | EmptyString => [EmptyString]
  | String c s' =>
      if Ascii.eqb c sep then EmptyString :: split_on sep s'
      else match split_on sep s' with
           | h :: t => String c h :: t
           | [] => [String c EmptyString]
           end
  end.

(** [s.split()] *)
Fixpoint split_ws (s : string) : list string :=
  match s with
  | EmptyString => []
  | String c s' =>
      if is_space c then split_ws s'
      else match s' with
           | EmptyString => [String c EmptyString]
           | String c' _ =>
               if is_space c' then String c EmptyString :: split_ws s'
               else match split_ws s' with
                    | w :: ws => String c w :: ws
                    | [] => [String c EmptyString]
                    end
           end
  end.

(** [sep.join(l)] *)
Definition join (sep : string) (l : list string) : string := String.concat sep l.

(** [int(s)] on a string of decimal digits *)
Fixpoint int_acc (a : N) (s : string) : N :=
  match s with
  | EmptyString => a
  | String c s' => int_acc (10 * a + (N_of_ascii c - 48)) s'
  end.

Definition int_of_str (s : string) : Z := Z.of_N (int_acc 0 s).

(** [str(n)] *)
Definition str_of_N (n : N) : string := NilZero.string_of_uint (N.to_uint n).

Definition str_of_Z (z : Z) : string :=
  match z with
  | Zneg p => String "-" (str_of_N (Npos p))
  | _ => str_of_N (Z.to_N z)
  end.

(** [re.split(r'[,;]|and|&', s)] *)
Fixpoint re_split_authors (s : string) : list string :=
  let keep c s' :=
    match re_split_authors s' with
    | h :: t => String c h :: t
    | [] => [String c EmptyString]
    end in
  match s with
  | EmptyString => [EmptyString]
  | String c s' =>
      if Ascii.eqb c "," || Ascii.eqb c ";" then EmptyString :: re_split_authors s'
      else if Ascii.eqb c "&" then EmptyString :: re_split_authors s'
      else match s' with
           | String c1 (String c2 r) =>
               if Ascii.eqb c "a" && Ascii.eqb c1 "n" && Ascii.eqb c2 "d"
               then EmptyString :: re_split_authors r
               else keep c s'
           | _ => keep c s'
           end
  end.

(** ** The citation pattern

    The pattern of the source, written here with blanks between its
    parts, is  \[ ( \d+ (?: , \d+ )* ) \]  : an opening bracket, group 1
    made of one or more runs of digits separated by single commas, a
    closing bracket.

    [match_ids need s] matches the pattern after its opening bracket at
    the head of [s] and returns the text of group 1 with what follows the
    closing bracket; [need] holds where a run of digits has to start.
    Both repetitions are greedy, and giving back what they took never
    helps: after fewer digits the next character is a digit, after fewer
    runs it is a comma, and neither is the closing bracket. *)
Fixpoint match_ids (need : bool) (s : string) : option (string * string) :=
  match s with
  | EmptyString => None
  | String c s' =>
      if is_digit c then
        match match_ids false s' with
        | Some (g, rest) => Some (String c g, rest)
        | None => None
        end
      else if need then None
      else if Ascii.eqb c "," then
        match match_ids true s' with
        | Some (g, rest) => Some (String c g, rest)
        | None => None
        end
      else if Ascii.eqb c "]" then Some (EmptyString, s')
      else None
  end.

(** The pattern matched at the head of [s]. *)
Definition match_citation (s : string) : option (string * string) :=
  match s with
  | String c s' => if Ascii.eqb c "[" then match_ids true s' else None
  | EmptyString => None
  end.

(** What the scanner of [re] meets from left to right: a character that
    starts no match, or a match (its group 1). *)
Inductive segment : Type :=
  | Lit (c : ascii)
  | Cite (group : string).

(** The leftmost non-overlapping matches of the pattern; a match is never
    empty, so the scan resumes right after it.  [fuel] bounds the number
    of steps: the length of the text is enough. *)
Fixpoint scan_fuel (fuel : nat) (s : string) : list segment :=
  match fuel with
  | O => []
  | S fuel' =>
      match s with
      | EmptyString => []
      | String c s' =>
          match match_citation s with
          | Some (g, rest) => Cite g :: scan_fuel fuel' rest
          | None => Lit c :: scan_fuel fuel' s'
          end
      end
  end.

Definition scan (s : string) : list segment := scan_fuel (String.length s) s.

(** [re.findall(pattern, text)]: group 1 of every match *)
Definition re_findall (text : string) : list string :=
  omap (λ sg, match sg with Cite g => Some g | Lit _ => None end) (scan text).

(** [re.sub(pattern, repl, text)] for a function [repl] of group 1 *)
Definition re_sub (repl : string → string) (text : string) : string :=
  foldr (λ sg out, match sg with
                   | Cite g => repl g +:+ out
                   | Lit c => String c out
                   end) EmptyString (scan text).

(** [[int(id.strip()) for id in citation.split(',')]] *)
Definition parse_ids (citation : string) : list Z :=
  (λ id, int_of_str (strip id)) <$> split_on "," citation.

(** [list.sort()] on integers *)
Definition sort_ids (l : list Z) : list Z := merge_sort Z.le l.

(** [id_mapping[old_id] if old_id in id_mapping else old_id] *)
Definition map_id (id_mapping : gmap Z Z) (old_id : Z) : Z :=
  match id_mapping !! old_id with
  | Some new_id => new_id
  | None => old_id
  end.

(** [f"[{','.join(map(str, new_ids))}]"] *)
Definition render_ids (new_ids : list Z) : string :=
  String "[" (join "," (str_of_Z <$> new_ids) +:+ "]").

(** The inner function [replace_citation] of [update_citations_in_text] *)
Definition replace_citation (id_mapping : gmap Z Z) (citation_content : string) : string :=
  let ref_ids := parse_ids citation_content in
  let new_ids := map_id id_mapping <$> ref_ids in
  render_ids (sort_ids new_ids).

(** The body of the loop of [update_citations_in_text], for one text *)
Definition update_text (id_mapping : gmap Z Z) (text : string) : string :=
  re_sub (replace_citation id_mapping) text.

Definition update_citations_in_text
    (sections_content : list (string * string)) (id_mapping : gmap Z Z)
    : list (string * string) :=
  (λ '(section_name, text), (section_name, update_text id_mapping text))
    <$> sections_content.

(** ** Vancouver formatting of a manual reference *)

(** [''.join([n[0] + '.' for n in parts[:-1] if n])] *)
Definition initials_of (parts : list string) : string :=
  join EmptyString (omap (λ n, match n with
                      | String c _ => Some (String c ".")
                      | EmptyString => None
                      end) (removelast parts)).

(** The loop over [enumerate(authors)]; [i] is the index of the head of
    [authors], and the [break] at the seventh author ends the loop. *)
Fixpoint format_authors (i : nat) (authors : list string) (author_str : string) : string :=
  match authors with
  | [] => author_str
  | full_name :: rest =>
      let full_name := strip full_name in
      if is_empty full_name then format_authors (S i) rest author_str
      else
        let parts := split_ws full_name in
        if (2 <=? length parts)%nat then
          let family := List.last parts EmptyString in
          let initials := initials_of parts in
          if (i <? 6)%nat then
            format_authors (S i) rest (author_str +:+ family +:+ " " +:+ initials +:+ ", ")
          else if (i =? 6)%nat then author_str +:+ "et al. "
          else format_authors (S i) rest author_str
        else format_authors (S i) rest author_str
  end.

(** The year, volume, issue and pages part, built when [year] is not empty *)
Definition vol_info_of (year volume issue pages : string) : string :=
  let vol_info := year in
  let vol_info :=
    if is_empty volume then vol_info
    else
      let vol_info := vol_info +:+ ";" +:+ volume in
      if is_empty issue then vol_info else vol_info +:+ "(" +:+ issue +:+ ")" in
  let vol_info := if is_empty pages then vol_info else vol_info +:+ ":" +:+ pages in
  vol_info +:+ ".".

Definition format_manual_vancouver
    (authors : list string) (title journal year volume issue pages doi : string) : string :=
  let author_str := rstrip_comma (strip (format_authors 0 authors EmptyString)) in
  let reference_parts : list string := [] in
  let reference_parts :=
    if is_empty author_str then reference_parts else reference_parts ++ [author_str] in
  let reference_parts :=
    if is_empty title then reference_parts else reference_parts ++ [title +:+ "."] in
  let reference_parts :=
    if is_empty journal then reference_parts else reference_parts ++ [journal +:+ "."] in
  let reference_parts :=
    if is_empty year then reference_parts
    else reference_parts ++ [vol_info_of year volume issue pages] in
  let reference_parts :=
    if is_empty doi then reference_parts else reference_parts ++ ["doi:" +:+ doi] in
  join " " reference_parts.

(** ** The reference store and the citation index *)

(** The value stored under ['manual_data'] *)
Record ManualData : Type := {
  md_authors : list string;
  md_title : string;
  md_journal : string;
  md_year : string;
  md_volume : string;
  md_issue : string;
  md_pages : string;
  md_doi : string
}.

(** The key ['type'] of a reference, with the manual data it comes with.
    The raw CrossRef record kept under ['metadata'] is read by no method
    of the class and is not part of the model. *)
Inductive RefSource : Type :=
  | FromDoi
  | Manual (manual_data : ManualData).

(** One reference; [ref_id] is the key ['id'] of the source. *)
Record Reference : Type := {
  ref_id : Z;
  formatted : string;
  doi : string;
  source : RefSource
}.

(** The attributes of a [ReferenceManager] *)
Record ReferenceManager : Type := {
  references : list Reference;
  citations : gmap string (list Z);
  citation_order : list Z
}.

(** [ReferenceManager()] *)
Definition init : ReferenceManager :=
  {| references := []; citations := ∅; citation_order := [] |}.

(** [new_ref = ref.copy(); new_ref['id'] = new_id] *)
Definition with_id (ref : Reference) (new_id : Z) : Reference :=
  {| ref_id := new_id; formatted := formatted ref; doi := doi ref; source := source ref |}.

Definition get_reference_by_id (refs : list Reference) (rid : Z) : option Reference :=
  List.find (λ ref, ref_id ref =? rid) refs.

Definition add_manual_reference (st : ReferenceManager)
    (authors title journal year volume issue pages doi : string)
    : option Z * ReferenceManager :=
  if is_empty authors || is_empty title || is_empty journal || is_empty year
  then (None, st)
  else
    let author_list :=
      strip <$> List.filter (λ a, negb (is_empty (strip a))) (re_split_authors authors) in
    let formatted_ref :=
      format_manual_vancouver author_list title journal year volume issue pages doi in
    let ref_data :=
      {| ref_id := Z.of_nat (length (references st)) + 1;
         formatted := formatted_ref;
         doi := doi;
         source := Manual {| md_authors := author_list; md_title := title;
                             md_journal := journal; md_year := year;
                             md_volume := volume; md_issue := issue;
                             md_pages := pages; md_doi := doi |} |} in
    (Some (ref_id ref_data),
     {| references := references st ++ [ref_data];
        citations := citations st;
        citation_order := citation_order st |}).

Section Lookup.
(** The CrossRef record, the request that fetches it (no record, or an
    empty one, is [None]), its formatter and the search for a DOI inside
    the input (a match is never empty). *)
Variable Metadata : Type.
Variable fetch_metadata_from_crossref : string → option Metadata.
Variable format_vancouver : Metadata → string.
Variable extract_doi : string → option string.

Definition add_reference_from_doi (st : ReferenceManager) (doi : string)
    : option Z * ReferenceManager :=
  let clean_doi := strip doi in
  if is_empty clean_doi then (None, st)
  else
    let clean_doi :=
      match extract_doi clean_doi with
      | Some extracted_doi => extracted_doi
      | None => clean_doi
      end in
    match fetch_metadata_from_crossref clean_doi with
    | Some metadata =>
        let ref_data :=
          {| ref_id := Z.of_nat (length (references st)) + 1;
             formatted := format_vancouver metadata;
             doi := clean_doi;
             source := FromDoi |} in
        (Some (ref_id ref_data),
         {| references := references st ++ [ref_data];
            citations := citations st;
            citation_order := citation_order st |})
    | None => (None, st)
    end.
End Lookup.

(** [l.remove(x)]: the first occurrence goes *)
Fixpoint list_remove_first (x : Z) (l : list Z) : list Z :=
  match l with
  | [] => []
  | y :: l' => if decide (y = x) then l' else y :: list_remove_first x l'
  end.

Definition remove_reference (st : ReferenceManager) (rid : Z) : bool * ReferenceManager :=
  let references' := List.filter (λ ref, negb (ref_id ref =? rid)) (references st) in
  let citations' := (λ ref_list, List.filter (λ r, negb (r =? rid)) ref_list) <$> citations st in
  let citation_order' :=
    if decide (rid ∈ citation_order st) then list_remove_first rid (citation_order st)
    else citation_order st in
  (true, {| references := references';
            citations := citations';
            citation_order := citation_order' |}).

Definition add_citation (st : ReferenceManager) (section_name : string) (rid : Z)
    : ReferenceManager :=
  let citations1 :=
    match citations st !! section_name with
    | None => <[section_name := []]> (citations st)
    | Some _ => citations st
    end in
  let ref_list := default [] (citations1 !! section_name) in
  let citations2 :=
    if decide (rid ∈ ref_list) then citations1
    else <[section_name := ref_list ++ [rid]]> citations1 in
  let citation_order' :=
    if decide (rid ∈ citation_order st) then citation_order st
    else citation_order st ++ [rid] in
  {| references := references st;
     citations := citations2;
     citation_order := citation_order' |}.

(** ** Renumbering by order of citation *)

(** The list [section_order] the method starts from; the accented letters
    are single characters, given by their code points. *)
Definition section_order_known : list string :=
  [ "T" +:+ String "237" "tulo";
    "Resumo";
    "Introdu" +:+ String "231" (String "227" "o");
    "M" +:+ String "233" "todos";
    "Resultados";
    "Discuss" +:+ String "227" "o";
    "Conclus" +:+ String "227" "o";
    "Refer" +:+ String "234" "ncias" ].

(** [sections_content[section_name]], or [None] where the name is no key *)
Definition section_text (sections_content : list (string * string)) (section_name : string)
    : option string :=
  snd <$> List.find (λ kv, String.eqb (fst kv) section_name) sections_content.

(** The loop that appends the sections not in the predefined order *)
Definition extend_section_order (section_order all_sections : list string) : list string :=
  foldl (λ section_order section,
           if decide (section ∈ section_order) then section_order
           else section_order ++ [section])
        section_order all_sections.

(** The two inner loops: the IDs of one citation, in the order listed *)
Definition record_citation (citation_order : list Z) (citation : string) : list Z :=
  foldl (λ citation_order rid,
           if decide (rid ∈ citation_order) then citation_order
           else citation_order ++ [rid])
        citation_order (parse_ids citation).

(** The scan of the texts in the order of [section_order] *)
Definition scan_citation_order
    (sections_content : list (string * string)) (section_order : list string) : list Z :=
  foldl (λ citation_order section_name,
           match section_text sections_content section_name with
           | Some text => foldl record_citation citation_order (re_findall text)
           | None => citation_order
           end)
        [] section_order.

(** The order of citation found in the texts *)
Definition text_citation_order (sections_content : list (string * string)) : list Z :=
  scan_citation_order sections_content
    (extend_section_order section_order_known (fst <$> sections_content)).

(** What the two renumbering loops carry: [id_mapping], [new_references]
    and [new_id]. *)
Definition renumbering : Type := gmap Z Z * list Reference * Z.

Definition assign (acc : renumbering) (ref : Reference) : renumbering :=
  let '(id_mapping, new_references, new_id) := acc in
  (<[ref_id ref := new_id]> id_mapping, new_references ++ [with_id ref new_id], new_id + 1).

(** First loop: the references that appear in the text *)
Definition renumber_cited (refs : list Reference) (acc : renumbering) (old_id : Z)
    : renumbering :=
  match get_reference_by_id refs old_id with
  | Some ref =>
      let '(id_mapping, new_references, new_id) := acc in
      (<[old_id := new_id]> id_mapping, new_references ++ [with_id ref new_id], new_id + 1)
  | None => acc
  end.

(** Second loop: the references not cited *)
Definition renumber_uncited (cited : list Z) (acc : renumbering) (ref : Reference)
    : renumbering :=
  if decide (ref_id ref ∈ cited) then acc else assign acc ref.

Definition compute_renumbering (refs : list Reference) (cited : list Z) : renumbering :=
  foldl (renumber_uncited cited)
        (foldl (renumber_cited refs) (∅, [], 1) cited)
        refs.

(** [[id_mapping[old_id] for old_id in ref_list if old_id in id_mapping]] *)
Definition remap_list (id_mapping : gmap Z Z) (ref_list : list Z) : list Z :=
  omap (λ old_id, id_mapping !! old_id) ref_list.

(** The argument is [None] when the caller passes nothing; [None] and the
    empty dict both end the method at once, with no value returned. *)
Definition reorder_references_by_citation
    (st : ReferenceManager) (sections_content : option (list (string * string)))
    : option (gmap Z Z) * ReferenceManager :=
  match sections_content with
  | None | Some [] => (None, st)
  | Some sections_content =>
      let cited := text_citation_order sections_content in
      let '(id_mapping, new_references, _) := compute_renumbering (references st) cited in
      (Some id_mapping,
       {| references := new_references;
          citations := remap_list id_mapping <$> citations st;
          citation_order := remap_list id_mapping (citation_order st) |})
  end.

(** ** Citation summary *)

Record CitationSummary : Type := {
  total_citations : nat;
  unique_references_cited : nat;
  total_references : nat;
  uncited_references : Z;
  sections_with_citations : nat;
  citation_distribution : gmap string nat
}.

(** [set().union( *self.citations.values())] *)
Definition cited_anywhere (cits : gmap string (list Z)) : gset Z :=
  map_fold (λ _ ref_list acc, list_to_set ref_list ∪ acc) ∅ cits.

Definition get_citation_summary (st : ReferenceManager) : CitationSummary :=
  let unique := size (cited_anywhere (citations st)) in
  {| total_citations := map_fold (λ _ ref_list acc, (length ref_list + acc)%nat) O (citations st);
     unique_references_cited := unique;
     total_references := length (references st);
     uncited_references := Z.of_nat (length (references st)) - Z.of_nat unique;
     sections_with_citations :=
       size (filter (λ kv : string * list Z, kv.2 ≠ []) (citations st));
     citation_distribution := length <$> citations st |}.

(** ** Notions of the specification

    The definitions below do not come from the code: they state, in the
    words of the specification, what the code is compared with. *)

(** One or more digits *)
Inductive digits : string → Prop :=
  | digits_one c : is_digit c = true → digits (String c EmptyString)
  | digits_more c d : is_digit c = true → digits d → digits (String c d).

(** [id_runs g ds]: [g] is one or more runs of digits separated by single
    commas, and [ds] lists the runs. *)
Inductive id_runs : string → list string → Prop :=
  | runs_one d : digits d → id_runs d [d]
  | runs_more d g ds :
      digits d → id_runs g ds → id_runs (d +:+ String "," g) (d :: ds).

(** A citation token with the text [g] between its brackets, followed by
    [rest] *)
Definition token_then (g rest : string) : string :=
  String "[" (g +:+ String "]" rest).

(** [rewrites m text out]: [out] is [text] with every citation token, met
    from left to right, replaced by its mapped IDs in ascending order,
    and every other character kept. *)
Inductive rewrites (m : gmap Z Z) : string → string → Prop :=
  | rewrites_nil : rewrites m EmptyString EmptyString
  | rewrites_token g ds new_ids rest out :
      id_runs g ds →
      Sorted Z.le new_ids →
      new_ids ≡ₚ (λ d, map_id m (int_of_str d)) <$> ds →
      rewrites m rest out →
      rewrites m (token_then g rest) (render_ids new_ids +:+ out)
  | rewrites_char c s out :
      (∀ g ds rest, id_runs g ds → String c s ≠ token_then g rest) →
      rewrites m s out →
      rewrites m (String c s) (String c out).

(** The IDs of the citation tokens of a text, in the order written *)
Definition text_ids (text : string) : list Z :=
  concat (parse_ids <$> re_findall text).

(** A group whose IDs are written in ascending order and without sign or
    leading zeros *)
Definition canonical_group (g : string) : Prop :=
  ∃ ids, ids ≠ [] ∧ Sorted Z.le ids ∧ Forall (λ z, 0 <= z) ids
         ∧ g = join "," (str_of_Z <$> ids).

(** The hypothesis of the round trip: every ID of a token of the text is
    a key of [m1], sent to a non-negative ID that [m2] sends back. *)
Definition inverts_on (m1 m2 : gmap Z Z) (ids : list Z) : Prop :=
  ∀ x, x ∈ ids → ∃ y, m1 !! x = Some y ∧ 0 <= y ∧ m2 !! y = Some x.

(** The elements of a list in the order of their first occurrence *)
Fixpoint first_appearance {A} `{EqDecision A} (l : list A) : list A :=
  match l with
  | [] => []
  | x :: l' => x :: filter (λ y, y ≠ x) (first_appearance l')
  end.

(** The canonical order of the sections present: the well-known names
    first, then the other names in the order given *)
Definition canonical_sections (names : list string) : list string :=
  filter (λ s, s ∈ names) section_order_known
  ++ filter (λ s, s ∉ section_order_known) names.

(** Every cited ID, section after section in canonical order *)
Definition appearance_sequence (sections_content : list (string * string)) : list Z :=
  concat ((λ name, text_ids (default EmptyString (section_text sections_content name)))
            <$> canonical_sections (fst <$> sections_content)).

(** [number_from m next l]: [m] with the elements of [l] given the numbers
    [next], [next + 1], ... in turn *)
Fixpoint number_from (m : gmap Z Z) (next : Z) (l : list Z) : gmap Z Z :=
  match l with
  | [] => m
  | x :: l' => number_from (<[x := next]> m) (next + 1) l'
  end.

(** ** The specification in its own terms

    The notions of this part use nothing of the code above: a numeral
    and the number it writes are those of the decimal notation of the
    standard library, a mapping is applied by a lookup, sorting is stated
    with [Sorted] and [Permutation], and the well-known section names
    are listed again.  The claims about renumbering and rewriting are
    stated with them. *)

(** [d] is a run of one or more decimal digits and [z] the number it
    writes, in the decimal notation of the standard library. *)
Definition numeral (d : string) (z : Z) : Prop :=
  ∃ u, NilZero.uint_of_string d = Some u ∧ z = Z.of_uint u.

(** One or more numerals separated by single commas, and their numbers in
    the order written *)
Inductive id_list : string → list Z → Prop :=
  | id_list_one d z : numeral d z → id_list d [z]
  | id_list_more d z g zs :
      numeral d z → id_list g zs → id_list (d +:+ String "," g) (z :: zs).

(** A citation token: an opening bracket, a list of IDs, a closing
    bracket *)
Definition citation_token (tok : string) (ids : list Z) : Prop :=
  ∃ g, tok = String "[" (g +:+ "]") ∧ id_list g ids.

(** The decimal notation of an integer *)
Definition decimal (z : Z) : string := NilZero.string_of_int (Z.to_int z).

(** The token that lists [ids]: the IDs in decimal notation, joined by
    commas, between brackets *)
Definition token_of (ids : list Z) : string :=
  String "[" (String.concat "," (decimal <$> ids) +:+ "]").

(** [rewritten m text out]: [out] is [text] in which every citation
    token, met from left to right, is replaced by the token of its IDs
    sent through [m] (an ID that is no key of [m] stays) and sorted
    ascending; a character at which no token starts is kept. *)
Inductive rewritten (m : gmap Z Z) : string → string → Prop :=
  | rewritten_end : rewritten m EmptyString EmptyString
  | rewritten_token tok ids new_ids rest out :
      citation_token tok ids →
      Sorted Z.le new_ids →
      new_ids ≡ₚ (λ x, default x (m !! x)) <$> ids →
      rewritten m rest out →
      rewritten m (tok +:+ rest) (token_of new_ids +:+ out)
  | rewritten_other c s out :
      (∀ tok ids rest, citation_token tok ids → String c s ≠ tok +:+ rest) →
      rewritten m s out →
      rewritten m (String c s) (String c out).

(** [cites text ids]: [ids] lists the IDs of the citation tokens of
    [text], token after token from left to right, the IDs of a token in
    the order written. *)
Inductive cites : string → list Z → Prop :=
  | cites_end : cites EmptyString []
  | cites_token tok ids rest more :
      citation_token tok ids → cites rest more → cites (tok +:+ rest) (ids ++ more)
  | cites_other c s ids :
      (∀ tok ids' rest, citation_token tok ids' → String c s ≠ tok +:+ rest) →
      cites s ids →
      cites (String c s) ids.

(** The fixed list of well-known section names, in the preferred order *)
Definition well_known_sections : list string :=
  [ String "T" (String "237" "tulo");
    "Resumo";
    String "I" (String "n" (String "t" (String "r" (String "o" (String "d" (String "u"
      (String "231" (String "227" "o"))))))));
    String "M" (String "233" "todos");
    "Resultados";
    String "D" (String "i" (String "s" (String "c" (String "u" (String "s" (String "s"
      (String "227" "o")))))));
    String "C" (String "o" (String "n" (String "c" (String "l" (String "u" (String "s"
      (String "227" "o")))))));
    String "R" (String "e" (String "f" (String "e" (String "r" (String "234" "ncias"))))) ].

(** The canonical order of the sections of a map: the well-known names
    that are names of the map, in the preferred order, then the other
    names of the map in the order given *)
Definition canonical_order (names : list string) : list string :=
  filter (λ s, s ∈ names) well_known_sections
  ++ filter (λ s, s ∉ well_known_sections) names.

(** [cited_sequence sections_content sequence]: [sequence] lists every
    cited ID, the sections taken in canonical order and each text read
    from left to right. *)
Definition cited_sequence
    (sections_content : list (string * string)) (sequence : list Z) : Prop :=
  ∃ per_section,
    Forall2 (λ name ids, ∃ text, (name, text) ∈ sections_content ∧ cites text ids)
            (canonical_order sections_content.*1) per_section
    ∧ sequence = concat per_section.

(** * More of the module and of its callers *)

(** ** Listing, exporting and validating the references *)

(** [sorted(refs, key=lambda x: x['id'])]: ascending in the ID, and
    stable.  The references are inserted from the last to the first, each
    before the ones already there whose ID is not smaller. *)
Fixpoint insert_by_id (ref : Reference) (l : list Reference) : list Reference :=
  match l with
  | [] => [ref]
  | x :: l' => if ref_id ref <=? ref_id x then ref :: l else x :: insert_by_id ref l'
  end.

Definition sorted_by_id (refs : list Reference) : list Reference :=
  foldr insert_by_id [] refs.

(** The default given to a missing ['type'] changes nothing here: a
    [Reference] always has its [source]. *)
Definition get_all_references (st : ReferenceManager) : list Reference :=
  sorted_by_id (references st).

(** The two line feeds that end the title and every entry *)
Definition blank_line : string := String "010" (String "010" EmptyString).

Definition export_references_list (st : ReferenceManager) : string :=
  match references st with
  | [] => "No references available."
  | _ :: _ =>
      foldl (λ formatted_list ref,
               formatted_list +:+ str_of_Z (ref_id ref) +:+ ". " +:+ formatted ref
               +:+ blank_line)
            ("REFERENCES" +:+ blank_line) (get_all_references st)
  end.

(** The checks of [validate_references] on one reference, in the order
    of the source *)
Definition reference_issues (ref : Reference) : list string :=
  (if is_empty (formatted ref) then ["Missing formatted reference"] else [])
  ++ match source ref with
     | FromDoi =>
         if is_empty (doi ref) then ["DOI reference missing DOI field"] else []
     | Manual manual_data =>
         (match md_authors manual_data with
          | [] => ["Missing authors in manual reference"]
          | _ :: _ => []
          end)
         ++ (if is_empty (md_title manual_data)
             then ["Missing title in manual reference"] else [])
         ++ (if is_empty (md_journal manual_data)
             then ["Missing journal in manual reference"] else [])
         ++ (if is_empty (md_year manual_data)
             then ["Missing year in manual reference"] else [])
     end.

(** The dictionary returned by [validate_references], but for
    ['validation_rate'], a floating-point quotient of the two counts. *)
Record ValidationResults : Type := {
  vr_total_references : nat;
  vr_valid_references : nat;
  vr_issues : list (Z * list string)
}.

Definition validate_references (st : ReferenceManager) : ValidationResults :=
  foldl (λ validation_results ref,
           match reference_issues ref with
           | [] =>
               {| vr_total_references := vr_total_references validation_results;
                  vr_valid_references := S (vr_valid_references validation_results);
                  vr_issues := vr_issues validation_results |}
           | ref_issues =>
               {| vr_total_references := vr_total_references validation_results;
                  vr_valid_references := vr_valid_references validation_results;
                  vr_issues := vr_issues validation_results ++ [(ref_id ref, ref_issues)] |}
           end)
        {| vr_total_references := length (references st);
           vr_valid_references := O;
           vr_issues := [] |}
        (references st).

(** ** The search for a DOI

    The pattern of [extract_doi], written with blanks between its parts,
    is  10 . \d{4,9} / [-._;()/:A-Z0-9]+  with [re.IGNORECASE]: the two
    characters 1 and 0, any character but a line feed, four to nine
    digits, a slash, and one or more characters of the class, letters of
    both cases.  The repetitions are greedy; a shorter run of digits
    would be followed by a digit and not by the slash, so only the
    longest run of at most nine digits can lead to a match. *)

Definition is_doi_char (c : ascii) : bool :=
  let n := N_of_ascii c in
  (is_digit c || ((65 <=? n) && (n <=? 90)) || ((97 <=? n) && (n <=? 122))
   || Ascii.eqb c "-" || Ascii.eqb c "." || Ascii.eqb c "_" || Ascii.eqb c ";"
   || Ascii.eqb c "(" || Ascii.eqb c ")" || Ascii.eqb c "/" || Ascii.eqb c ":")%N.

(** The longest head of [s] made of at most [n] digits, and what follows *)
Fixpoint span_digits (n : nat) (s : string) : string * string :=
  match n, s with
  | S n', String c s' =>
      if is_digit c then
        let '(d, rest) := span_digits n' s' in (String c d, rest)
      else (EmptyString, s)
  | _, _ => (EmptyString, s)
  end.

(** The longest head of [s] made of characters of the class *)
Fixpoint span_doi_chars (s : string) : string * string :=
  match s with
  | String c s' =>
      if is_doi_char c then
        let '(d, rest) := span_doi_chars s' in (String c d, rest)
      else (EmptyString, s)
  | EmptyString => (EmptyString, EmptyString)
  end.

(** The pattern matched at the head of [s]: the match and what follows *)
Definition match_doi (s : string) : option (string * string) :=
  match s with
  | String c1 (String c0 (String c s1)) =>
      if Ascii.eqb c1 "1" && Ascii.eqb c0 "0" && negb (Ascii.eqb c "010") then
        let '(ds, s2) := span_digits 9 s1 in
        if (4 <=? String.length ds)%nat then
          match s2 with
          | String c2 s3 =>
              if Ascii.eqb c2 "/" then
                let '(tail, rest) := span_doi_chars s3 in
                if is_empty tail then None
                else Some (String c1 (String c0 (String c (ds +:+ String c2 tail))), rest)
              else None
          | EmptyString => None
          end
        else None
      else None
  | _ => None
  end.

(** [doi_regex.search(input_str)], then [match.group(0) if match else None] *)
Fixpoint extract_doi (input_str : string) : option string :=
  match match_doi input_str with
  | Some (found, _) => Some found
  | None =>
      match input_str with
      | String _ s' => extract_doi s'
      | EmptyString => None
      end
  end.

(** ** Inserting citations into a text (app.py)

    The handlers of the two insertion buttons, without the widgets: the
    new text of the section and the calls to [add_citation]. *)

(** Quick insertion of one reference *)
Definition quick_insert (st : ReferenceManager) (current_section content : string) (rid : Z)
    : string * ReferenceManager :=
  let citation_text := String "[" (str_of_Z rid +:+ "]") in
  let new_content :=
    if is_empty content then citation_text else content +:+ " " +:+ citation_text in
  (new_content, add_citation st current_section rid).

(** The choice of the radio button, with the position typed for the
    third choice *)
Inductive insertion_option : Type :=
  | AtEndOfText
  | AtCursor
  | AtPosition (cursor_position : nat).

(** [s[:n]] and [s[n:]] *)
Fixpoint str_take (n : nat) (s : string) : string :=
  match n, s with
  | S n', String c s' => String c (str_take n' s')
  | _, _ => EmptyString
  end.

Fixpoint str_drop (n : nat) (s : string) : string :=
  match n, s with
  | S n', String _ s' => str_drop n' s'
  | _, _ => s
  end.

(** Insertion of the selected references (at least one) from the dialog *)
Definition modal_insert (st : ReferenceManager) (section_name current_content : string)
    (citation_ids : list Z) (option : insertion_option)
    : string * ReferenceManager :=
  let st' := foldl (λ st rid, add_citation st section_name rid) st citation_ids in
  let citation_text :=
    "[" +:+ join "," (str_of_Z <$> sort_ids citation_ids) +:+ "]" in
  let new_content :=
    match option with
    | AtPosition cursor_position =>
        str_take cursor_position current_content +:+ citation_text
        +:+ str_drop cursor_position current_content
    | AtEndOfText | AtCursor => current_content +:+ " " +:+ citation_text
    end in
  (new_content, st').

(** ** Notions used to state the further properties *)

(** The ID lists of the citation tokens of a text, token by token *)
Definition text_tokens (text : string) : list (list Z) :=
  parse_ids <$> re_findall text.

(** [b] is empty or starts with a character that cannot continue a
    citation token: no digit, no comma, no closing bracket *)
Definition starts_clean (b : string) : Prop :=
  match b with
  | EmptyString => True
  | String c _ => is_digit c = false ∧ c ≠ ","%char ∧ c ≠ "]"%char
  end.

(** The text of a DOI as the pattern describes it *)
Definition doi_shaped (d : string) : Prop :=
  ∃ c ds tail,
    d = String "1" (String "0" (String c (ds +:+ String "/" tail)))
    ∧ c ≠ "010"%char
    ∧ Forall (λ x, is_digit x = true) (list_ascii_of_string ds)
    ∧ (4 ≤ String.length ds ≤ 9)%nat
    ∧ tail ≠ EmptyString
    ∧ Forall (λ x, is_doi_char x = true) (list_ascii_of_string tail).

(** [rest] is empty or starts with a character outside the class of the
    DOI pattern *)
Definition doi_stops (rest : string) : Prop :=
  match rest with
  | EmptyString => True
  | String c _ => is_doi_char c = false
  end.

(** The citation index is well formed: no ID twice in the global order
    or in the list of a section, and every ID of a section is in the
    global order. *)
Definition index_well_formed (st : ReferenceManager) : Prop :=
  NoDup (citation_order st)
  ∧ (∀ s l, citations st !! s = Some l → NoDup l)
  ∧ (∀ s l x, citations st !! s = Some l → x ∈ l → x ∈ citation_order st).

(** Every ID of the citation index is the ID of a stored reference. *)
Definition index_live (st : ReferenceManager) : Prop :=
  (∀ x, x ∈ citation_order st → is_Some (get_reference_by_id (references st) x))
  ∧ (∀ s l x, citations st !! s = Some l → x ∈ l →
              is_Some (get_reference_by_id (references st) x)).

(** * Properties *)

#[local] Arguments String.append !_ _ : simpl nomatch.

(** ** Characters *)

Lemma is_digit_cases c :
  is_digit c = true →
  is_space c = false ∧ Ascii.eqb c "," = false ∧ Ascii.eqb c "]" = false
  ∧ Ascii.eqb c "[" = false.
Proof.
  destruct c as [[] [] [] [] [] [] [] []]; vm_compute; intros H;
    first [discriminate H | repeat split].
Qed.

Lemma string_app_assoc (a b c : string) : (a +:+ b) +:+ c = a +:+ (b +:+ c).
Proof. induction a as [|x a IH]; simpl; [done | by rewrite IH]. Qed.

Lemma string_app_nil_r (a : string) : a +:+ EmptyString = a.
Proof. induction a as [|x a IH]; simpl; [done | by rewrite IH]. Qed.

Lemma string_length_app (a b : string) :
  String.length (a +:+ b) = (String.length a + String.length b)%nat.
Proof. induction a as [|x a IH]; simpl; [done | by rewrite IH]. Qed.

(** ** Decimal numerals: [str] and [int] *)

Lemma digits_nonempty d : digits d → d ≠ EmptyString.
Proof. by destruct 1. Qed.

Lemma digits_cons c d : is_digit c = true → d = EmptyString ∨ digits d → digits (String c d).
Proof. intros Hc [-> | Hd]; [by apply digits_one | by apply digits_more]. Qed.

Lemma uint_string_digits d :
  NilEmpty.string_of_uint d = EmptyString ∨ digits (NilEmpty.string_of_uint d).
Proof.
  induction d; simpl; [by left | right; by apply digits_cons ..].
Qed.

Lemma digits_str_of_N n : digits (str_of_N n).
Proof.
  unfold str_of_N, NilZero.string_of_uint.
  destruct (N.to_uint n) eqn:E; try by apply digits_one.
  all: rewrite <- E; destruct (uint_string_digits (N.to_uint n)) as [H | H]; [| done].
  all: rewrite E in H; discriminate H.
Qed.

Lemma int_acc_uint_pos d p :
  int_acc (Npos p) (NilEmpty.string_of_uint d) = Npos (Pos.of_uint_acc d p).
Proof.
  revert p. induction d; intros p; simpl; [done | ..].
  all: rewrite <- IHd; f_equal; lia.
Qed.

Lemma int_acc_uint d : int_acc 0 (NilEmpty.string_of_uint d) = N.of_uint d.
Proof.
  unfold N.of_uint.
  induction d; simpl; [done | apply IHd | apply (int_acc_uint_pos d) ..].
Qed.

Lemma int_acc_str_of_N n : int_acc 0 (str_of_N n) = n.
Proof.
  unfold str_of_N, NilZero.string_of_uint.
  rewrite <- (DecimalN.Unsigned.of_to n) at 2.
  generalize (N.to_uint n). intros d.
  destruct d; [done | exact (int_acc_uint _) ..].
Qed.

Lemma str_of_Z_nonneg z : 0 <= z → str_of_Z z = str_of_N (Z.to_N z).
Proof. destruct z; [done | done | lia]. Qed.

Lemma digits_str_of_Z z : 0 <= z → digits (str_of_Z z).
Proof. intros Hz. rewrite str_of_Z_nonneg by done. apply digits_str_of_N. Qed.

Lemma int_of_str_of_Z z : 0 <= z → int_of_str (str_of_Z z) = z.
Proof.
  intros Hz. unfold int_of_str.
  rewrite str_of_Z_nonneg, int_acc_str_of_N by done. lia.
Qed.

Lemma int_of_str_nonneg s : 0 <= int_of_str s.
Proof. unfold int_of_str. lia. Qed.

(** ** [strip] and [split] on runs of digits *)

Lemma rstrip_digits d : digits d → rstrip_by is_space d = d.
Proof.
  induction 1 as [c Hc | c d Hc Hd IH]; simpl;
    destruct (is_digit_cases c Hc) as (-> & _).
  - done.
  - rewrite IH, andb_false_r. done.
Qed.

Lemma strip_digits d : digits d → strip d = d.
Proof.
  intros Hd. unfold strip.
  assert (lstrip_by is_space d = d) as ->; [| by apply rstrip_digits].
  destruct Hd as [c Hc | c d Hc Hd]; simpl;
    by destruct (is_digit_cases c Hc) as (-> & _).
Qed.

Lemma split_on_digits d : digits d → split_on "," d = [d].
Proof.
  induction 1 as [c Hc | c d Hc Hd IH]; simpl;
    destruct (is_digit_cases c Hc) as (_ & -> & _).
  - done.
  - by rewrite IH.
Qed.

Lemma split_on_digits_comma d g :
  digits d → split_on "," (d +:+ String "," g) = d :: split_on "," g.
Proof.
  induction 1 as [c Hc | c d Hc Hd IH]; simpl;
    destruct (is_digit_cases c Hc) as (_ & -> & _).
  - done.
  - by rewrite IH.
Qed.

Lemma split_on_id_runs g ds : id_runs g ds → split_on "," g = ds.
Proof.
  induction 1 as [d Hd | d g ds Hd Hg IH].
  - by apply split_on_digits.
  - rewrite split_on_digits_comma by done. by rewrite IH.
Qed.

Lemma id_runs_digits g ds : id_runs g ds → Forall digits ds.
Proof. induction 1; by constructor. Qed.

Lemma id_runs_nonempty g ds : id_runs g ds → ds ≠ [].
Proof. by destruct 1. Qed.

Lemma parse_ids_id_runs g ds : id_runs g ds → parse_ids g = int_of_str <$> ds.
Proof.
  intros Hg. unfold parse_ids. rewrite (split_on_id_runs g ds Hg).
  apply Forall_fmap_ext.
  eapply Forall_impl; [by eapply id_runs_digits |].
  intros d Hd. simpl. by rewrite strip_digits.
Qed.

Lemma id_runs_join ds : ds ≠ [] → Forall digits ds → id_runs (join "," ds) ds.
Proof.
  intros Hne Hds. induction Hds as [| d ds Hd Hds IH]; [done |].
  destruct ds as [| d' ds].
  - simpl. by apply runs_one.
  - change (join "," (d :: d' :: ds)) with (d +:+ String "," (join "," (d' :: ds))).
    apply runs_more; [done |]. by apply IH.
Qed.

(** ** The matcher against the grammar of the pattern *)

Lemma id_runs_prepend c g ds :
  is_digit c = true → id_runs g ds → ∃ ds', id_runs (String c g) ds'.
Proof.
  intros Hc [d Hd | d g' ds' Hd Hg].
  - exists [String c d]. apply runs_one. by apply digits_more.
  - exists (String c d :: ds').
    apply (runs_more (String c d) g' ds'); [by apply digits_more | done].
Qed.

(** What a successful match took, in both states of the matcher *)
Lemma match_ids_sound s : ∀ need g rest,
  match_ids need s = Some (g, rest) →
  s = g +:+ String "]" rest
  ∧ if need then ∃ ds, id_runs g ds
    else ∀ c, is_digit c = true → ∃ ds, id_runs (String c g) ds.
Proof.
  induction s as [| c s IH]; intros need g rest; simpl; [done |].
  destruct (is_digit c) eqn:Hc.
  - destruct (match_ids false s) as [[g' rest'] |] eqn:E; [| done].
    intros [= <- <-]. destruct (IH false g' rest' E) as [-> Hg].
    split; [done |].
    destruct need; [by apply Hg |].
    intros c' Hc'. destruct (Hg c Hc) as [ds Hds]. by eapply id_runs_prepend.
  - destruct need; [done |].
    destruct (Ascii.eqb c ",") eqn:Hcomma.
    + apply Ascii.eqb_eq in Hcomma as ->.
      destruct (match_ids true s) as [[g' rest'] |] eqn:E; [| done].
      intros [= <- <-]. destruct (IH true g' rest' E) as [-> [ds Hds]].
      split; [done |].
      intros c' Hc'. exists (String c' EmptyString :: ds).
      apply (runs_more (String c' EmptyString) g' ds); [by apply digits_one | done].
    + destruct (Ascii.eqb c "]") eqn:Hclose; [| done].
      apply Ascii.eqb_eq in Hclose as ->.
      intros [= <- <-]. split; [done |].
      intros c' Hc'. exists [String c' EmptyString]. apply runs_one. by apply digits_one.
Qed.

Lemma match_ids_digits d : digits d → ∀ need s g rest,
  match_ids false s = Some (g, rest) →
  match_ids need (d +:+ s) = Some (d +:+ g, rest).
Proof.
  induction 1 as [c Hc | c d Hc Hd IH]; intros need s g rest Hs; simpl; rewrite Hc.
  - by rewrite Hs.
  - by rewrite (IH false s g rest Hs).
Qed.

Lemma match_ids_complete g ds : id_runs g ds → ∀ rest,
  match_ids true (g +:+ String "]" rest) = Some (g, rest).
Proof.
  induction 1 as [d Hd | d g ds Hd Hg IH]; intros rest.
  - rewrite <- (string_app_nil_r d) at 2.
    by apply match_ids_digits.
  - rewrite string_app_assoc. apply match_ids_digits; [done |].
    simpl. by rewrite IH.
Qed.

(** The matcher succeeds exactly on a token of the grammar, and takes the
    whole of it. *)
Lemma match_citation_iff s g rest :
  match_citation s = Some (g, rest) ↔ (∃ ds, id_runs g ds) ∧ s = token_then g rest.
Proof.
  unfold token_then. split.
  - destruct s as [| c s]; simpl; [done |].
    destruct (Ascii.eqb c "[") eqn:Hc; [| done].
    apply Ascii.eqb_eq in Hc as ->.
    intros H. by destruct (match_ids_sound s true g rest H) as [-> ?].
  - intros [[ds Hds] ->]. simpl. by eapply match_ids_complete.
Qed.

Lemma match_citation_shorter s g rest :
  match_citation s = Some (g, rest) → (String.length rest < String.length s)%nat.
Proof.
  intros [_ ->]%match_citation_iff. unfold token_then. simpl.
  rewrite string_length_app. simpl. lia.
Qed.

(** ** The scan: enough fuel, and its equations *)

Lemma scan_fuel_enough n : ∀ m s,
  (String.length s ≤ n)%nat → (String.length s ≤ m)%nat →
  scan_fuel n s = scan_fuel m s.
Proof.
  induction n as [| n IH]; intros m s Hn Hm.
  - destruct s; [| simpl in Hn; lia]. by destruct m.
  - destruct m as [| m]; [destruct s; [done | simpl in Hm; lia] |].
    destruct s as [| c s]; [done |].
    cbn [scan_fuel]. simpl in Hn, Hm.
    destruct (match_citation (String c s)) as [[g rest] |] eqn:E.
    + apply match_citation_shorter in E. simpl in E.
      f_equal. apply IH; lia.
    + f_equal. apply IH; lia.
Qed.

Lemma scan_cons c s :
  scan (String c s) =
    match match_citation (String c s) with
    | Some (g, rest) => Cite g :: scan rest
    | None => Lit c :: scan s
    end.
Proof.
  unfold scan. cbn [String.length scan_fuel].
  destruct (match_citation (String c s)) as [[g rest] |] eqn:E.
  - apply match_citation_shorter in E. simpl in E.
    f_equal. apply scan_fuel_enough; lia.
  - done.
Qed.

Lemma update_text_nil m : update_text m EmptyString = EmptyString.
Proof. done. Qed.

Lemma update_text_cons m c s :
  update_text m (String c s) =
    match match_citation (String c s) with
    | Some (g, rest) => replace_citation m g +:+ update_text m rest
    | None => String c (update_text m s)
    end.
Proof.
  unfold update_text, re_sub. rewrite scan_cons.
  by destruct (match_citation (String c s)) as [[g rest] |].
Qed.

Lemma update_text_token m g ds rest :
  id_runs g ds →
  update_text m (token_then g rest) = replace_citation m g +:+ update_text m rest.
Proof.
  intros Hg. unfold token_then at 1. rewrite update_text_cons.
  assert (match_citation (String "[" (g +:+ String "]" rest)) = Some (g, rest)) as ->; [| done].
  apply match_citation_iff. eauto.
Qed.

Lemma re_findall_nil : re_findall EmptyString = [].
Proof. done. Qed.

Lemma re_findall_cons c s :
  re_findall (String c s) =
    match match_citation (String c s) with
    | Some (g, rest) => g :: re_findall rest
    | None => re_findall s
    end.
Proof.
  unfold re_findall. rewrite scan_cons.
  by destruct (match_citation (String c s)) as [[g rest] |].
Qed.

(** Induction along the scan: over the empty text, a token followed by a
    text, and a character that starts no token followed by a text. *)
Lemma scan_ind (P : string → Prop) :
  P EmptyString →
  (∀ g rest c s, String c s = token_then g rest →
     match_citation (String c s) = Some (g, rest) → P rest → P (String c s)) →
  (∀ c s, match_citation (String c s) = None → P s → P (String c s)) →
  ∀ s, P s.
Proof.
  intros Hnil Htok Hchar s.
  remember (String.length s) as n eqn:Hn.
  revert s Hn. induction (lt_wf n) as [n _ IH]. intros s ->.
  destruct s as [| c s]; [done |].
  destruct (match_citation (String c s)) as [[g rest] |] eqn:E.
  - pose proof E as [_ Heq]%match_citation_iff.
    apply (Htok g rest); [done | done |].
    eapply IH; [| done]. by eapply match_citation_shorter.
  - apply Hchar; [done |]. eapply IH; [| done]. simpl. lia.
Qed.

(** ** Sorting *)

Lemma sort_ids_sorted l : Sorted Z.le (sort_ids l).
Proof. apply (Sorted_merge_sort Z.le). Qed.

Lemma sort_ids_perm l : sort_ids l ≡ₚ l.
Proof. apply (merge_sort_Permutation Z.le). Qed.

Lemma sort_ids_unique l l' : Sorted Z.le l' → l' ≡ₚ l → l' = sort_ids l.
Proof.
  intros Hs Hp. apply (Sorted_unique Z.le); [done | apply sort_ids_sorted |].
  by rewrite sort_ids_perm.
Qed.

Lemma sort_ids_proper l l' : l ≡ₚ l' → sort_ids l = sort_ids l'.
Proof.
  intros Hp. apply sort_ids_unique; [apply sort_ids_sorted |].
  by rewrite sort_ids_perm.
Qed.

Lemma replace_citation_id_runs m g ds :
  id_runs g ds →
  replace_citation m g = render_ids (sort_ids ((λ d, map_id m (int_of_str d)) <$> ds)).
Proof.
  intros Hg. unfold replace_citation.
  rewrite (parse_ids_id_runs g ds Hg). by rewrite <- list_fmap_compose.
Qed.

(** ** Rewriting against its specification *)

Lemma update_text_rewrites_to m text : rewrites m text (update_text m text).
Proof.
  induction text as [| g rest c s Heq Hm IH | c s Hm IH] using scan_ind.
  - apply rewrites_nil.
  - rewrite update_text_cons, Hm, Heq.
    apply match_citation_iff in Hm as [[ds Hds] _].
    rewrite (replace_citation_id_runs m g ds Hds).
    apply (rewrites_token m g ds); [done | apply sort_ids_sorted | apply sort_ids_perm | done].
  - rewrite update_text_cons, Hm.
    apply rewrites_char; [| done].
    intros g ds rest Hds Heq.
    assert (match_citation (String c s) = Some (g, rest)) as Hs; [| congruence].
    apply match_citation_iff. eauto.
Qed.

Lemma rewrites_update_text m text out : rewrites m text out → out = update_text m text.
Proof.
  induction 1 as [| g ds new_ids rest out Hds Hsorted Hperm _ IH | c s out Hno _ IH].
  - done.
  - rewrite (update_text_token m g ds rest Hds), (replace_citation_id_runs m g ds Hds), IH.
    by rewrite (sort_ids_unique _ new_ids Hsorted Hperm).
  - rewrite update_text_cons, IH.
    destruct (match_citation (String c s)) as [[g rest] |] eqn:E; [| done].
    apply match_citation_iff in E as [[ds Hds] Heq].
    by destruct (Hno g ds rest Hds).
Qed.

(** A text in which no token starts is left as it is. *)
Lemma update_text_no_token m text :
  re_findall text = [] → update_text m text = text.
Proof.
  induction text as [| g rest c s Heq Hm IH | c s Hm IH] using scan_ind.
  - done.
  - by rewrite re_findall_cons, Hm.
  - rewrite re_findall_cons, update_text_cons, Hm. intros H. by rewrite IH.
Qed.

(** ** The specification's tokens and the grammar of the pattern *)

Lemma digit_uint_of_char c u :
  is_digit c = true → ∃ u', uint_of_char c (Some u) = Some u'.
Proof.
  destruct c as [[] [] [] [] [] [] [] []]; vm_compute; intros H;
    first [discriminate H | by eexists].
Qed.

Lemma digits_uint d : digits d → ∃ u, NilEmpty.uint_of_string d = Some u.
Proof.
  induction 1 as [c Hc | c d Hc Hd [u Hu]]; simpl.
  - by apply digit_uint_of_char.
  - rewrite Hu. by apply digit_uint_of_char.
Qed.

Lemma int_of_str_uint d u :
  NilEmpty.uint_of_string d = Some u → int_of_str d = Z.of_uint u.
Proof.
  intros <-%NilEmpty.sus. unfold int_of_str. by rewrite int_acc_uint.
Qed.

Lemma numeral_iff d z : numeral d z ↔ digits d ∧ z = int_of_str d.
Proof.
  unfold numeral, NilZero.uint_of_string. split.
  - intros (u & Hu & ->). destruct d as [| c d]; [done |].
    split; [| symmetry; by apply int_of_str_uint].
    pose proof (NilEmpty.sus _ _ Hu) as Hd.
    destruct (uint_string_digits u) as [H | H]; rewrite Hd in H; [done | done].
  - intros [Hd ->]. destruct (digits_uint d Hd) as [u Hu].
    exists u. destruct Hd; (split; [done | by apply int_of_str_uint]).
Qed.

Lemma id_list_iff g zs : id_list g zs ↔ ∃ ds, id_runs g ds ∧ zs = int_of_str <$> ds.
Proof.
  split.
  - induction 1 as [d z [Hd ->]%numeral_iff
                   | d z g zs [Hd ->]%numeral_iff _ (ds & Hds & ->)].
    + exists [d]. split; [by apply runs_one | done].
    + exists (d :: ds). split; [by apply runs_more | done].
  - intros (ds & Hds & ->).
    induction Hds as [d Hd | d g ds Hd _ IH]; simpl.
    + apply id_list_one. by apply numeral_iff.
    + apply id_list_more; [by apply numeral_iff | done].
Qed.

Lemma citation_token_iff tok ids :
  citation_token tok ids
  ↔ ∃ g ds, id_runs g ds ∧ ids = int_of_str <$> ds
            ∧ ∀ rest, tok +:+ rest = token_then g rest.
Proof.
  unfold citation_token, token_then. split.
  - intros (g & -> & (ds & Hds & ->)%id_list_iff). exists g, ds.
    split; [done |]. split; [done |]. intros rest. simpl.
    by rewrite string_app_assoc.
  - intros (g & ds & Hds & -> & Htok). exists g. split.
    + rewrite <- (string_app_nil_r tok), Htok. done.
    + apply id_list_iff. eauto.
Qed.

Lemma default_map_id (m : gmap Z Z) x : default x (m !! x) = map_id m x.
Proof. unfold map_id. by destruct (m !! x). Qed.

Lemma decimal_str_of_Z z : decimal z = str_of_Z z.
Proof. by destruct z. Qed.

Lemma token_of_render_ids ids : token_of ids = render_ids ids.
Proof.
  unfold token_of, render_ids, join. do 3 f_equal.
  apply list_fmap_ext. intros _ z _. apply decimal_str_of_Z.
Qed.

Lemma no_token_iff c s :
  (∀ tok ids rest, citation_token tok ids → String c s ≠ tok +:+ rest)
  ↔ (∀ g ds rest, id_runs g ds → String c s ≠ token_then g rest).
Proof.
  split.
  - intros H g ds rest Hds.
    assert (citation_token (token_then g EmptyString) (int_of_str <$> ds)) as Htok.
    { exists g. split; [done |]. apply id_list_iff. eauto. }
    apply citation_token_iff in Htok as Hg.
    destruct Hg as (g' & ds' & _ & _ & Heq).
    intros Hs. apply (H _ _ rest Htok). rewrite Hs.
    unfold token_then. simpl. by rewrite string_app_assoc.
  - intros H tok ids rest (g & ds & Hds & _ & Heq)%citation_token_iff.
    rewrite Heq. by eapply H.
Qed.

Lemma rewritten_iff_rewrites m text out : rewritten m text out ↔ rewrites m text out.
Proof.
  split.
  - induction 1 as [| tok ids new_ids rest out Htok Hsorted Hperm _ IH
                   | c s out Hno _ IH].
    + apply rewrites_nil.
    + apply citation_token_iff in Htok as (g & ds & Hds & -> & Heq).
      rewrite Heq, token_of_render_ids.
      apply (rewrites_token m g ds); [done | done | | done].
      rewrite Hperm, <- list_fmap_compose.
      apply reflexive_eq, list_fmap_ext. intros _ d _. apply default_map_id.
    + apply rewrites_char; [by apply no_token_iff | done].
  - induction 1 as [| g ds new_ids rest out Hds Hsorted Hperm _ IH | c s out Hno _ IH].
    + apply rewritten_end.
    + assert (citation_token (token_then g EmptyString) (int_of_str <$> ds)) as Htok.
      { exists g. split; [done |]. apply id_list_iff. eauto. }
      rewrite <- token_of_render_ids.
      replace (token_then g rest) with (token_then g EmptyString +:+ rest)
        by (unfold token_then; simpl; by rewrite string_app_assoc).
      apply (rewritten_token m _ _ _ _ _ Htok); [done | | done].
      rewrite Hperm, <- list_fmap_compose.
      apply reflexive_eq, list_fmap_ext. intros _ d _. symmetry. apply default_map_id.
    + apply rewritten_other; [by apply no_token_iff | done].
Qed.

(** C3: [update_citations_in_text] rewrites a text as specified, the
    specification ([rewritten]) being stated in its own terms: every
    citation token (an opening bracket, numerals separated by single
    commas, a closing bracket), met from left to right, is replaced by
    the token of its IDs sent through [id_map] (an ID that is no key
    stays as it is), sorted ascending, written in decimal and joined by
    commas between brackets; every other character is kept.  So is
    every text of a sections map rewritten, the names and their order
    being kept.  Bracketed text that is no token, such as [[abc]] or
    [[1,]], comes out unchanged; with 3 sent to 1 and 1 to 2, the text
    "see [3,1], [7] and [x]" becomes "see [1,2], [7] and [x]". *)
Theorem update_citations_in_text_spec :
  (∀ m text out, rewritten m text out ↔ out = update_text m text)
  ∧ (∀ m sections_content,
       Forall2 (λ old new, new.1 = old.1 ∧ rewritten m old.2 new.2)
               sections_content (update_citations_in_text sections_content m))
  ∧ (∀ m, update_text m "[abc]" = "[abc]" ∧ update_text m "[1,]" = "[1,]")
  ∧ update_text {[3 := 1; 1 := 2]} "see [3,1], [7] and [x]" = "see [1,2], [7] and [x]".
Proof.
  assert (∀ m text out, rewritten m text out ↔ out = update_text m text) as Hspec.
  { intros m text out. rewrite rewritten_iff_rewrites. split.
    - apply rewrites_update_text.
    - intros ->. apply update_text_rewrites_to. }
  split; [done |]. split; [| split].
  - intros m sections_content. unfold update_citations_in_text.
    apply Forall2_fmap_r, Forall_Forall2_diag, Forall_forall.
    intros [name text] _. simpl. split; [done |]. by apply Hspec.
  - intros m. split; by apply update_text_no_token.
  - by vm_compute.
Qed.

(** ** Rendered tokens are tokens *)

Lemma render_ids_app ids rest :
  render_ids ids +:+ rest = token_then (join "," (str_of_Z <$> ids)) rest.
Proof. unfold render_ids, token_then. simpl. by rewrite string_app_assoc. Qed.

Lemma id_runs_render ids :
  ids ≠ [] → Forall (λ z, 0 <= z) ids →
  id_runs (join "," (str_of_Z <$> ids)) (str_of_Z <$> ids).
Proof.
  intros Hne Hpos. apply id_runs_join.
  - by destruct ids.
  - apply Forall_fmap. eapply Forall_impl; [done |]. intros z Hz. by apply digits_str_of_Z.
Qed.

Lemma parse_ids_render ids :
  ids ≠ [] → Forall (λ z, 0 <= z) ids →
  parse_ids (join "," (str_of_Z <$> ids)) = ids.
Proof.
  intros Hne Hpos.
  rewrite (parse_ids_id_runs _ _ (id_runs_render ids Hne Hpos)).
  rewrite <- list_fmap_compose. rewrite <- (list_fmap_id ids) at 2.
  apply Forall_fmap_ext. eapply Forall_impl; [done |].
  intros z Hz. simpl. by apply int_of_str_of_Z.
Qed.

Lemma map_id_empty x : map_id ∅ x = x.
Proof. unfold map_id. by rewrite lookup_empty. Qed.

Lemma fmap_map_id_empty (l : list Z) : map_id ∅ <$> l = l.
Proof.
  rewrite <- (list_fmap_id l) at 2. apply list_fmap_ext. intros i x _. apply map_id_empty.
Qed.

Lemma text_ids_token c s g rest :
  match_citation (String c s) = Some (g, rest) →
  text_ids (String c s) = parse_ids g ++ text_ids rest.
Proof. intros Hm. unfold text_ids. by rewrite re_findall_cons, Hm. Qed.

Lemma text_ids_char c s :
  match_citation (String c s) = None → text_ids (String c s) = text_ids s.
Proof. intros Hm. unfold text_ids. by rewrite re_findall_cons, Hm. Qed.

(** ** A failed match stays failed after rewriting *)

Lemma update_text_head m c s : ∃ t, update_text m (String c s) = String c t.
Proof.
  rewrite update_text_cons.
  destruct (match_citation (String c s)) as [[g rest] |] eqn:E; [| by eexists].
  apply match_citation_iff in E as [_ [= -> _]].
  unfold replace_citation, render_ids. simpl. by eexists.
Qed.

Lemma match_ids_none_update m s : ∀ need,
  match_ids need s = None → match_ids need (update_text m s) = None.
Proof.
  induction s as [| c s IH]; intros need H; [done |].
  simpl in H. destruct (is_digit c) eqn:Hc.
  - destruct (is_digit_cases c Hc) as (_ & _ & _ & Hopen).
    rewrite update_text_cons. simpl. rewrite Hopen. simpl. rewrite Hc.
    destruct (match_ids false s) as [[g rest] |] eqn:E; [done |].
    by rewrite (IH false).
  - destruct (Ascii.eqb c ",") eqn:Hcomma.
    + apply Ascii.eqb_eq in Hcomma as ->.
      rewrite update_text_cons. simpl.
      destruct need; [done |].
      destruct (match_ids true s) as [[g rest] |] eqn:E; [done |].
      by rewrite (IH true).
    + destruct (update_text_head m c s) as [t ->].
      simpl. rewrite Hc, Hcomma.
      destruct need; [done |].
      by destruct (Ascii.eqb c "]").
Qed.

Lemma match_citation_none_update m c s :
  match_citation (String c s) = None →
  match_citation (String c (update_text m s)) = None.
Proof.
  simpl. destruct (Ascii.eqb c "["); [| done]. apply match_ids_none_update.
Qed.

(** ** Rewriting twice *)

Lemma inverts_on_map_id m1 m2 ids :
  inverts_on m1 m2 ids →
  Forall (λ z, 0 <= z) (map_id m1 <$> ids)
  ∧ map_id m2 <$> (map_id m1 <$> ids) = ids.
Proof.
  intros Hinv. induction ids as [| x ids IH]; [done |].
  destruct (Hinv x) as (y & H1 & Hy & H2); [by left |].
  destruct IH as [IH1 IH2]; [intros z Hz; apply Hinv; by right |].
  assert (map_id m1 x = y) as Hx by (unfold map_id; by rewrite H1).
  split.
  - rewrite fmap_cons, Hx. by constructor.
  - rewrite !fmap_cons, IH2, Hx. unfold map_id at 1. by rewrite H2.
Qed.

Lemma replace_citation_twice m1 m2 g ds rest :
  id_runs g ds → inverts_on m1 m2 (parse_ids g) →
  ∃ g1 ds1,
    id_runs g1 ds1
    ∧ replace_citation m1 g +:+ rest = token_then g1 rest
    ∧ replace_citation m2 g1 = replace_citation ∅ g.
Proof.
  intros Hg Hinv.
  destruct (inverts_on_map_id m1 m2 _ Hinv) as [Hpos Hback].
  set (ids1 := sort_ids (map_id m1 <$> parse_ids g)).
  assert (ids1 ≡ₚ map_id m1 <$> parse_ids g) as Hperm by apply sort_ids_perm.
  assert (Forall (λ z, 0 <= z) ids1) as Hpos1 by (by rewrite Hperm).
  assert (ids1 ≠ []) as Hne.
  { intros Hnil. rewrite Hnil in Hperm. symmetry in Hperm.
    apply Permutation_nil_r in Hperm. apply fmap_nil_inv in Hperm.
    rewrite (parse_ids_id_runs g ds Hg) in Hperm. apply fmap_nil_inv in Hperm.
    by apply (id_runs_nonempty g ds). }
  exists (join "," (str_of_Z <$> ids1)), (str_of_Z <$> ids1).
  split; [by apply id_runs_render |]. split.
  - unfold replace_citation. fold ids1. apply render_ids_app.
  - unfold replace_citation at 1. rewrite parse_ids_render by done.
    unfold replace_citation. f_equal. rewrite fmap_map_id_empty.
    apply sort_ids_proper. by rewrite Hperm, Hback.
Qed.

Lemma update_text_twice m1 m2 text :
  inverts_on m1 m2 (text_ids text) →
  update_text m2 (update_text m1 text) = update_text ∅ text.
Proof.
  induction text as [| g rest c s Heq Hm IH | c s Hm IH] using scan_ind; intros Hinv.
  - done.
  - rewrite (text_ids_token c s g rest Hm) in Hinv.
    pose proof Hm as [[ds Hds] _]%match_citation_iff.
    rewrite !update_text_cons, Hm.
    destruct (replace_citation_twice m1 m2 g ds (update_text m1 rest) Hds)
      as (g1 & ds1 & Hg1 & -> & Hrep).
    { intros x Hx. apply Hinv, elem_of_app. by left. }
    rewrite (update_text_token m2 g1 ds1 _ Hg1), Hrep, IH; [done |].
    intros x Hx. apply Hinv, elem_of_app. by right.
  - rewrite (text_ids_char c s Hm) in Hinv.
    rewrite (update_text_cons m1), (update_text_cons ∅), Hm.
    rewrite update_text_cons, (match_citation_none_update m1 c s Hm).
    by rewrite IH.
Qed.

Lemma sort_ids_sorted_id l : Sorted Z.le l → sort_ids l = l.
Proof. intros Hl. symmetry. by apply sort_ids_unique. Qed.

Lemma update_text_canonical text :
  Forall canonical_group (re_findall text) → update_text ∅ text = text.
Proof.
  induction text as [| g rest c s Heq Hm IH | c s Hm IH] using scan_ind.
  - done.
  - rewrite re_findall_cons, update_text_cons, Hm.
    intros [(ids & Hne & Hsorted & Hpos & Hg) Hrest]%Forall_cons.
    rewrite (IH Hrest), Heq. unfold replace_citation.
    rewrite Hg at 1. rewrite parse_ids_render, fmap_map_id_empty by done.
    rewrite sort_ids_sorted_id by done. by rewrite render_ids_app, Hg.
  - rewrite re_findall_cons, update_text_cons, Hm. intros H. by rewrite (IH H).
Qed.

(** C4, as amended: when every ID of the tokens of a text is a key of
    [m1] with a non-negative image that [m2] sends back to it, rewriting
    with [m1] and then with [m2] gives the text with each token put in
    normal form (what rewriting with the empty map gives: IDs sorted
    ascending, written without leading zeros); the original text comes
    back unchanged when its tokens were written that way. *)
Theorem update_text_round_trip m1 m2 text :
  inverts_on m1 m2 (text_ids text) →
  update_text m2 (update_text m1 text) = update_text ∅ text
  ∧ (Forall canonical_group (re_findall text) →
     update_text m2 (update_text m1 text) = text).
Proof.
  intros Hinv. split.
  - by apply update_text_twice.
  - intros Hcan. rewrite update_text_twice by done. by apply update_text_canonical.
Qed.

Lemma update_text_round_trip_witness :
  let swap : gmap Z Z := {[1 := 2; 2 := 1]} in
  update_text swap (update_text swap "see [1,2] and [2]") = update_text ∅ "see [1,2] and [2]"
  ∧ (Forall canonical_group (re_findall "see [1,2] and [2]") →
     update_text swap (update_text swap "see [1,2] and [2]") = "see [1,2] and [2]").
Proof.
  intros swap. apply update_text_round_trip.
  intros x Hx. change (text_ids "see [1,2] and [2]") with [1; 2; 2] in Hx.
  repeat (apply elem_of_cons in Hx as [-> | Hx]).
  - exists 2. split; [reflexivity | split; [lia | reflexivity]].
  - exists 1. split; [reflexivity | split; [lia | reflexivity]].
  - exists 1. split; [reflexivity | split; [lia | reflexivity]].
  - by apply elem_of_nil in Hx.
Defined.

(** C4 as stated fails: with the identity on 1 and 2, which is its own
    inverse, the token [[2,1]] comes back as [[1,2]]. *)
Lemma round_trip_reorders_ids :
  let m : gmap Z Z := {[1 := 1; 2 := 2]} in
  (∀ x, x ∈ text_ids "[2,1]" → is_Some (m !! x))
  ∧ (∀ k v, m !! k = Some v → m !! v = Some k)
  ∧ update_text m (update_text m "[2,1]") = "[1,2]"
  ∧ update_text m (update_text m "[2,1]") ≠ "[2,1]".
Proof.
  intros m. split; [| split; [| split]].
  - intros x Hx. change (text_ids "[2,1]") with [2; 1] in Hx.
    repeat (apply elem_of_cons in Hx as [-> | Hx]); [by eexists .. |].
    by apply elem_of_nil in Hx.
  - intros k v. unfold m.
    rewrite lookup_insert_Some, lookup_singleton_Some.
    intros [[<- <-] | [_ [<- <-]]]; reflexivity.
  - reflexivity.
  - discriminate.
Qed.

(** C7, as amended: a token is re-emitted with the mapped IDs of all its
    runs, sorted ascending; an ID that occurs several times is written as
    many times, so [[2,2]] is emitted as [[2,2]]. *)
Theorem replace_citation_keeps_duplicates m g ds rest :
  id_runs g ds →
  ∃ new_ids,
    update_text m (token_then g rest) = render_ids new_ids +:+ update_text m rest
    ∧ Sorted Z.le new_ids
    ∧ new_ids ≡ₚ (λ d, map_id m (int_of_str d)) <$> ds
    ∧ length new_ids = length ds.
Proof.
  intros Hg. exists (sort_ids ((λ d, map_id m (int_of_str d)) <$> ds)).
  rewrite (update_text_token m g ds rest Hg), (replace_citation_id_runs m g ds Hg).
  split; [done |]. split; [apply sort_ids_sorted |]. split; [apply sort_ids_perm |].
  by rewrite sort_ids_perm, length_fmap.
Qed.

Lemma replace_citation_keeps_duplicates_witness :
  ∃ new_ids,
    update_text ∅ (token_then "2,2" EmptyString)
    = render_ids new_ids +:+ update_text ∅ EmptyString
    ∧ Sorted Z.le new_ids
    ∧ new_ids ≡ₚ (λ d, map_id ∅ (int_of_str d)) <$> ["2"; "2"]
    ∧ length new_ids = length ["2"; "2"].
Proof.
  apply (replace_citation_keeps_duplicates ∅ "2,2" ["2"; "2"] EmptyString).
  apply (runs_more "2" "2" ["2"]).
  - apply digits_one. reflexivity.
  - apply runs_one, digits_one. reflexivity.
Defined.

(** C7 as stated fails: the token [[2,2]] is emitted with both copies. *)
Lemma duplicate_ids_not_merged :
  update_text ∅ "[2,2]" = "[2,2]" ∧ update_text ∅ "[2,2]" ≠ "[2]".
Proof. split; [reflexivity | discriminate]. Qed.

(** ** The citation index and its summary *)

Lemma elem_of_cited_anywhere (cits : gmap string (list Z)) x :
  x ∈ cited_anywhere cits ↔ ∃ s l, cits !! s = Some l ∧ x ∈ l.
Proof.
  unfold cited_anywhere.
  apply (map_fold_weak_ind
           (λ (acc : gset Z) (m : gmap string (list Z)),
              x ∈ acc ↔ ∃ s l, m !! s = Some l ∧ x ∈ l)).
  - split; [set_solver |]. intros (s & l & Hs & _). by rewrite lookup_empty in Hs.
  - intros s l m acc Hfresh IH. rewrite elem_of_union, elem_of_list_to_set, IH. split.
    + intros [Hx | (s' & l' & Hs' & Hx)].
      * exists s, l. by rewrite lookup_insert_eq.
      * exists s', l'. rewrite lookup_insert_ne; [done |]. intros ->. congruence.
    + intros (s' & l' & Hs' & Hx).
      destruct (decide (s = s')) as [<- | Hne].
      * rewrite lookup_insert_eq in Hs'. left. congruence.
      * rewrite lookup_insert_ne in Hs' by done. right. eauto.
Qed.

Lemma add_citation_recorded st section_name rid :
  ∃ ref_list,
    citations (add_citation st section_name rid) !! section_name = Some ref_list
    ∧ rid ∈ ref_list.
Proof.
  unfold add_citation. simpl.
  destruct (citations st !! section_name) as [l |] eqn:E.
  - rewrite E. simpl. destruct (decide (rid ∈ l)) as [Hin | Hout].
    + exists l. by rewrite E.
    + exists (l ++ [rid]). rewrite lookup_insert_eq. set_solver.
  - rewrite lookup_insert_eq. simpl.
    exists [rid]. rewrite lookup_insert_eq. set_solver.
Qed.

(** C10: [add_citation] records the ID it is given whatever the stored
    references are, in the section's list and in the global order, and
    touches no reference; [get_citation_summary] reports as uncited the
    number of references minus the number of distinct IDs found in the
    citation lists; after one citation of an unknown ID in an empty
    manager that number is -1. *)
Theorem uncited_references_can_be_negative :
  (∀ st section_name rid,
     references (add_citation st section_name rid) = references st
     ∧ (∃ ref_list,
          citations (add_citation st section_name rid) !! section_name = Some ref_list
          ∧ rid ∈ ref_list)
     ∧ rid ∈ citation_order (add_citation st section_name rid))
  ∧ (∀ st, ∃ cited : gset Z,
       (∀ x, x ∈ cited ↔ ∃ s l, citations st !! s = Some l ∧ x ∈ l)
       ∧ total_references (get_citation_summary st) = length (references st)
       ∧ uncited_references (get_citation_summary st)
         = Z.of_nat (length (references st)) - Z.of_nat (size cited))
  ∧ get_reference_by_id (references init) 7 = None
  ∧ uncited_references (get_citation_summary (add_citation init "Intro" 7)) = -1.
Proof.
  split; [| split; [| split]].
  - intros st section_name rid. split; [done |]. split; [apply add_citation_recorded |].
    unfold add_citation. simpl. case_decide; set_solver.
  - intros st. exists (cited_anywhere (citations st)).
    split; [apply elem_of_cited_anywhere | done].
  - done.
  - by vm_compute.
Qed.

(** ** Removing a reference *)

Lemma get_reference_by_id_None refs rid :
  get_reference_by_id refs rid = None ↔ ∀ ref, ref ∈ refs → ref_id ref ≠ rid.
Proof.
  unfold get_reference_by_id. induction refs as [| r refs IH]; simpl.
  - split; [| done]. intros _ ref Href. by apply elem_of_nil in Href.
  - destruct (ref_id r =? rid) eqn:E.
    + split; [done |]. intros H. apply Z.eqb_eq in E. destruct (H r); [by left | done].
    + apply Z.eqb_neq in E. rewrite IH. split.
      * intros H ref [-> | Href]%elem_of_cons; auto.
      * intros H ref Href. apply H. by right.
Qed.

Lemma get_reference_by_id_Some refs rid ref :
  get_reference_by_id refs rid = Some ref → ref ∈ refs ∧ ref_id ref = rid.
Proof.
  unfold get_reference_by_id. intros H. apply find_some in H as [Hin Heq].
  apply list_elem_of_In in Hin. by apply Z.eqb_eq in Heq.
Qed.

Lemma elem_of_filter_bool {A} (p : A → bool) (l : list A) x :
  x ∈ List.filter p l ↔ x ∈ l ∧ p x = true.
Proof. rewrite !list_elem_of_In. apply filter_In. Qed.

Lemma filter_bool_all {A} (p : A → bool) (l : list A) :
  (∀ x, x ∈ l → p x = true) → List.filter p l = l.
Proof.
  induction l as [| x l IH]; intros H; simpl; [done |].
  rewrite (H x) by (by left). f_equal. apply IH. intros y Hy. apply H. by right.
Qed.

Lemma elem_of_list_remove_first_ne rid (l : list Z) x :
  x ≠ rid → x ∈ list_remove_first rid l ↔ x ∈ l.
Proof.
  intros Hx. induction l as [| y l IH]; simpl; [done |].
  destruct (decide (y = rid)) as [-> | Hy].
  - rewrite elem_of_cons. tauto.
  - rewrite !elem_of_cons, IH. done.
Qed.

Lemma list_remove_first_NoDup rid (l : list Z) :
  NoDup l → rid ∉ list_remove_first rid l.
Proof.
  induction 1 as [| y l Hy Hl IH]; simpl; [apply not_elem_of_nil |].
  destruct (decide (y = rid)) as [-> | Hne]; [done |].
  apply not_elem_of_cons. split; [by intros -> | done].
Qed.

Lemma list_remove_first_fresh rid (l : list Z) :
  rid ∉ l → list_remove_first rid l = l.
Proof.
  induction l as [| y l IH]; simpl; [done |].
  intros [Hne Hl]%not_elem_of_cons.
  rewrite decide_False by (by intros ->). f_equal. by apply IH.
Qed.

Lemma filter_bool_ne {A} (f : A → Z) rid (l : list A) :
  List.filter (λ a, negb (f a =? rid)) l = filter (λ a, f a ≠ rid) l.
Proof.
  induction l as [| a l IH]; [done |].
  simpl. rewrite filter_cons, IH.
  destruct (Z.eqb_spec (f a) rid), (decide (f a ≠ rid)); simpl; done.
Qed.

Lemma list_remove_first_split rid (pre post : list Z) :
  rid ∉ pre → list_remove_first rid (pre ++ rid :: post) = pre ++ post.
Proof.
  induction pre as [| y pre IH]; simpl.
  - intros _. by rewrite decide_True.
  - intros [Hne Hpre]%not_elem_of_cons.
    rewrite decide_False by done. f_equal. by apply IH.
Qed.

(** C6, as amended: [remove_reference] returns true for every ID, whether
    or not a reference has it.  The new list of references is the old one
    without the references of that ID, the others in place; every
    section keeps its citation list without that ID, the other IDs in
    place; the global order loses the first occurrence of the ID, and
    only that one, and is unchanged when the ID is not in it.  No
    reference of the new list has the ID, and when no reference had it
    the list of references is unchanged. *)
Theorem remove_reference_returns_true st rid :
  let st' := (remove_reference st rid).2 in
  (remove_reference st rid).1 = true
  ∧ references st' = filter (λ ref, ref_id ref ≠ rid) (references st)
  ∧ citations st' = filter (λ x, x ≠ rid) <$> citations st
  ∧ (rid ∉ citation_order st → citation_order st' = citation_order st)
  ∧ (∀ pre post,
       citation_order st = pre ++ rid :: post → rid ∉ pre →
       citation_order st' = pre ++ post)
  ∧ (∀ ref, ref ∈ references st' → ref_id ref ≠ rid)
  ∧ ((∀ ref, ref ∈ references st → ref_id ref ≠ rid) →
     references st' = references st).
Proof.
  intros st'.
  assert (references st' = filter (λ ref, ref_id ref ≠ rid) (references st)) as Hrefs
    by apply filter_bool_ne.
  split; [done |]. split; [done |]. split; [| split; [| split; [| split]]].
  - simpl. apply map_eq. intros s. rewrite !lookup_fmap.
    destruct (citations st !! s) as [l |]; simpl; [| done].
    f_equal. apply (filter_bool_ne id).
  - intros Hout. simpl. by rewrite decide_False.
  - intros pre post Heq Hpre. simpl. rewrite decide_True.
    + rewrite Heq. by apply list_remove_first_split.
    + rewrite Heq, elem_of_app, elem_of_cons. tauto.
  - intros ref. rewrite Hrefs, list_elem_of_filter. tauto.
  - intros Hnone. simpl. apply filter_bool_all. intros ref Href.
    rewrite negb_true_iff, Z.eqb_neq. by apply Hnone.
Qed.

Lemma remove_reference_returns_true_witness :
  let ref n := {| ref_id := n; formatted := "Silva J. A title. J Med. 2020.";
                  doi := EmptyString; source := FromDoi |} in
  let st := {| references := [ref 3; ref 5; ref 1];
               citations := {[ "Intro" := [5; 3; 5] ]};
               citation_order := [3; 5; 1; 5] |} in
  citation_order (remove_reference st 5).2 = [3; 1; 5]
  ∧ references (remove_reference st 5).2 = [ref 3; ref 1]
  ∧ citations (remove_reference st 5).2 = {[ "Intro" := [3] ]}.
Proof.
  intros ref st.
  destruct (remove_reference_returns_true st 5) as (_ & Hrefs & Hcits & _ & Horder & _).
  split; [| split].
  - apply (Horder [3] [1; 5]); [reflexivity |].
    rewrite list_elem_of_singleton. discriminate.
  - exact Hrefs.
  - rewrite Hcits. reflexivity.
Defined.

(** C6 as stated fails: no reference has the ID 5 in a new manager, and
    removing it returns true. *)
Lemma remove_absent_returns_true :
  get_reference_by_id (references init) 5 = None
  ∧ (remove_reference init 5).1 = true
  ∧ (remove_reference init 5).1 ≠ false.
Proof. split; [reflexivity | split; [reflexivity | discriminate]]. Qed.

(** ** Adding a reference *)

Lemma join_length_ge sep (l : list string) x :
  x ∈ l → (String.length x ≤ String.length (join sep l))%nat.
Proof.
  induction l as [| y l IH]; [intros H; by apply elem_of_nil in H |].
  intros Hx. unfold join in *. simpl. destruct l as [| z l].
  - apply list_elem_of_singleton in Hx as ->. done.
  - rewrite !string_length_app. apply elem_of_cons in Hx as [-> | Hx]; [lia |].
    specialize (IH Hx). lia.
Qed.

Lemma is_empty_false s : is_empty s = false ↔ s ≠ EmptyString.
Proof. by destruct s. Qed.

Lemma is_empty_true s : is_empty s = true ↔ s = EmptyString.
Proof. by destruct s. Qed.

Lemma format_manual_vancouver_nonempty authors title journal year volume issue pages doi :
  title ≠ EmptyString →
  format_manual_vancouver authors title journal year volume issue pages doi ≠ EmptyString.
Proof.
  intros Htitle Hnil.
  assert (String.length (title +:+ ".")
          ≤ String.length
              (format_manual_vancouver authors title journal year volume issue pages doi))%nat
    as Hlen.
  { apply join_length_ge. cbv zeta.
    apply is_empty_false in Htitle. rewrite Htitle.
    repeat match goal with
           | |- context [is_empty ?s] => destruct (is_empty s)
           end; simpl; rewrite ?elem_of_app, ?elem_of_cons; auto 10. }
  rewrite Hnil, string_length_app in Hlen. simpl in Hlen. lia.
Qed.

(** C8: [add_manual_reference] returns no ID and leaves the manager as it
    was when one of authors, title, journal, year is empty, and only then;
    when the four are non-empty it returns the ID of a reference it has
    appended to the list, whose formatted string is not empty. *)
Theorem add_manual_reference_validation
    st authors title journal year volume issue pages doi :
  (authors = EmptyString ∨ title = EmptyString ∨ journal = EmptyString ∨ year = EmptyString →
   add_manual_reference st authors title journal year volume issue pages doi = (None, st))
  ∧ (authors ≠ EmptyString → title ≠ EmptyString → journal ≠ EmptyString →
     year ≠ EmptyString →
     ∃ ref,
       add_manual_reference st authors title journal year volume issue pages doi
       = (Some (ref_id ref),
          {| references := references st ++ [ref];
             citations := citations st;
             citation_order := citation_order st |})
       ∧ formatted ref ≠ EmptyString
       ∧ ref_id ref = Z.of_nat (length (references st)) + 1)
  ∧ ((add_manual_reference st authors title journal year volume issue pages doi).1 = None
     ↔ authors = EmptyString ∨ title = EmptyString ∨ journal = EmptyString
       ∨ year = EmptyString).
Proof.
  unfold add_manual_reference.
  destruct (is_empty authors) eqn:Ha; [apply is_empty_true in Ha |];
    [split; [done | split; [intros; congruence | split; [auto | done]]] |].
  destruct (is_empty title) eqn:Ht; [apply is_empty_true in Ht |];
    [split; [done | split; [intros; congruence | split; [auto | done]]] |].
  destruct (is_empty journal) eqn:Hj; [apply is_empty_true in Hj |];
    [split; [done | split; [intros; congruence | split; [auto | done]]] |].
  destruct (is_empty year) eqn:Hy; [apply is_empty_true in Hy |];
    [split; [done | split; [intros; congruence | split; [auto | done]]] |].
  apply is_empty_false in Ha, Ht, Hj, Hy. simpl.
  split; [intros [? | [? | [? | ?]]]; done |]. split.
  - intros _ _ _ _.
    match goal with |- context [references st ++ [?r]] => exists r end.
    split; [done |]. split; [| done].
    simpl. by apply format_manual_vancouver_nonempty.
  - split; [done |]. intros [? | [? | [? | ?]]]; done.
Qed.

Lemma add_manual_reference_validation_witness :
  add_manual_reference init EmptyString "A title" "J Med" "2020" "12" "3" "1-9" "10.1000/x1"
  = (None, init)
  ∧ ∃ ref,
      add_manual_reference init "Silva J" "A title" "J Med" "2020" "12" "3" "1-9" "10.1000/x1"
      = (Some (ref_id ref),
         {| references := references init ++ [ref];
            citations := citations init;
            citation_order := citation_order init |})
      ∧ formatted ref ≠ EmptyString
      ∧ ref_id ref = Z.of_nat (length (references init)) + 1.
Proof.
  split.
  - apply (add_manual_reference_validation
             init EmptyString "A title" "J Med" "2020" "12" "3" "1-9" "10.1000/x1").
    left. reflexivity.
  - apply (add_manual_reference_validation
             init "Silva J" "A title" "J Med" "2020" "12" "3" "1-9" "10.1000/x1"); discriminate.
Defined.

(** C5: both ways of adding give the new reference the ID
    [len(self.references) + 1], not the largest ID plus one.  After two
    references are added and the first is removed, the one left has the
    ID 2, and the next reference added gets the ID 2 as well. *)
Theorem add_after_remove_reuses_id :
  (∀ st authors title journal year volume issue pages doi new_id st',
     add_manual_reference st authors title journal year volume issue pages doi
     = (Some new_id, st') →
     new_id = Z.of_nat (length (references st)) + 1)
  ∧ (∀ Metadata fetch format extract st doi new_id st',
       add_reference_from_doi Metadata fetch format extract st doi = (Some new_id, st') →
       new_id = Z.of_nat (length (references st)) + 1)
  ∧ (let add st authors title year :=
       add_manual_reference st authors title "J Med" year "12" "3" "1-9" "10.1000/x1" in
     let st1 := (add init "Silva J" "First" "2020").2 in
     let st2 := (add st1 "Souza M" "Second" "2021").2 in
     let st3 := (remove_reference st2 1).2 in
     let added := add st3 "Costa A" "Third" "2022" in
     ref_id <$> references st2 = [1; 2]
     ∧ ref_id <$> references st3 = [2]
     ∧ added.1 = Some 2
     ∧ ref_id <$> references added.2 = [2; 2]).
Proof.
  split; [| split].
  - intros st authors title journal year volume issue pages doi new_id st'.
    unfold add_manual_reference.
    destruct (_ || _); [done |]. by intros [= <- _].
  - intros Metadata fetch format extract st doi new_id st'.
    unfold add_reference_from_doi.
    destruct (is_empty _); [done |].
    destruct (fetch _); [| done]. by intros [= <- _].
  - by vm_compute.
Qed.

Lemma add_after_remove_reuses_id_witness :
  (add_manual_reference init "Silva J" "First" "J Med" "2020" "12" "3" "1-9" "10.1000/x1").1
  = Some 1
  ∧ 1 = Z.of_nat (length (references init)) + 1.
Proof.
  split; [reflexivity |].
  eapply (proj1 add_after_remove_reuses_id
            init "Silva J" "First" "J Med" "2020" "12" "3" "1-9" "10.1000/x1").
  reflexivity.
Defined.

(** ** Renumbering with nothing to renumber *)

Lemma compute_renumbering_no_refs cited : compute_renumbering [] cited = (∅, [], 1).
Proof.
  unfold compute_renumbering. simpl.
  generalize ((∅, [], 1) : renumbering). intros acc.
  induction cited as [| x cited IH]; [done |]. simpl. apply IH.
Qed.

Lemma remap_list_empty l : remap_list ∅ l = [].
Proof.
  unfold remap_list. induction l as [| x l IH]; [done |].
  simpl. by rewrite lookup_empty.
Qed.

Lemma reorder_nonempty st (sections_content : list (string * string)) :
  sections_content ≠ [] →
  reorder_references_by_citation st (Some sections_content)
  = let cited := text_citation_order sections_content in
    let '(id_mapping, new_references, _) := compute_renumbering (references st) cited in
    (Some id_mapping,
     {| references := new_references;
        citations := remap_list id_mapping <$> citations st;
        citation_order := remap_list id_mapping (citation_order st) |}).
Proof. by destruct sections_content. Qed.

(** C9, as amended: with no sections map, or an empty one, the method
    returns nothing and the manager is unchanged.  With sections but no
    stored reference it returns the empty mapping, and the list of
    references stays empty; every section's citation list and the global
    citation order come out empty, so they are unchanged only when they
    were empty already. *)
Theorem reorder_without_sections_or_references st :
  reorder_references_by_citation st None = (None, st)
  ∧ reorder_references_by_citation st (Some []) = (None, st)
  ∧ (∀ sections_content,
       sections_content ≠ [] → references st = [] →
       reorder_references_by_citation st (Some sections_content)
       = (Some ∅,
          {| references := [];
             citations := (λ _, []) <$> citations st;
             citation_order := [] |})).
Proof.
  split; [done |]. split; [done |].
  intros sections_content Hne Hrefs.
  rewrite (reorder_nonempty st sections_content Hne). cbv zeta.
  rewrite Hrefs, compute_renumbering_no_refs. f_equal. f_equal.
  - apply map_fmap_ext. intros s l _. apply remap_list_empty.
  - apply remap_list_empty.
Qed.

Lemma reorder_without_sections_or_references_witness :
  reorder_references_by_citation init (Some [("Intro", "see [1]")])
  = (Some ∅,
     {| references := [];
        citations := (λ _, []) <$> citations init;
        citation_order := [] |}).
Proof.
  apply (reorder_without_sections_or_references init); [discriminate | reflexivity].
Defined.

(** C9 as stated fails: a manager with no reference can hold a citation
    (here of the ID 5), and reordering then empties the section's citation
    list and the global order. *)
Lemma reorder_without_references_clears_citations :
  let st := add_citation init "Intro" 5 in
  let st' := (reorder_references_by_citation st (Some [("Intro", "see [5]")])).2 in
  references st = []
  ∧ citations st !! "Intro" = Some [5] ∧ citation_order st = [5]
  ∧ citations st' !! "Intro" = Some [] ∧ citation_order st' = []
  ∧ st' ≠ st.
Proof.
  intros st st'. repeat split; by vm_compute.
Qed.

(** ** Order of first appearance *)

Section first_appearance.
Context {A : Type} `{EqDecision A}.
Implicit Types l base : list A.

Lemma elem_of_first_appearance l x : x ∈ first_appearance l ↔ x ∈ l.
Proof.
  induction l as [| y l IH]; simpl; [done |].
  rewrite !elem_of_cons, list_elem_of_filter, IH.
  destruct (decide (x = y)); tauto.
Qed.

Lemma NoDup_first_appearance l : NoDup (first_appearance l).
Proof.
  induction l as [| y l IH]; simpl; [constructor |].
  constructor; [| by apply NoDup_filter].
  rewrite list_elem_of_filter. tauto.
Qed.

Lemma filter_filter_comm (P Q : A → Prop) `{∀ x, Decision (P x)} `{∀ x, Decision (Q x)} l :
  filter P (filter Q l) = filter Q (filter P l).
Proof. rewrite !list_filter_filter. apply list_filter_iff. intros x. tauto. Qed.

Lemma filter_drop_other (P : A → Prop) `{∀ x, Decision (P x)} y l :
  ¬ P y → filter P (filter (λ x, x ≠ y) l) = filter P l.
Proof.
  intros Hy. rewrite list_filter_filter. apply list_filter_iff.
  intros x. split; [tauto |]. intros Hx. split; [done |]. by intros ->.
Qed.

Lemma filter_ne_fresh y l : y ∉ l → filter (λ x, x ≠ y) l = l.
Proof.
  induction l as [| z l IH]; [done |].
  intros [Hzy Hy]%not_elem_of_cons.
  rewrite filter_cons, decide_True by (by intros ->). f_equal. by apply IH.
Qed.

Lemma first_appearance_filter (P : A → Prop) `{∀ x, Decision (P x)} l :
  first_appearance (filter P l) = filter P (first_appearance l).
Proof.
  induction l as [| y l IH]; simpl; [done |].
  rewrite filter_cons. destruct (decide (P y)) as [Hy | Hy].
  - simpl. rewrite filter_cons, decide_True by done.
    f_equal. rewrite IH. apply filter_filter_comm.
  - rewrite filter_cons, decide_False by done.
    rewrite IH. symmetry. by apply filter_drop_other.
Qed.

Lemma first_appearance_NoDup l : NoDup l → first_appearance l = l.
Proof.
  induction 1 as [| y l Hy Hl IH]; simpl; [done |].
  f_equal. rewrite IH. by apply filter_ne_fresh.
Qed.

(** The loop [if x not in acc: acc.append(x)] keeps first occurrences. *)
Lemma foldl_append_new base l :
  foldl (λ acc x, if decide (x ∈ acc) then acc else acc ++ [x]) base l
  = base ++ first_appearance (filter (λ x, x ∉ base) l).
Proof.
  revert base. induction l as [| y l IH]; intros base; simpl.
  - by rewrite app_nil_r.
  - rewrite filter_cons. destruct (decide (y ∈ base)) as [Hy | Hy].
    + rewrite decide_False by (by intros ?). apply IH.
    + rewrite decide_True by done. rewrite IH. simpl.
      rewrite <- app_assoc. simpl. do 2 f_equal.
      rewrite <- first_appearance_filter, list_filter_filter.
      f_equal. apply list_filter_iff. intros x.
      rewrite elem_of_app, list_elem_of_singleton. tauto.
Qed.

Lemma foldl_append_new_nil l :
  foldl (λ acc x, if decide (x ∈ acc) then acc else acc ++ [x]) [] l
  = first_appearance l.
Proof.
  rewrite foldl_append_new. simpl. f_equal.
  induction l as [| y l IH]; [done |].
  rewrite filter_cons, decide_True by apply not_elem_of_nil. by f_equal.
Qed.

End first_appearance.

(** ** The order of citation found by the scan *)

Lemma foldl_record_citation acc (groups : list string) :
  foldl record_citation acc groups
  = foldl (λ acc x, if decide (x ∈ acc) then acc else acc ++ [x]) acc
          (concat (parse_ids <$> groups)).
Proof.
  revert acc. induction groups as [| g groups IH]; intros acc; simpl; [done |].
  by rewrite foldl_app, IH.
Qed.

Lemma text_ids_nil : text_ids EmptyString = [].
Proof. done. Qed.

Lemma foldl_sections sections_content (names : list string) acc :
  foldl (λ citation_order section_name,
           match section_text sections_content section_name with
           | Some text => foldl record_citation citation_order (re_findall text)
           | None => citation_order
           end) acc names
  = foldl (λ acc x, if decide (x ∈ acc) then acc else acc ++ [x]) acc
      (concat ((λ name, text_ids (default EmptyString (section_text sections_content name)))
                 <$> names)).
Proof.
  revert acc. induction names as [| name names IH]; intros acc; simpl; [done |].
  rewrite foldl_app, IH. f_equal.
  destruct (section_text sections_content name) as [text |]; simpl; [| done].
  apply foldl_record_citation.
Qed.

Lemma scan_citation_order_eq sections_content (names : list string) :
  scan_citation_order sections_content names
  = first_appearance
      (concat ((λ name, text_ids (default EmptyString (section_text sections_content name)))
                 <$> names)).
Proof.
  unfold scan_citation_order. rewrite foldl_sections. apply foldl_append_new_nil.
Qed.

Lemma text_citation_order_NoDup sections_content :
  NoDup (text_citation_order sections_content).
Proof.
  unfold text_citation_order. rewrite scan_citation_order_eq.
  apply NoDup_first_appearance.
Qed.

Lemma extend_section_order_eq (base names : list string) :
  extend_section_order base names
  = base ++ first_appearance (filter (λ s, s ∉ base) names).
Proof. apply foldl_append_new. Qed.

Lemma section_text_None (sections_content : list (string * string)) name :
  name ∉ sections_content.*1 → section_text sections_content name = None.
Proof.
  unfold section_text. induction sections_content as [| [k v] sc IH]; simpl; [done |].
  intros [Hk Hsc]%not_elem_of_cons.
  destruct (String.eqb k name) eqn:E; [by apply String.eqb_eq in E |].
  by apply IH.
Qed.

Lemma concat_fmap_filter {A B} (f : A → list B) (P : A → Prop) `{∀ x, Decision (P x)} l :
  (∀ x, ¬ P x → f x = []) → concat (f <$> filter P l) = concat (f <$> l).
Proof.
  intros Hf. induction l as [| x l IH]; [done |].
  rewrite filter_cons. destruct (decide (P x)) as [Hx | Hx]; csimpl.
  - by rewrite IH.
  - by rewrite IH, (Hf x Hx).
Qed.

(** The scan of the code finds the IDs in the order of their first
    appearance in the sections taken in canonical order. *)
Lemma text_citation_order_spec sections_content :
  NoDup sections_content.*1 →
  text_citation_order sections_content
  = first_appearance (appearance_sequence sections_content).
Proof.
  intros Hnodup. unfold text_citation_order, appearance_sequence, canonical_sections.
  rewrite scan_citation_order_eq, extend_section_order_eq.
  rewrite (first_appearance_NoDup (filter _ _)) by (by apply NoDup_filter).
  rewrite !fmap_app, !concat_app. do 2 f_equal.
  symmetry. apply (concat_fmap_filter _ (λ s, s ∈ sections_content.*1)).
  intros name Hname. by rewrite (section_text_None _ _ Hname).
Qed.

(** ** Numbering a list of IDs *)

Lemma number_from_app m next (l1 l2 : list Z) :
  number_from m next (l1 ++ l2)
  = number_from (number_from m next l1) (next + Z.of_nat (length l1)) l2.
Proof.
  revert m next. induction l1 as [| x l1 IH]; intros m next.
  - simpl. by rewrite Z.add_0_r.
  - cbn [app number_from length]. rewrite IH. f_equal. lia.
Qed.

Lemma number_from_fresh m next (l : list Z) x :
  x ∉ l → number_from m next l !! x = m !! x.
Proof.
  revert m next. induction l as [| y l IH]; intros m next; simpl; [done |].
  intros [Hxy Hx]%not_elem_of_cons. rewrite IH by done. by rewrite lookup_insert_ne.
Qed.

Lemma number_from_lookup m next (l : list Z) i x :
  NoDup l → l !! i = Some x → number_from m next l !! x = Some (next + Z.of_nat i).
Proof.
  revert m next i. induction l as [| y l IH]; intros m next i Hnd Hi; [done |].
  apply NoDup_cons in Hnd as [Hy Hnd]. destruct i as [| i].
  - injection Hi as ->. cbn [number_from]. rewrite number_from_fresh by done.
    rewrite lookup_insert_eq. f_equal. lia.
  - cbn [number_from]. rewrite (IH _ _ i) by done. f_equal. lia.
Qed.

Lemma number_from_Some next (l : list Z) x v :
  NoDup l →
  number_from ∅ next l !! x = Some v ↔ ∃ i, l !! i = Some x ∧ v = next + Z.of_nat i.
Proof.
  intros Hnd. split.
  - intros Hv. destruct (decide (x ∈ l)) as [Hx | Hx].
    + apply list_elem_of_lookup in Hx as [i Hi]. exists i. split; [done |].
      rewrite (number_from_lookup _ _ _ i x Hnd Hi) in Hv. congruence.
    + rewrite number_from_fresh, lookup_empty in Hv by done. done.
  - intros (i & Hi & ->). by apply number_from_lookup.
Qed.

(** ** The two renumbering loops *)

Lemma foldl_renumber_cited_live refs (l : list Z) acc :
  foldl (renumber_cited refs) acc l
  = foldl (renumber_cited refs) acc
      (filter (λ x, is_Some (get_reference_by_id refs x)) l).
Proof.
  revert acc. induction l as [| x l IH]; intros acc; [done |].
  rewrite filter_cons. destruct (decide (is_Some (get_reference_by_id refs x))) as [Hx | Hx].
  - simpl. apply IH.
  - simpl. rewrite <- IH. f_equal. unfold renumber_cited.
    destruct (get_reference_by_id refs x); [| done]. by destruct Hx.
Qed.

(** The first loop on IDs that all have a reference *)
Lemma foldl_renumber_cited refs (l : list Z) : ∀ m nr next,
  Forall (λ x, is_Some (get_reference_by_id refs x)) l →
  ∃ added,
    foldl (renumber_cited refs) (m, nr, next) l
    = (number_from m next l, nr ++ added, next + Z.of_nat (length l))
    ∧ length added = length l
    ∧ ∀ i x, l !! i = Some x →
        ∃ ref, get_reference_by_id refs x = Some ref
               ∧ added !! i = Some (with_id ref (next + Z.of_nat i)).
Proof.
  induction l as [| x l IH]; intros m nr next Hlive.
  - exists []. simpl. rewrite app_nil_r, Z.add_0_r. done.
  - apply Forall_cons in Hlive as [[ref Hx] Hlive]. cbn [foldl].
    unfold renumber_cited at 2. rewrite Hx.
    destruct (IH (<[x := next]> m) (nr ++ [with_id ref next]) (next + 1) Hlive)
      as (added & -> & Hlen & Hadded).
    exists (with_id ref next :: added). split; [| split].
    + rewrite <- app_assoc. cbn [number_from app length]. f_equal. lia.
    + cbn [length]. by rewrite Hlen.
    + intros [| i] y Hy.
      * injection Hy as <-. exists ref. by rewrite Z.add_0_r.
      * destruct (Hadded i y Hy) as (r & Hr & Hi). exists r. split; [done |].
        change ((with_id ref next :: added) !! S i) with (added !! i).
        rewrite Hi. do 2 f_equal. lia.
Qed.

Lemma foldl_renumber_uncited cited (refs : list Reference) acc :
  foldl (renumber_uncited cited) acc refs
  = foldl assign acc (filter (λ r, ref_id r ∉ cited) refs).
Proof.
  revert acc. induction refs as [| r refs IH]; intros acc; [done |].
  rewrite filter_cons. simpl. unfold renumber_uncited at 2.
  destruct (decide (ref_id r ∈ cited)) as [Hr | Hr].
  - rewrite decide_False by (by intros ?). apply IH.
  - rewrite decide_True by done. simpl. apply IH.
Qed.

Lemma foldl_assign (refs : list Reference) : ∀ m nr next,
  ∃ added,
    foldl assign (m, nr, next) refs
    = (number_from m next (ref_id <$> refs), nr ++ added,
       next + Z.of_nat (length refs))
    ∧ length added = length refs
    ∧ ∀ i r, refs !! i = Some r → added !! i = Some (with_id r (next + Z.of_nat i)).
Proof.
  induction refs as [| r refs IH]; intros m nr next.
  - exists []. simpl. rewrite app_nil_r, Z.add_0_r. done.
  - cbn [foldl assign].
    destruct (IH (<[ref_id r := next]> m) (nr ++ [with_id r next]) (next + 1))
      as (added & -> & Hlen & Hadded).
    exists (with_id r next :: added). split; [| split].
    + rewrite <- app_assoc. cbn [fmap list_fmap number_from app length].
      f_equal. lia.
    + cbn [length]. by rewrite Hlen.
    + intros [| i] y Hy.
      * injection Hy as <-. by rewrite Z.add_0_r.
      * change ((with_id r next :: added) !! S i) with (added !! i).
        rewrite (Hadded i y Hy). do 2 f_equal. lia.
Qed.

(** The result of the two loops: the cited IDs that have a reference are
    numbered from 1 in the order of citation, then the references not
    cited in the order of the list. *)
Lemma compute_renumbering_eq refs cited :
  let live := filter (λ x, is_Some (get_reference_by_id refs x)) cited in
  let uncited := filter (λ r, ref_id r ∉ cited) refs in
  ∃ added1 added2,
    compute_renumbering refs cited
    = (number_from ∅ 1 (live ++ (ref_id <$> uncited)),
       added1 ++ added2,
       1 + Z.of_nat (length live) + Z.of_nat (length uncited))
    ∧ length added1 = length live
    ∧ (∀ i x, live !! i = Some x →
         ∃ ref, get_reference_by_id refs x = Some ref
                ∧ added1 !! i = Some (with_id ref (1 + Z.of_nat i)))
    ∧ (∀ j r, uncited !! j = Some r →
         added2 !! j = Some (with_id r (1 + Z.of_nat (length live) + Z.of_nat j))).
Proof.
  intros live uncited. unfold compute_renumbering.
  rewrite foldl_renumber_cited_live. fold live.
  destruct (foldl_renumber_cited refs live ∅ [] 1) as (added1 & -> & Hlen1 & H1).
  { apply Forall_forall. intros x Hx. by apply list_elem_of_filter in Hx as [? _]. }
  rewrite foldl_renumber_uncited. fold uncited.
  destruct (foldl_assign uncited (number_from ∅ 1 live) ([] ++ added1)
              (1 + Z.of_nat (length live))) as (added2 & -> & _ & H2).
  exists added1, added2. rewrite number_from_app. by simpl.
Qed.

(** ** Renumbering: the cited references *)

Lemma filter_all_prop {A} (P : A → Prop) `{∀ x, Decision (P x)} (l : list A) :
  Forall P l → filter P l = l.
Proof.
  induction 1 as [| x l Hx Hl IH]; [done |].
  by rewrite filter_cons, decide_True, IH.
Qed.

Lemma filter_none_prop {A} (P : A → Prop) `{∀ x, Decision (P x)} (l : list A) :
  Forall (λ x, ¬ P x) l → filter P l = [].
Proof.
  induction 1 as [| x l Hx Hl IH]; [done |].
  by rewrite filter_cons, decide_False, IH.
Qed.

Lemma get_reference_by_id_is_Some refs rid :
  is_Some (get_reference_by_id refs rid) ↔ rid ∈ ref_id <$> refs.
Proof.
  rewrite list_elem_of_fmap. split.
  - intros [ref Href]. apply get_reference_by_id_Some in Href as [Hin <-]. eauto.
  - intros (ref & -> & Hin).
    destruct (get_reference_by_id refs (ref_id ref)) as [r |] eqn:E; [by eexists |].
    by destruct (proj1 (get_reference_by_id_None _ _) E ref Hin).
Qed.

Lemma uncited_ids_fresh (refs : list Reference) (cited : list Z) x :
  x ∈ cited → x ∉ ref_id <$> filter (λ r, ref_id r ∉ cited) refs.
Proof.
  intros Hx (r & -> & Hr)%list_elem_of_fmap.
  by apply list_elem_of_filter in Hr as [Hr _].
Qed.

(** The cited IDs, all with a reference, get the numbers 1, 2, ... in
    the order of first appearance, and so do their references. *)
Lemma reorder_cited_first_appearance st sections_content :
  NoDup sections_content.*1 →
  (∀ x, x ∈ appearance_sequence sections_content →
        is_Some (get_reference_by_id (references st) x)) →
  ∀ i x, first_appearance (appearance_sequence sections_content) !! i = Some x →
    ∃ m st' ref,
      reorder_references_by_citation st (Some sections_content) = (Some m, st')
      ∧ m !! x = Some (Z.of_nat i + 1)
      ∧ get_reference_by_id (references st) x = Some ref
      ∧ references st' !! i = Some (with_id ref (Z.of_nat i + 1)).
Proof.
  intros Hkeys Hlive i x Hi.
  assert (sections_content ≠ []) as Hne by (by intros ->).
  rewrite (reorder_nonempty st sections_content Hne). cbv zeta.
  rewrite (text_citation_order_spec sections_content Hkeys).
  set (order := first_appearance (appearance_sequence sections_content)) in *.
  destruct (compute_renumbering_eq (references st) order)
    as (added1 & added2 & -> & Hlen & H1 & _).
  rewrite filter_all_prop in Hlen, H1 |- *.
  2-4: apply Forall_forall; intros y Hy; by apply Hlive, elem_of_first_appearance.
  destruct (H1 i x Hi) as (ref & Href & Hadd).
  eexists _, _, ref. split; [done |]. split; [| split; [done |]].
  - rewrite number_from_app, number_from_fresh.
    + rewrite (number_from_lookup _ _ _ i x); [f_equal; lia | | done].
      apply NoDup_first_appearance.
    + apply uncited_ids_fresh. apply list_elem_of_lookup. eauto.
  - simpl. rewrite lookup_app_l; [| rewrite Hlen; by eapply lookup_lt_Some].
    rewrite Hadd. do 2 f_equal. lia.
Qed.

Lemma reorder_scenario st :
  (∀ x, x ∈ ref_id <$> references st ↔ x ∈ [1; 2; 3]) →
  (reorder_references_by_citation st
     (Some [("Intro", "finding [3] and [1,3]"); ("Methods", "see [2]")])).1
  = Some {[3 := 1; 1 := 2; 2 := 3]}.
Proof.
  intros Hids. rewrite reorder_nonempty by done. cbv zeta.
  change (text_citation_order _) with [3; 1; 2].
  destruct (compute_renumbering_eq (references st) [3; 1; 2])
    as (added1 & added2 & -> & _).
  simpl. f_equal.
  rewrite filter_all_prop, filter_none_prop; [done | |].
  - apply Forall_forall. intros r Hr Hout. apply Hout.
    assert (ref_id r ∈ [1; 2; 3]) as H by (apply Hids; by apply list_elem_of_fmap_2).
    rewrite !elem_of_cons in H |- *. tauto.
  - apply Forall_forall. intros x Hx. apply get_reference_by_id_is_Some, Hids.
    rewrite !elem_of_cons in Hx |- *. tauto.
Qed.

(** ** The cited IDs of the specification and the scan of the code *)

Lemma cites_text_ids text : cites text (text_ids text).
Proof.
  induction text as [| g rest c s Heq Hm IH | c s Hm IH] using scan_ind.
  - apply cites_end.
  - rewrite (text_ids_token c s g rest Hm), Heq.
    apply match_citation_iff in Hm as [[ds Hds] _].
    rewrite (parse_ids_id_runs g ds Hds).
    assert (citation_token (token_then g EmptyString) (int_of_str <$> ds)) as Htok.
    { exists g. split; [done |]. apply id_list_iff. eauto. }
    replace (token_then g rest) with (token_then g EmptyString +:+ rest)
      by (unfold token_then; simpl; by rewrite string_app_assoc).
    by apply cites_token.
  - rewrite (text_ids_char c s Hm). apply cites_other; [| done].
    apply no_token_iff. intros g ds rest Hds Heq.
    assert (match_citation (String c s) = Some (g, rest)) as Hs; [| congruence].
    apply match_citation_iff. eauto.
Qed.

Lemma cites_unique text ids : cites text ids → ids = text_ids text.
Proof.
  induction 1 as [| tok ids rest more Htok _ IH | c s ids Hno _ IH].
  - done.
  - apply citation_token_iff in Htok as (g & ds & Hds & -> & Heq).
    rewrite Heq. unfold token_then.
    rewrite (text_ids_token "[" _ g rest).
    + by rewrite (parse_ids_id_runs g ds Hds), IH.
    + apply match_citation_iff. eauto.
  - rewrite text_ids_char; [done |].
    destruct (match_citation (String c s)) as [[g rest] |] eqn:E; [| done].
    apply match_citation_iff in E as [[ds Hds] Heq].
    by destruct (proj1 (no_token_iff c s) Hno g ds rest Hds).
Qed.

Lemma well_known_sections_eq : well_known_sections = section_order_known.
Proof. reflexivity. Qed.

Lemma canonical_order_eq names : canonical_order names = canonical_sections names.
Proof. unfold canonical_order, canonical_sections. by rewrite well_known_sections_eq. Qed.

Lemma section_text_elem (sections_content : list (string * string)) name text :
  NoDup sections_content.*1 →
  (name, text) ∈ sections_content → section_text sections_content name = Some text.
Proof.
  unfold section_text.
  induction sections_content as [| [k v] l IH]; intros Hnd Hin; [by apply elem_of_nil in Hin |].
  apply NoDup_cons in Hnd as [Hk Hnd]. simpl.
  apply elem_of_cons in Hin as [[= <- <-] | Hin].
  - by rewrite String.eqb_refl.
  - destruct (String.eqb k name) eqn:E; [| by apply IH].
    apply String.eqb_eq in E as ->. destruct Hk.
    apply list_elem_of_fmap. by exists (name, text).
Qed.

Lemma elem_of_canonical_order (names : list string) name :
  name ∈ canonical_order names → name ∈ names.
Proof.
  unfold canonical_order. rewrite elem_of_app, !list_elem_of_filter. tauto.
Qed.

Lemma cited_sequence_unique sections_content sequence :
  NoDup sections_content.*1 →
  cited_sequence sections_content sequence →
  sequence = appearance_sequence sections_content.
Proof.
  intros Hnd (per_section & Hper & ->). unfold appearance_sequence.
  rewrite <- canonical_order_eq. f_equal.
  induction Hper as [| name ids names per (text & Hin & Hc) _ IH]; [done |].
  rewrite fmap_cons, IH. f_equal.
  rewrite (section_text_elem _ _ _ Hnd Hin). simpl. by apply cites_unique.
Qed.

Lemma cited_sequence_appearance sections_content :
  NoDup sections_content.*1 →
  cited_sequence sections_content (appearance_sequence sections_content).
Proof.
  intros Hnd. eexists. split; [| unfold appearance_sequence; by rewrite <- canonical_order_eq].
  apply Forall2_fmap_r, Forall_Forall2_diag, Forall_forall.
  intros name [[k text] [Hk Hin]]%elem_of_canonical_order%list_elem_of_fmap.
  simpl in Hk. subst k. exists text. split; [done |].
  rewrite (section_text_elem _ _ _ Hnd Hin). apply cites_text_ids.
Qed.

Lemma reorder_scenario_canonical st :
  (∀ x, x ∈ ref_id <$> references st ↔ x ∈ [1; 2; 3; 4; 5]) →
  (reorder_references_by_citation st
     (Some [("Notas", "also [4]");
            (String "M" (String "233" "todos"), "see [5,2]");
            ("Introdu" +:+ String "231" (String "227" "o"), "finding [3,1] and [1,3]")])).1
  = Some {[3 := 1; 1 := 2; 5 := 3; 2 := 4; 4 := 5]}.
Proof.
  intros Hids. rewrite reorder_nonempty by done. cbv zeta.
  change (text_citation_order _) with [3; 1; 5; 2; 4].
  destruct (compute_renumbering_eq (references st) [3; 1; 5; 2; 4])
    as (added1 & added2 & -> & _).
  simpl. f_equal.
  rewrite filter_all_prop, filter_none_prop; [done | |].
  - apply Forall_forall. intros r Hr Hout. apply Hout.
    assert (ref_id r ∈ [1; 2; 3; 4; 5]) as H by (apply Hids; by apply list_elem_of_fmap_2).
    rewrite !elem_of_cons in H |- *. tauto.
  - apply Forall_forall. intros x Hx. apply get_reference_by_id_is_Some, Hids.
    rewrite !elem_of_cons in Hx |- *. tauto.
Qed.

(** C1: when the sections map has distinct keys and every cited ID has a
    reference, the i-th ID in order of first appearance is mapped to i,
    counting from 1, and the i-th reference of the new list is its
    reference with that ID.  The order is that of [cited_sequence],
    stated in the specification's own terms: the sections in canonical
    order (the well-known names first, then the other names in the order
    given), each text from left to right, the IDs of a token in the
    order written; every sections map has such a sequence.  For the
    sections Intro "finding [3] and [1,3]" and Methods "see [2]" with
    references 1, 2 and 3, the mapping is 3 to 1, 1 to 2, 2 to 3 and the
    texts become "finding [1] and [1,2]" and "see [3]".  For the sections
    Notas "also [4]", Métodos "see [5,2]" and Introdução "finding [3,1]
    and [1,3]", given in that order, with references 1 to 5, the mapping
    is 3 to 1, 1 to 2, 5 to 3, 2 to 4, 4 to 5: the well-known names come
    first in their fixed order, and 3 comes before 1 as written. *)
Theorem reorder_assigns_first_appearance_order :
  (∀ sections_content,
     NoDup sections_content.*1 → ∃ sequence, cited_sequence sections_content sequence)
  ∧ (∀ st sections_content sequence,
       NoDup sections_content.*1 →
       cited_sequence sections_content sequence →
       (∀ x, x ∈ sequence → ∃ r, r ∈ references st ∧ ref_id r = x) →
       ∀ i x, first_appearance sequence !! i = Some x →
         ∃ m st' ref,
           reorder_references_by_citation st (Some sections_content) = (Some m, st')
           ∧ m !! x = Some (Z.of_nat i + 1)
           ∧ get_reference_by_id (references st) x = Some ref
           ∧ ref ∈ references st ∧ ref_id ref = x
           ∧ references st' !! i
             = Some {| ref_id := Z.of_nat i + 1; formatted := formatted ref;
                       doi := doi ref; source := source ref |})
  ∧ (∀ st,
       (∀ x, x ∈ ref_id <$> references st ↔ x ∈ [1; 2; 3]) →
       let sections_content :=
         [("Intro", "finding [3] and [1,3]"); ("Methods", "see [2]")] in
       (reorder_references_by_citation st (Some sections_content)).1
       = Some {[3 := 1; 1 := 2; 2 := 3]}
       ∧ update_citations_in_text sections_content {[3 := 1; 1 := 2; 2 := 3]}
         = [("Intro", "finding [1] and [1,2]"); ("Methods", "see [3]")])
  ∧ (∀ st,
       (∀ x, x ∈ ref_id <$> references st ↔ x ∈ [1; 2; 3; 4; 5]) →
       let methods := String "M" (String "233" "todos") in
       let introduction := "Introdu" +:+ String "231" (String "227" "o") in
       let sections_content :=
         [("Notas", "also [4]"); (methods, "see [5,2]");
          (introduction, "finding [3,1] and [1,3]")] in
       (reorder_references_by_citation st (Some sections_content)).1
       = Some {[3 := 1; 1 := 2; 5 := 3; 2 := 4; 4 := 5]}
       ∧ update_citations_in_text sections_content
           {[3 := 1; 1 := 2; 5 := 3; 2 := 4; 4 := 5]}
         = [("Notas", "also [5]"); (methods, "see [3,4]");
            (introduction, "finding [1,2] and [1,2]")]).
Proof.
  split; [| split; [| split]].
  - intros sections_content Hkeys. eexists. by apply cited_sequence_appearance.
  - intros st sections_content sequence Hkeys Hseq Hlive i x Hi.
    apply (cited_sequence_unique _ _ Hkeys) in Hseq as ->.
    destruct (reorder_cited_first_appearance st sections_content Hkeys) with (i := i) (x := x)
      as (m & st' & ref & Hrun & Hm & Href & Hnew); [| done |].
    { intros y Hy. apply get_reference_by_id_is_Some.
      destruct (Hlive y Hy) as (r & Hr & <-). by apply list_elem_of_fmap_2. }
    exists m, st', ref. destruct (get_reference_by_id_Some _ _ _ Href) as [Hin Hid].
    by repeat split.
  - intros st Hids sections_content. split; [by apply reorder_scenario | by vm_compute].
  - intros st Hids methods introduction sections_content.
    split; [by apply reorder_scenario_canonical | by vm_compute].
Qed.

Lemma reorder_assigns_first_appearance_order_witness :
  let ref n := {| ref_id := n; formatted := "Silva J. A title. J Med. 2020.";
                  doi := EmptyString; source := FromDoi |} in
  let st := {| references := [ref 2; ref 3; ref 1]; citations := ∅; citation_order := [] |} in
  let sections_content :=
    [("Methods", "see [2]"); ("Resumo", "finding [3,1] and [1,3]")] in
  ∃ m st' r,
    reorder_references_by_citation st (Some sections_content) = (Some m, st')
    ∧ m !! 1 = Some (Z.of_nat 1 + 1)
    ∧ get_reference_by_id (references st) 1 = Some r
    ∧ r ∈ references st ∧ ref_id r = 1
    ∧ references st' !! 1%nat
      = Some {| ref_id := Z.of_nat 1 + 1; formatted := formatted r;
                doi := doi r; source := source r |}.
Proof.
  intros ref st sections_content.
  assert (Hkeys : NoDup sections_content.*1).
  { apply NoDup_cons. split; [| apply NoDup_singleton].
    rewrite list_elem_of_singleton. discriminate. }
  apply (proj1 (proj2 reorder_assigns_first_appearance_order) st sections_content
           [3; 1; 1; 3; 2] Hkeys).
  - exact (cited_sequence_appearance sections_content Hkeys).
  - intros x Hx. exists (ref x). split; [| reflexivity].
    repeat (apply elem_of_cons in Hx as [-> | Hx]);
      [unfold st; simpl; rewrite !elem_of_cons; auto .. |].
    by apply elem_of_nil in Hx.
  - reflexivity.
Defined.

(** ** Renumbering: the whole mapping *)

Lemma elem_of_fmap_filter {A B} (f : A → B) (P : A → Prop) `{∀ x, Decision (P x)}
    (l : list A) y :
  y ∈ f <$> filter P l ↔ ∃ x, y = f x ∧ P x ∧ x ∈ l.
Proof.
  rewrite list_elem_of_fmap. split.
  - intros (x & -> & Hx). apply list_elem_of_filter in Hx. eauto.
  - intros (x & -> & HP & Hx). exists x. split; [done |]. by apply list_elem_of_filter.
Qed.

Lemma NoDup_fmap_filter {A B} (f : A → B) (P : A → Prop) `{∀ x, Decision (P x)}
    (l : list A) :
  NoDup (f <$> l) → NoDup (f <$> filter P l).
Proof.
  induction l as [| a l IH]; [done |].
  rewrite fmap_cons, NoDup_cons. intros [Ha Hl].
  rewrite filter_cons. destruct (decide (P a)); [| by apply IH].
  rewrite fmap_cons. apply NoDup_cons. split; [| by apply IH].
  intros (x & Hx & _ & Hin)%elem_of_fmap_filter.
  apply Ha. rewrite Hx. by apply list_elem_of_fmap_2.
Qed.

Section renumbering.
Variable refs : list Reference.
Variable cited : list Z.
Hypothesis refs_distinct : NoDup (ref_id <$> refs).
Hypothesis cited_distinct : NoDup cited.

#[local] Abbreviation live := (filter (λ x, is_Some (get_reference_by_id refs x)) cited).
#[local] Abbreviation uncited := (filter (λ r, ref_id r ∉ cited) refs).
#[local] Abbreviation all := (live ++ (ref_id <$> uncited)).

Lemma renumbered_elem x : x ∈ all ↔ x ∈ ref_id <$> refs.
Proof.
  rewrite elem_of_app, list_elem_of_filter, get_reference_by_id_is_Some.
  rewrite elem_of_fmap_filter, list_elem_of_fmap. split.
  - intros [[? _] | (r & -> & _ & Hr)]; eauto.
  - intros (r & -> & Hr). destruct (decide (ref_id r ∈ cited)) as [Hc | Hc].
    + left. split; [| done]. exists r. eauto.
    + right. eauto.
Qed.

Lemma renumbered_NoDup : NoDup all.
Proof.
  apply NoDup_app. split; [by apply NoDup_filter |]. split.
  - intros x Hx. apply uncited_ids_fresh. by apply list_elem_of_filter in Hx as [_ ?].
  - by apply NoDup_fmap_filter.
Qed.

Lemma renumbered_length : length all = length refs.
Proof.
  rewrite <- (length_fmap ref_id refs). apply Permutation_length.
  apply NoDup_Permutation; [apply renumbered_NoDup | done | apply renumbered_elem].
Qed.

Lemma live_length : length live = length (filter (λ r, ref_id r ∈ cited) refs).
Proof.
  rewrite <- (length_fmap ref_id (filter _ _)).
  apply Permutation_length, NoDup_Permutation;
    [by apply NoDup_filter | by apply NoDup_fmap_filter |].
  intros x.
  rewrite list_elem_of_filter, get_reference_by_id_is_Some, elem_of_fmap_filter,
    list_elem_of_fmap.
  split.
  - intros [(r & -> & Hr) Hc]. eauto.
  - intros (r & -> & Hc & Hr). eauto.
Qed.

Lemma uncited_length :
  (length (filter (λ r, ref_id r ∈ cited) refs) + length uncited = length refs)%nat.
Proof.
  rewrite <- length_app. apply Permutation_length.
  apply (filter_app_complement (λ r, ref_id r ∈ cited)).
Qed.

Lemma renumbered_lookup x v :
  number_from ∅ 1 all !! x = Some v ↔ ∃ i, all !! i = Some x ∧ v = 1 + Z.of_nat i.
Proof. apply number_from_Some, renumbered_NoDup. Qed.

End renumbering.

(** The mapping over the order found by the scan of the code: for a
    sections map that is not empty and references with pairwise distinct
    IDs, it is defined exactly on the IDs of the references, takes its
    values in 1..n, is injective and reaches every number of 1..n; the
    references that are not cited get the numbers k+1, ..., n in the
    order of the list, where k is the number of references whose ID is
    cited, and the cited ones get numbers up to k. *)
Lemma renumbering_by_scan st sections_content :
  sections_content ≠ [] →
  NoDup (ref_id <$> references st) →
  let cited := text_citation_order sections_content in
  let n := Z.of_nat (length (references st)) in
  let uncited := filter (λ r, ref_id r ∉ cited) (references st) in
  let k := Z.of_nat (length (filter (λ r, ref_id r ∈ cited) (references st))) in
  ∃ m st',
    reorder_references_by_citation st (Some sections_content) = (Some m, st')
    ∧ (∀ old, is_Some (m !! old) ↔ old ∈ ref_id <$> references st)
    ∧ (∀ old new, m !! old = Some new → 1 <= new <= n)
    ∧ (∀ old1 old2 new, m !! old1 = Some new → m !! old2 = Some new → old1 = old2)
    ∧ (∀ new, 1 <= new <= n → ∃ old, m !! old = Some new)
    ∧ k + Z.of_nat (length uncited) = n
    ∧ (∀ j r, uncited !! j = Some r → m !! ref_id r = Some (k + Z.of_nat j + 1))
    ∧ (∀ r, r ∈ references st → ref_id r ∈ cited →
            ∃ new, m !! ref_id r = Some new ∧ 1 <= new <= k).
Proof.
  intros Hne Hids cited n uncited k.
  assert (NoDup cited) as Hcited by apply text_citation_order_NoDup.
  rewrite (reorder_nonempty st sections_content Hne). cbv zeta. fold cited.
  destruct (compute_renumbering_eq (references st) cited)
    as (added1 & added2 & -> & _).
  fold uncited.
  set (live := filter (λ x, is_Some (get_reference_by_id (references st) x)) cited).
  pose proof (renumbered_lookup (references st) cited Hids Hcited) as Hm.
  pose proof (renumbered_length (references st) cited Hids Hcited) as Hlen.
  pose proof (renumbered_elem (references st) cited) as Helem.
  pose proof (live_length (references st) cited Hids Hcited) as Hk.
  pose proof (uncited_length (references st) cited) as Hsum.
  fold live uncited in Hm, Hlen, Helem, Hk, Hsum.
  set (all := live ++ (ref_id <$> uncited)) in *.
  eexists _, _. split; [done |].
  split; [| split; [| split; [| split; [| split; [| split]]]]].
  - intros old. rewrite <- Helem. split.
    + intros [v (i & Hi & _)%Hm]. apply list_elem_of_lookup. eauto.
    + intros [i Hi]%list_elem_of_lookup. exists (1 + Z.of_nat i). apply Hm. eauto.
  - intros old new (i & Hi & ->)%Hm. apply lookup_lt_Some in Hi. unfold n. lia.
  - intros old1 old2 new (i1 & H1 & ->)%Hm (i2 & H2 & Heq)%Hm.
    assert (i1 = i2) as -> by lia. congruence.
  - intros new Hnew.
    destruct (lookup_lt_is_Some_2 all (Z.to_nat (new - 1))) as [old Hold];
      [unfold n in Hnew; lia |].
    exists old. apply Hm. exists (Z.to_nat (new - 1)). split; [done | lia].
  - unfold k, n. lia.
  - intros j r Hj. apply Hm. exists (length live + j)%nat. split.
    + unfold all. rewrite lookup_app_r by lia.
      replace (length live + j - length live)%nat with j by lia.
      by rewrite list_lookup_fmap, Hj.
    + unfold k. lia.
  - intros r Hr Hc.
    assert (ref_id r ∈ live) as [i Hi]%list_elem_of_lookup.
    { apply list_elem_of_filter. split; [| done].
      apply get_reference_by_id_is_Some. by apply list_elem_of_fmap_2. }
    exists (1 + Z.of_nat i). split.
    + apply Hm. exists i. split; [| done]. unfold all. by apply lookup_app_l_Some.
    + apply lookup_lt_Some in Hi. unfold k. lia.
Qed.

Lemma strongly_sorted_lookup {A} (R : relation A) (l : list A) : ∀ i j a b,
  StronglySorted R l → l !! i = Some a → l !! j = Some b → (i < j)%nat → R a b.
Proof.
  induction l as [| x l IH]; intros i j a b Hs Hi Hj Hlt; [done |].
  apply StronglySorted_inv in Hs as [Hs Hx].
  destruct j as [| j]; [lia |]. destruct i as [| i].
  - injection Hi as <-. rewrite Forall_forall in Hx. apply Hx.
    by eapply list_elem_of_lookup_2.
  - apply (IH i j); [done | done | done | lia].
Qed.

Lemma strongly_sorted_ids_filter (P : Reference → Prop) `{∀ r, Decision (P r)}
    (l : list Reference) :
  StronglySorted Z.lt (ref_id <$> l) → StronglySorted Z.lt (ref_id <$> filter P l).
Proof.
  induction l as [| r l IH]; [done |].
  rewrite fmap_cons. intros [Hs Hr]%StronglySorted_inv.
  rewrite filter_cons. destruct (decide (P r)); [| by apply IH].
  rewrite fmap_cons. constructor; [by apply IH |].
  apply Forall_forall. intros x (r' & -> & [_ Hin]%list_elem_of_filter)%list_elem_of_fmap.
  rewrite Forall_forall in Hr. apply Hr. by apply list_elem_of_fmap_2.
Qed.

(** C2, as amended: for a sections map that is not empty, with distinct
    keys, and references with pairwise distinct IDs, the mapping returned
    is a bijection from the IDs of the references onto 1..n: defined
    exactly on them, with values in 1..n, injective, and reaching every
    number of 1..n.  The references whose ID is cited (the cited IDs
    being those of [cited_sequence], stated in the specification's own
    terms) get numbers up to k, the number of such references, and the
    references that are not cited get k+1, ..., n in the order in which
    the store holds them; that is the ascending order of their IDs
    when the store is in ascending order of IDs. *)
Theorem reorder_id_map_bijection st sections_content sequence :
  sections_content ≠ [] →
  NoDup sections_content.*1 →
  NoDup (ref_id <$> references st) →
  cited_sequence sections_content sequence →
  let n := Z.of_nat (length (references st)) in
  let uncited := filter (λ r, ref_id r ∉ sequence) (references st) in
  let k := Z.of_nat (length (filter (λ r, ref_id r ∈ sequence) (references st))) in
  ∃ m st',
    reorder_references_by_citation st (Some sections_content) = (Some m, st')
    ∧ (∀ old, is_Some (m !! old) ↔ ∃ r, r ∈ references st ∧ ref_id r = old)
    ∧ (∀ old new, m !! old = Some new → 1 <= new <= n)
    ∧ (∀ old1 old2 new, m !! old1 = Some new → m !! old2 = Some new → old1 = old2)
    ∧ (∀ new, 1 <= new <= n → ∃ old, m !! old = Some new)
    ∧ k + Z.of_nat (length uncited) = n
    ∧ (∀ j r, uncited !! j = Some r → m !! ref_id r = Some (k + Z.of_nat j + 1))
    ∧ (∀ r, r ∈ references st → ref_id r ∈ sequence →
            ∃ new, m !! ref_id r = Some new ∧ 1 <= new <= k)
    ∧ (Sorted Z.lt (ref_id <$> references st) →
       ∀ r1 r2 new1 new2,
         r1 ∈ uncited → r2 ∈ uncited →
         m !! ref_id r1 = Some new1 → m !! ref_id r2 = Some new2 →
         ref_id r1 < ref_id r2 → new1 < new2).
Proof.
  intros Hne Hkeys Hids Hseq n uncited k.
  apply (cited_sequence_unique _ _ Hkeys) in Hseq as Heq.
  assert (∀ x, x ∈ text_citation_order sections_content ↔ x ∈ sequence) as Hcited.
  { intros x. by rewrite (text_citation_order_spec _ Hkeys), elem_of_first_appearance, Heq. }
  assert (filter (λ r, ref_id r ∉ text_citation_order sections_content) (references st)
          = uncited) as Hunc_eq.
  { apply list_filter_iff. intros r. by rewrite Hcited. }
  assert (filter (λ r, ref_id r ∈ text_citation_order sections_content) (references st)
          = filter (λ r, ref_id r ∈ sequence) (references st)) as Hcit_eq.
  { apply list_filter_iff. intros r. by rewrite Hcited. }
  pose proof (renumbering_by_scan st sections_content Hne Hids) as H. cbv zeta in H.
  destruct H as (m & st' & Hrun & Hdom & Hrange & Hinj & Hsurj & Hsum & Hunc & Hcit).
  rewrite Hunc_eq in Hsum, Hunc. rewrite Hcit_eq in Hsum, Hunc, Hcit. fold k in Hsum, Hunc, Hcit.
  exists m, st'. split; [done |].
  split; [| split; [done |]; split; [done |]; split; [done |]; split; [done |];
            split; [done |]; split].
  - intros old. rewrite Hdom, list_elem_of_fmap. split.
    + intros (r & -> & Hr). eauto.
    + intros (r & Hr & <-). eauto.
  - intros r Hr Hc. apply Hcit; [done |]. by apply Hcited.
  - intros Hsorted r1 r2 new1 new2 [j1 H1]%list_elem_of_lookup [j2 H2]%list_elem_of_lookup.
    rewrite (Hunc j1 r1 H1), (Hunc j2 r2 H2). intros [= <-] [= <-] Hlt.
    assert (StronglySorted Z.lt (ref_id <$> uncited)) as Hs.
    { apply strongly_sorted_ids_filter. by apply (Sorted_StronglySorted Z.lt). }
    destruct (decide (j1 < j2)%nat) as [Hj | Hj]; [lia |].
    destruct (decide (j1 = j2)) as [-> | Hne12].
    + rewrite H1 in H2. injection H2 as ->. lia.
    + assert (ref_id r2 < ref_id r1); [| lia].
      apply (strongly_sorted_lookup Z.lt (ref_id <$> uncited) j2 j1); [done | | | lia].
      * by rewrite list_lookup_fmap, H2.
      * by rewrite list_lookup_fmap, H1.
Qed.

Lemma reorder_id_map_bijection_witness :
  let ref n := {| ref_id := n; formatted := "Silva J. A title. J Med. 2020.";
                  doi := EmptyString; source := FromDoi |} in
  let st := {| references := [ref 1; ref 2; ref 3; ref 4];
               citations := ∅; citation_order := [] |} in
  ∃ m st',
    reorder_references_by_citation st (Some [("Intro", "see [3] and [9]")]) = (Some m, st')
    ∧ (∀ old, is_Some (m !! old) ↔ ∃ r, r ∈ references st ∧ ref_id r = old)
    ∧ (∀ old1 old2 new, m !! old1 = Some new → m !! old2 = Some new → old1 = old2)
    ∧ m !! 4 = Some 4.
Proof.
  intros ref st.
  assert (Hkeys : NoDup [("Intro", "see [3] and [9]")].*1) by apply NoDup_singleton.
  destruct (reorder_id_map_bijection st [("Intro", "see [3] and [9]")] [3; 9])
    as (m & st' & Hrun & Hdom & _ & Hinj & _ & _ & Hunc & _).
  - discriminate.
  - exact Hkeys.
  - apply (bool_decide_unpack _). vm_compute. exact I.
  - exact (cited_sequence_appearance _ Hkeys).
  - exists m, st'. split; [exact Hrun | split; [exact Hdom | split; [exact Hinj |]]].
    exact (Hunc 2%nat (ref 4) eq_refl).
Defined.

(** C2 as stated fails: after three additions, the removal of 1 and of
    2, and one more addition, the store holds the IDs 3 and 2 in that
    order, both distinct; with no citation in the text, 3 is mapped to 1
    and 2 to 2, so the uncited references are not numbered in the order
    of their IDs. *)
Lemma uncited_not_in_id_order :
  let add st title :=
    (add_manual_reference st "Silva J" title "J Med" "2020"
       EmptyString EmptyString EmptyString EmptyString).2 in
  let remove st rid := (remove_reference st rid).2 in
  let st := add (remove (remove (add (add (add init "First") "Second") "Third") 1) 2)
                "Fourth" in
  ref_id <$> references st = [3; 2]
  ∧ ∃ m st',
      reorder_references_by_citation st (Some [("Intro", "no citation")]) = (Some m, st')
      ∧ m !! 3 = Some 1 ∧ m !! 2 = Some 2
      ∧ ¬ (∀ old1 old2 new1 new2,
             m !! old1 = Some new1 → m !! old2 = Some new2 → old1 < old2 → new1 < new2).
Proof.
  intros add remove st. split; [reflexivity |].
  eexists _, _. split; [reflexivity |].
  split; [reflexivity |]. split; [reflexivity |].
  intros H. specialize (H 2 3 2 1 eq_refl eq_refl). lia.
Qed.

(** * Further properties *)

(** ** The references in the order of their IDs *)

Lemma insert_by_id_perm ref l : insert_by_id ref l ≡ₚ ref :: l.
Proof.
  induction l as [| x l IH]; simpl; [done |].
  destruct (ref_id ref <=? ref_id x); [done |].
  rewrite IH. apply Permutation_swap.
Qed.

Lemma sorted_by_id_perm refs : sorted_by_id refs ≡ₚ refs.
Proof.
  induction refs as [| r refs IH]; [done |].
  simpl. by rewrite insert_by_id_perm, IH.
Qed.

Lemma insert_by_id_ids_sorted ref l :
  Sorted Z.le (ref_id <$> l) → Sorted Z.le (ref_id <$> insert_by_id ref l).
Proof.
  induction l as [| x l IH]; simpl; intros Hl; [by repeat constructor |].
  destruct (ref_id ref <=? ref_id x) eqn:E.
  - apply Z.leb_le in E. rewrite !fmap_cons. constructor; [done |]. by constructor.
  - apply Z.leb_gt in E. rewrite fmap_cons in *.
    apply Sorted_inv in Hl as [Hl Hhd]. constructor; [by apply IH |].
    destruct l as [| y l]; simpl.
    + constructor. lia.
    + destruct (ref_id ref <=? ref_id y); constructor; [lia |].
      by apply HdRel_inv in Hhd.
Qed.

Lemma sorted_by_id_ids_sorted refs : Sorted Z.le (ref_id <$> sorted_by_id refs).
Proof.
  induction refs as [| r refs IH]; simpl; [constructor |].
  by apply insert_by_id_ids_sorted.
Qed.

Lemma insert_by_id_filter k ref l :
  filter (λ r, ref_id r = k) (insert_by_id ref l)
  = filter (λ r, ref_id r = k) (ref :: l).
Proof.
  induction l as [| x l IH]; simpl; [done |].
  destruct (ref_id ref <=? ref_id x) eqn:E; [done |].
  apply Z.leb_gt in E. rewrite (filter_cons _ x), IH, !filter_cons.
  destruct (decide (ref_id x = k)), (decide (ref_id ref = k)); try done. lia.
Qed.

Lemma sorted_by_id_filter k refs :
  filter (λ r, ref_id r = k) (sorted_by_id refs) = filter (λ r, ref_id r = k) refs.
Proof.
  induction refs as [| r refs IH]; [done |].
  simpl. by rewrite insert_by_id_filter, !filter_cons, IH.
Qed.

Lemma insert_by_id_head ref l :
  (∀ x, x ∈ l → ref_id ref <= ref_id x) → insert_by_id ref l = ref :: l.
Proof.
  destruct l as [| x l]; [done |]. intros H. simpl.
  assert (ref_id ref <= ref_id x) as ->%Z.leb_le by (apply H; by left). done.
Qed.

Lemma sorted_by_id_fixed refs :
  StronglySorted Z.le (ref_id <$> refs) → sorted_by_id refs = refs.
Proof.
  induction refs as [| r refs IH]; [done |].
  rewrite fmap_cons. intros [Hs Hall]%StronglySorted_inv.
  simpl. rewrite IH by done. apply insert_by_id_head.
  intros x Hx. rewrite Forall_forall in Hall. apply Hall. by apply list_elem_of_fmap_2.
Qed.

(** Equal keys, no key twice, same elements: same list *)
Lemma perm_same_ids (l1 l2 : list Reference) :
  NoDup (ref_id <$> l1) → l1 ≡ₚ l2 → ref_id <$> l1 = ref_id <$> l2 → l1 = l2.
Proof.
  revert l2. induction l1 as [| a l1 IH]; intros l2 Hnd Hp Hids.
  - by apply Permutation_nil_l in Hp.
  - destruct l2 as [| b l2]; [by apply Permutation_nil_r in Hp |].
    rewrite !fmap_cons in Hids. injection Hids as Hab Hids.
    rewrite fmap_cons in Hnd. apply NoDup_cons in Hnd as [Ha Hnd].
    assert (a = b) as <-.
    { assert (a ∈ b :: l2) as [-> | Hin]%elem_of_cons by (rewrite <- Hp; by left); [done |].
      destruct Ha. rewrite Hids. by apply list_elem_of_fmap_2. }
    f_equal. apply IH; [done | by apply Permutation_cons_inv in Hp | done].
Qed.

Lemma sorted_by_id_proper l1 l2 :
  NoDup (ref_id <$> l1) → l1 ≡ₚ l2 → sorted_by_id l1 = sorted_by_id l2.
Proof.
  intros Hnd Hp.
  assert (sorted_by_id l1 ≡ₚ sorted_by_id l2) as Hps by (by rewrite !sorted_by_id_perm).
  apply perm_same_ids; [by rewrite sorted_by_id_perm | done |].
  apply (Sorted_unique Z.le); [apply sorted_by_id_ids_sorted .. |]. by rewrite Hps.
Qed.

(** X1: [get_all_references] returns the stored references, each as many
    times as it is stored, in ascending order of ID, and references with
    the same ID stay in the order in which they are stored. *)
Theorem get_all_references_sorted st :
  get_all_references st ≡ₚ references st
  ∧ Sorted Z.le (ref_id <$> get_all_references st)
  ∧ (∀ k, filter (λ r, ref_id r = k) (get_all_references st)
          = filter (λ r, ref_id r = k) (references st)).
Proof.
  split; [apply sorted_by_id_perm |]. split; [apply sorted_by_id_ids_sorted |].
  intros k. apply sorted_by_id_filter.
Qed.

(** X2: when no two references share an ID, the exported list depends
    only on which references are stored, not on the order in which the
    manager holds them. *)
Theorem export_references_list_order_free st1 st2 :
  NoDup (ref_id <$> references st1) →
  references st1 ≡ₚ references st2 →
  export_references_list st1 = export_references_list st2.
Proof.
  intros Hnd Hp. unfold export_references_list, get_all_references.
  rewrite (sorted_by_id_proper _ _ Hnd Hp).
  destruct (references st1) as [| r1 l1], (references st2) as [| r2 l2]; try done.
  - by apply Permutation_nil_l in Hp.
  - by apply Permutation_nil_r in Hp.
Qed.

Lemma export_references_list_order_free_witness :
  let ref n := {| ref_id := n; formatted := "Silva J. A title. J Med. 2020.";
                  doi := EmptyString; source := FromDoi |} in
  export_references_list {| references := [ref 2; ref 1]; citations := ∅; citation_order := [] |}
  = export_references_list {| references := [ref 1; ref 2]; citations := ∅; citation_order := [] |}.
Proof.
  intros ref. apply export_references_list_order_free.
  - apply (bool_decide_unpack _). vm_compute. exact I.
  - apply Permutation_swap.
Defined.

(** ** Adding a reference, then looking it up *)

Lemma get_reference_by_id_app_l refs more rid ref :
  get_reference_by_id refs rid = Some ref →
  get_reference_by_id (refs ++ more) rid = Some ref.
Proof.
  unfold get_reference_by_id. induction refs as [| r refs IH]; simpl; [done |].
  by destruct (ref_id r =? rid).
Qed.

Lemma get_reference_by_id_app_r refs more rid :
  get_reference_by_id refs rid = None →
  get_reference_by_id (refs ++ more) rid = get_reference_by_id more rid.
Proof.
  unfold get_reference_by_id. induction refs as [| r refs IH]; simpl; [done |].
  by destruct (ref_id r =? rid).
Qed.

(** X3: a reference added by hand never changes what an ID already in
    use refers to; the new reference is the one found under the returned
    ID exactly when no stored reference had that ID, and otherwise the
    older reference keeps answering for it. *)
Theorem add_manual_reference_lookup
    st authors title journal year volume issue pages doi new_id st' :
  add_manual_reference st authors title journal year volume issue pages doi
  = (Some new_id, st') →
  (∀ rid ref, get_reference_by_id (references st) rid = Some ref →
              get_reference_by_id (references st') rid = Some ref)
  ∧ ∃ new_ref,
      references st' = references st ++ [new_ref]
      ∧ ref_id new_ref = new_id
      ∧ (get_reference_by_id (references st) new_id = None →
         get_reference_by_id (references st') new_id = Some new_ref)
      ∧ (∀ old, get_reference_by_id (references st) new_id = Some old →
                get_reference_by_id (references st') new_id = Some old).
Proof.
  unfold add_manual_reference. destruct (_ || _); [done |].
  intros [= <- <-]. simpl. split.
  - intros rid ref. apply get_reference_by_id_app_l.
  - eexists. split; [done |]. split; [done |]. split.
    + intros Hnone. rewrite (get_reference_by_id_app_r _ _ _ Hnone).
      unfold get_reference_by_id. simpl. by rewrite Z.eqb_refl.
    + intros old. apply get_reference_by_id_app_l.
Qed.

Lemma add_manual_reference_lookup_witness :
  ∃ new_ref,
    references (add_manual_reference init "Silva J" "A title" "J Med" "2020"
                  "12" "3" "1-9" "10.1000/x1").2
    = references init ++ [new_ref]
    ∧ ref_id new_ref = 1.
Proof.
  destruct (add_manual_reference_lookup init "Silva J" "A title" "J Med" "2020"
              "12" "3" "1-9" "10.1000/x1" 1 _ eq_refl) as (_ & new_ref & H1 & H2 & _).
  exists new_ref. split; [exact H1 | exact H2].
Defined.

(** ** Citing twice *)

(** X4: citing a reference in a section a second time changes nothing:
    neither the section's list nor the global order. *)
Theorem add_citation_idempotent st section_name rid :
  add_citation (add_citation st section_name rid) section_name rid
  = add_citation st section_name rid.
Proof.
  destruct (add_citation_recorded st section_name rid) as (l & Hl & Hin).
  assert (rid ∈ citation_order (add_citation st section_name rid)) as Hord.
  { unfold add_citation. simpl. case_decide; [done |]. apply elem_of_app. right. by left. }
  generalize dependent (add_citation st section_name rid). intros st1 Hl Hord.
  unfold add_citation. rewrite Hl. simpl. rewrite Hl. simpl.
  destruct (decide (rid ∈ l)); [| done].
  destruct (decide (rid ∈ citation_order st1)); [| done].
  by destruct st1.
Qed.

(** ** Validation of the references *)

Lemma validate_references_fold (refs : list Reference) total valid issues :
  foldl (λ validation_results ref,
           match reference_issues ref with
           | [] =>
               {| vr_total_references := vr_total_references validation_results;
                  vr_valid_references := S (vr_valid_references validation_results);
                  vr_issues := vr_issues validation_results |}
           | ref_issues =>
               {| vr_total_references := vr_total_references validation_results;
                  vr_valid_references := vr_valid_references validation_results;
                  vr_issues := vr_issues validation_results ++ [(ref_id ref, ref_issues)] |}
           end)
        {| vr_total_references := total; vr_valid_references := valid; vr_issues := issues |}
        refs
  = {| vr_total_references := total;
       vr_valid_references :=
         (valid + length (filter (λ r, reference_issues r = []) refs))%nat;
       vr_issues :=
         issues ++ ((λ r, (ref_id r, reference_issues r))
                      <$> filter (λ r, reference_issues r ≠ []) refs) |}.
Proof.
  revert valid issues. induction refs as [| r refs IH]; intros valid issues.
  - simpl. by rewrite Nat.add_0_r, app_nil_r.
  - cbn [foldl]. rewrite !filter_cons.
    destruct (reference_issues r) as [| issue1 more] eqn:E.
    + rewrite decide_True by done. rewrite decide_False by (intros H; by apply H).
      cbn [vr_total_references vr_valid_references vr_issues].
      rewrite IH. f_equal. simpl. lia.
    + rewrite decide_False by done. rewrite decide_True by done.
      cbn [vr_total_references vr_valid_references vr_issues].
      rewrite IH. f_equal. rewrite fmap_cons, E, <- app_assoc. done.
Qed.

(** X5: [validate_references] counts as valid the references that raise
    no issue and reports each of the others once, in the stored order,
    with its ID and its issues; the two numbers add up to the total. *)
Theorem validate_references_counts st :
  vr_total_references (validate_references st) = length (references st)
  ∧ vr_valid_references (validate_references st)
    = length (filter (λ r, reference_issues r = []) (references st))
  ∧ vr_issues (validate_references st)
    = (λ r, (ref_id r, reference_issues r))
        <$> filter (λ r, reference_issues r ≠ []) (references st)
  ∧ (vr_valid_references (validate_references st)
     + length (vr_issues (validate_references st)))%nat
    = vr_total_references (validate_references st).
Proof.
  unfold validate_references. rewrite validate_references_fold. simpl.
  split; [done |]. split; [done |]. split; [done |].
  rewrite length_fmap, <- length_app. apply Permutation_length.
  apply (filter_app_complement (λ r, reference_issues r = [])).
Qed.

(** X6: a reference accepted by [add_manual_reference] passes
    [validate_references] exactly when at least one author is left after
    the authors are split and the blank pieces dropped; an authors field
    made of separators only is accepted, and the reference is then
    reported with the single issue of missing authors. *)
Theorem manual_reference_validity
    st authors title journal year volume issue pages doi new_id st' :
  add_manual_reference st authors title journal year volume issue pages doi
  = (Some new_id, st') →
  let author_list :=
    strip <$> List.filter (λ a, negb (is_empty (strip a))) (re_split_authors authors) in
  ∃ new_ref,
    references st' = references st ++ [new_ref]
    ∧ (author_list ≠ [] → reference_issues new_ref = [])
    ∧ (author_list = [] →
       reference_issues new_ref = ["Missing authors in manual reference"])
    ∧ vr_valid_references (validate_references st')
      = (vr_valid_references (validate_references st)
         + match author_list with [] => 0 | _ :: _ => 1 end)%nat.
Proof.
  unfold add_manual_reference.
  destruct (is_empty authors) eqn:Ha; [done |].
  destruct (is_empty title) eqn:Ht; [done |].
  destruct (is_empty journal) eqn:Hj; [done |].
  destruct (is_empty year) eqn:Hy; [done |].
  cbv zeta. intros [= <- <-]. cbn [references].
  set (author_list :=
         strip <$> List.filter (λ a, negb (is_empty (strip a))) (re_split_authors authors)).
  match goal with |- context [references st ++ [?r]] => set (new_ref := r) end.
  assert (reference_issues new_ref
          = match author_list with
            | [] => ["Missing authors in manual reference"]
            | _ :: _ => []
            end) as Hissues.
  { unfold reference_issues, new_ref. simpl. fold author_list.
    assert (is_empty (format_manual_vancouver author_list title journal year volume
                        issue pages doi) = false) as ->.
    { apply is_empty_false, format_manual_vancouver_nonempty. by apply is_empty_false. }
    rewrite Ht, Hj, Hy. simpl. by rewrite !app_nil_r. }
  exists new_ref. split; [done |]. split; [| split].
  - intros Hne. rewrite Hissues. by destruct author_list.
  - intros Hnil. by rewrite Hissues, Hnil.
  - rewrite !(proj1 (proj2 (validate_references_counts _))). simpl.
    rewrite filter_app, length_app, filter_cons, Hissues.
    destruct author_list; case_decide; try done; simpl; lia.
Qed.

Lemma manual_reference_validity_witness :
  ∃ new_ref,
    references (add_manual_reference init "," "A title" "J Med" "2020"
                  "12" "3" "1-9" "10.1000/x1").2
    = references init ++ [new_ref]
    ∧ reference_issues new_ref = ["Missing authors in manual reference"].
Proof.
  destruct (manual_reference_validity init "," "A title" "J Med" "2020"
              "12" "3" "1-9" "10.1000/x1" 1 _ eq_refl) as (new_ref & H1 & _ & H2 & _).
  exists new_ref. split; [exact H1 | apply H2; reflexivity].
Defined.

(** ** The authors of a formatted reference *)

Lemma format_authors_late i authors author_str :
  (7 ≤ i)%nat → format_authors i authors author_str = author_str.
Proof.
  revert i. induction authors as [| a authors IH]; intros i Hi; [done |].
  cbn [format_authors].
  assert ((i <? 6)%nat = false) as -> by (apply Nat.ltb_ge; lia).
  assert ((i =? 6)%nat = false) as -> by (apply Nat.eqb_neq; lia).
  destruct (is_empty (strip a)); [apply IH; lia |].
  destruct (2 <=? length (split_ws (strip a)))%nat; apply IH; lia.
Qed.

Lemma format_authors_take i authors author_str :
  format_authors i authors author_str
  = format_authors i (take (7 - i) authors) author_str.
Proof.
  revert i author_str. induction authors as [| a authors IH]; intros i author_str.
  - by rewrite take_nil.
  - destruct (decide (7 ≤ i)%nat) as [Hi | Hi].
    + replace (7 - i)%nat with 0%nat by lia. simpl (take 0 _).
      by rewrite format_authors_late.
    + replace (7 - i)%nat with (S (7 - S i)) by lia.
      cbn [take format_authors].
      repeat match goal with
             | |- context [if ?b then _ else _] => destruct b
             end; try done; apply IH.
Qed.

(** X7: the formatted string of a manual reference depends on the first
    seven authors only: whatever is listed after them changes nothing. *)
Theorem format_manual_vancouver_seven_authors
    authors title journal year volume issue pages doi :
  format_manual_vancouver authors title journal year volume issue pages doi
  = format_manual_vancouver (take 7 authors) title journal year volume issue pages doi.
Proof.
  unfold format_manual_vancouver. by rewrite (format_authors_take 0 authors).
Qed.

(** ** The tokens of a rewritten text *)

Lemma re_findall_token g ds rest :
  id_runs g ds → re_findall (token_then g rest) = g :: re_findall rest.
Proof.
  intros Hg. unfold token_then at 1. rewrite re_findall_cons.
  assert (match_citation (String "[" (g +:+ String "]" rest)) = Some (g, rest)) as ->; [| done].
  apply match_citation_iff. eauto.
Qed.

Lemma parse_ids_nonempty g ds : id_runs g ds → parse_ids g ≠ [].
Proof.
  intros Hg. rewrite (parse_ids_id_runs g ds Hg). intros H%fmap_nil_inv.
  by apply (id_runs_nonempty g ds).
Qed.

Lemma sort_ids_nonempty l : l ≠ [] → sort_ids l ≠ [].
Proof.
  intros Hl Hnil. apply Hl. apply Permutation_nil_r. by rewrite <- Hnil, sort_ids_perm.
Qed.

(** A replaced token with non-negative IDs is again a token, and its IDs
    are the mapped ones in ascending order. *)
Lemma replace_citation_token m g ds rest :
  id_runs g ds →
  Forall (λ x, 0 <= map_id m x) (parse_ids g) →
  ∃ g1 ds1,
    id_runs g1 ds1
    ∧ replace_citation m g +:+ rest = token_then g1 rest
    ∧ parse_ids g1 = sort_ids (map_id m <$> parse_ids g).
Proof.
  intros Hg Hpos.
  set (ids1 := sort_ids (map_id m <$> parse_ids g)).
  assert (Forall (λ z, 0 <= z) ids1) as Hpos1.
  { unfold ids1. rewrite sort_ids_perm. by apply Forall_fmap. }
  assert (ids1 ≠ []) as Hne.
  { apply sort_ids_nonempty. intros H%fmap_nil_inv. by apply (parse_ids_nonempty g ds). }
  exists (join "," (str_of_Z <$> ids1)), (str_of_Z <$> ids1).
  split; [by apply id_runs_render |]. split.
  - unfold replace_citation. fold ids1. apply render_ids_app.
  - by apply parse_ids_render.
Qed.

Lemma text_tokens_update m text :
  Forall (λ x, 0 <= map_id m x) (text_ids text) →
  text_tokens (update_text m text)
  = (λ ids, sort_ids (map_id m <$> ids)) <$> text_tokens text.
Proof.
  unfold text_tokens.
  induction text as [| g rest c s Heq Hm IH | c s Hm IH] using scan_ind; intros Hpos.
  - done.
  - rewrite (text_ids_token c s g rest Hm) in Hpos. apply Forall_app in Hpos as [Hg Hrest].
    pose proof Hm as [[ds Hds] _]%match_citation_iff.
    rewrite update_text_cons, (re_findall_cons c s), Hm.
    destruct (replace_citation_token m g ds (update_text m rest) Hds Hg)
      as (g1 & ds1 & Hg1 & -> & Hparse).
    rewrite (re_findall_token g1 ds1 _ Hg1), !fmap_cons, Hparse. f_equal. by apply IH.
  - rewrite (text_ids_char c s Hm) in Hpos.
    rewrite update_text_cons, (re_findall_cons c s), Hm.
    rewrite re_findall_cons, (match_citation_none_update m c s Hm). by apply IH.
Qed.

(** X8: when the mapped IDs are not negative, rewriting keeps the
    tokens of a text apart and in place: the rewritten text has as many
    tokens as the original, and the n-th one lists the mapped IDs of the
    n-th original token in ascending order. *)
Theorem update_text_tokens m text :
  Forall (λ x, 0 <= map_id m x) (text_ids text) →
  length (text_tokens (update_text m text)) = length (text_tokens text)
  ∧ text_tokens (update_text m text)
    = (λ ids, sort_ids (map_id m <$> ids)) <$> text_tokens text.
Proof.
  intros Hpos. rewrite (text_tokens_update m text Hpos).
  split; [apply length_fmap | done].
Qed.

Lemma update_text_tokens_witness :
  length (text_tokens (update_text {[3 := 1; 1 := 2]} "finding [3] and [1,3]"))
  = length (text_tokens "finding [3] and [1,3]")
  ∧ text_tokens (update_text {[3 := 1; 1 := 2]} "finding [3] and [1,3]")
    = (λ ids, sort_ids (map_id {[3 := 1; 1 := 2]} <$> ids))
        <$> text_tokens "finding [3] and [1,3]".
Proof.
  apply update_text_tokens.
  change (text_ids "finding [3] and [1,3]") with [3; 1; 3].
  repeat constructor; by vm_compute.
Defined.

(** ** Rewriting twice, in general *)

Lemma update_text_compose m1 m2 m12 text :
  Forall (λ x, 0 <= map_id m1 x ∧ map_id m12 x = map_id m2 (map_id m1 x)) (text_ids text) →
  update_text m2 (update_text m1 text) = update_text m12 text.
Proof.
  induction text as [| g rest c s Heq Hm IH | c s Hm IH] using scan_ind; intros Hall.
  - done.
  - rewrite (text_ids_token c s g rest Hm) in Hall. apply Forall_app in Hall as [Hg Hrest].
    pose proof Hm as [[ds Hds] _]%match_citation_iff.
    rewrite (update_text_cons m1), (update_text_cons m12), Hm.
    destruct (replace_citation_token m1 g ds (update_text m1 rest) Hds)
      as (g1 & ds1 & Hg1 & -> & Hparse).
    { eapply Forall_impl; [exact Hg |]. by intros x [? _]. }
    rewrite (update_text_token m2 g1 ds1 _ Hg1), (IH Hrest). f_equal.
    unfold replace_citation. f_equal. rewrite Hparse.
    apply sort_ids_proper. rewrite sort_ids_perm, <- list_fmap_compose.
    assert (map_id m2 ∘ map_id m1 <$> parse_ids g = map_id m12 <$> parse_ids g) as ->;
      [| done].
    apply Forall_fmap_ext. eapply Forall_impl; [exact Hg |]. by intros x [_ ->].
  - rewrite (text_ids_char c s Hm) in Hall.
    rewrite (update_text_cons m1), (update_text_cons m12), Hm.
    rewrite update_text_cons, (match_citation_none_update m1 c s Hm).
    by rewrite IH.
Qed.

(** X9: two rewrites in a row amount to one rewrite with the composed
    mapping, provided the first one produces no negative ID. *)
Theorem update_text_composition m1 m2 m12 text :
  Forall (λ x, 0 <= map_id m1 x ∧ map_id m12 x = map_id m2 (map_id m1 x)) (text_ids text) →
  update_text m2 (update_text m1 text) = update_text m12 text.
Proof. apply update_text_compose. Qed.

Lemma update_text_composition_witness :
  update_text {[2 := 5]} (update_text {[1 := 2; 3 := 1]} "see [3,1] and [1]")
  = update_text {[1 := 5; 3 := 1]} "see [3,1] and [1]".
Proof.
  apply update_text_composition.
  change (text_ids "see [3,1] and [1]") with [3; 1; 1].
  repeat constructor; by vm_compute.
Defined.

(** X10: a rewritten text is in normal form: rewriting it once more with
    the empty mapping changes nothing. *)
Theorem update_text_normal_form m text :
  Forall (λ x, 0 <= map_id m x) (text_ids text) →
  update_text ∅ (update_text m text) = update_text m text.
Proof.
  intros Hpos. apply update_text_compose.
  eapply Forall_impl; [exact Hpos |]. intros x Hx. by rewrite map_id_empty.
Qed.

Lemma update_text_normal_form_witness :
  update_text ∅ (update_text {[7 := 2]} "see [007,3] and [3,1,3]")
  = update_text {[7 := 2]} "see [007,3] and [3,1,3]".
Proof.
  apply update_text_normal_form.
  change (text_ids "see [007,3] and [3,1,3]") with [7; 3; 3; 1; 3].
  repeat constructor; by vm_compute.
Defined.

(** ** Inserting a token into a text *)

Lemma match_ids_none_app need s b :
  starts_clean b → match_ids need s = None → match_ids need (s +:+ b) = None.
Proof.
  intros Hb. revert need. induction s as [| c s IH]; intros need H.
  - simpl. destruct b as [| c b]; [done |]. destruct Hb as (Hd & Hcomma & Hclose).
    simpl. rewrite Hd.
    destruct need; [done |].
    rewrite (proj2 (Ascii.eqb_neq c ",") Hcomma), (proj2 (Ascii.eqb_neq c "]") Hclose). done.
  - simpl in *. destruct (is_digit c).
    + destruct (match_ids false s) as [[g rest] |] eqn:E; [done |]. by rewrite (IH false).
    + destruct need; [done |].
      destruct (Ascii.eqb c ",").
      * destruct (match_ids true s) as [[g rest] |] eqn:E; [done |]. by rewrite (IH true).
      * by destruct (Ascii.eqb c "]").
Qed.

Lemma match_citation_none_app c s b :
  starts_clean b →
  match_citation (String c s) = None → match_citation (String c (s +:+ b)) = None.
Proof.
  intros Hb. simpl. destruct (Ascii.eqb c "["); [| done]. by apply match_ids_none_app.
Qed.

Lemma token_then_app g rest b : token_then g rest +:+ b = token_then g (rest +:+ b).
Proof. unfold token_then. simpl. by rewrite string_app_assoc. Qed.

(** Cutting a text before a character that cannot continue a token cuts
    no token. *)
Lemma re_findall_app a b :
  starts_clean b → re_findall (a +:+ b) = re_findall a ++ re_findall b.
Proof.
  intros Hb.
  induction a as [| g rest c s Heq Hm IH | c s Hm IH] using scan_ind.
  - done.
  - pose proof Hm as [[ds Hds] _]%match_citation_iff.
    rewrite (re_findall_cons c s), Hm, Heq, token_then_app.
    rewrite (re_findall_token g ds _ Hds), IH. done.
  - rewrite (re_findall_cons c s), Hm. simpl.
    rewrite re_findall_cons, (match_citation_none_app c s b Hb Hm). apply IH.
Qed.

Lemma text_tokens_app a b :
  starts_clean b → text_tokens (a +:+ b) = text_tokens a ++ text_tokens b.
Proof. intros Hb. unfold text_tokens. by rewrite re_findall_app, fmap_app. Qed.

Lemma text_tokens_insert a ids b :
  ids ≠ [] → Forall (λ z, 0 <= z) ids →
  text_tokens (a +:+ render_ids ids +:+ b) = text_tokens a ++ ids :: text_tokens b.
Proof.
  intros Hne Hpos. rewrite render_ids_app, text_tokens_app by done.
  f_equal. unfold text_tokens.
  rewrite (re_findall_token _ _ _ (id_runs_render ids Hne Hpos)), fmap_cons.
  by rewrite parse_ids_render.
Qed.

Lemma str_take_drop n s : str_take n s +:+ str_drop n s = s.
Proof.
  revert s. induction n as [| n IH]; intros [| c s]; simpl; try done. by rewrite IH.
Qed.

Lemma add_citation_grows st section_name rid x :
  (x ∈ citation_order st → x ∈ citation_order (add_citation st section_name rid))
  ∧ (∀ s l, citations st !! s = Some l → x ∈ l →
            ∃ l', citations (add_citation st section_name rid) !! s = Some l' ∧ x ∈ l').
Proof.
  split.
  - unfold add_citation. simpl. case_decide; [done |]. intros ?. apply elem_of_app. by left.
  - intros s l Hs Hx. unfold add_citation. simpl.
    destruct (citations st !! section_name) as [l0 |] eqn:E.
    + rewrite E. simpl. case_decide; [eauto |].
      destruct (decide (section_name = s)) as [-> | Hne].
      * rewrite lookup_insert_eq. eexists. split; [done |].
        apply elem_of_app. left. congruence.
      * rewrite lookup_insert_ne by done. eauto.
    + rewrite lookup_insert_eq. simpl.
      assert (section_name ≠ s) as Hne by (intros ->; congruence).
      rewrite !lookup_insert_ne by done. eauto.
Qed.

Lemma foldl_add_citation_recorded st section_name (ids : list Z) x :
  x ∈ ids →
  x ∈ citation_order (foldl (λ st rid, add_citation st section_name rid) st ids)
  ∧ ∃ l, citations (foldl (λ st rid, add_citation st section_name rid) st ids)
           !! section_name = Some l ∧ x ∈ l.
Proof.
  revert st. induction ids as [| y ids IH] using rev_ind; intros st Hx.
  - by apply elem_of_nil in Hx.
  - rewrite foldl_snoc. apply elem_of_app in Hx as [Hx | ->%list_elem_of_singleton].
    + destruct (IH st Hx) as (Hord & l & Hl & Hin).
      destruct (add_citation_grows
                  (foldl (λ st rid, add_citation st section_name rid) st ids)
                  section_name y x) as [H1 H2].
      split; [by apply H1 | by eapply H2].
    + split; [| apply add_citation_recorded].
      unfold add_citation. simpl. case_decide; [done |]. apply elem_of_app. right. by left.
Qed.

(** X11: inserting a citation puts exactly one new token into the text,
    holding the chosen IDs in ascending order, and leaves the tokens
    before and after the place of insertion as they are in the two parts
    of the text; at the end of a text, the tokens already there are all
    kept.  Every chosen ID is then in the section's citation list and in
    the global order. *)
Theorem insert_citation_tokens st section_name content (ids : list Z) option rid :
  ids ≠ [] → Forall (λ z, 0 <= z) ids → 0 <= rid →
  text_tokens (quick_insert st section_name content rid).1
  = text_tokens content ++ [[rid]]
  ∧ text_tokens (modal_insert st section_name content ids option).1
    = match option with
      | AtPosition p =>
          text_tokens (str_take p content) ++ sort_ids ids :: text_tokens (str_drop p content)
      | AtEndOfText | AtCursor => text_tokens content ++ [sort_ids ids]
      end
  ∧ (∀ x, x ∈ ids →
          x ∈ citation_order (modal_insert st section_name content ids option).2
          ∧ ∃ l, citations (modal_insert st section_name content ids option).2
                   !! section_name = Some l ∧ x ∈ l).
Proof.
  intros Hne Hpos Hrid.
  assert (sort_ids ids ≠ []) as Hne' by (by apply sort_ids_nonempty).
  assert (Forall (λ z, 0 <= z) (sort_ids ids)) as Hpos' by (by rewrite sort_ids_perm).
  assert (∀ l : list Z, "[" +:+ join "," (str_of_Z <$> l) +:+ "]" = render_ids l) as Hrender
    by done.
  split; [| split].
  - unfold quick_insert. cbn [fst].
    change (String "[" (str_of_Z rid +:+ "]")) with (render_ids [rid]).
    rewrite <- (string_app_nil_r (render_ids [rid])).
    destruct (is_empty content) eqn:E.
    + apply is_empty_true in E as ->.
      apply (text_tokens_insert EmptyString [rid] EmptyString); [done | by constructor].
    + rewrite <- string_app_assoc.
      rewrite (text_tokens_insert (content +:+ " ") [rid] EmptyString); [| done | by constructor].
      rewrite (text_tokens_app content " "); [| done].
      change (text_tokens " ") with (@nil (list Z)). by rewrite app_nil_r.
  - unfold modal_insert. cbn [fst]. rewrite Hrender.
    assert (text_tokens (content +:+ " " +:+ render_ids (sort_ids ids))
            = text_tokens content ++ [sort_ids ids]) as Hend.
    { rewrite <- (string_app_nil_r (render_ids _)), <- string_app_assoc.
      rewrite (text_tokens_insert (content +:+ " ") _ EmptyString) by done.
      rewrite (text_tokens_app content " "); [| done].
      change (text_tokens " ") with (@nil (list Z)). by rewrite app_nil_r. }
    destruct option as [| | p]; [done | done |].
    by apply text_tokens_insert.
  - intros x Hx. unfold modal_insert. cbn [snd].
    by apply foldl_add_citation_recorded.
Qed.

Lemma insert_citation_tokens_witness :
  text_tokens (quick_insert init "Intro" "see [1,2]" 4).1 = text_tokens "see [1,2]" ++ [[4]]
  ∧ text_tokens (modal_insert init "Intro" "see [1,2]" [5; 3] (AtPosition 4)).1
    = text_tokens (str_take 4 "see [1,2]") ++ sort_ids [5; 3]
        :: text_tokens (str_drop 4 "see [1,2]")
  ∧ (∀ x, x ∈ [5; 3] →
          x ∈ citation_order (modal_insert init "Intro" "see [1,2]" [5; 3] (AtPosition 4)).2
          ∧ ∃ l, citations (modal_insert init "Intro" "see [1,2]" [5; 3] (AtPosition 4)).2
                   !! "Intro" = Some l ∧ x ∈ l).
Proof.
  apply (insert_citation_tokens init "Intro" "see [1,2]" [5; 3] (AtPosition 4) 4);
    [discriminate | repeat constructor; lia | lia].
Defined.

(** ** The search for a DOI *)

Lemma span_digits_spec n : ∀ s ds rest,
  span_digits n s = (ds, rest) →
  s = ds +:+ rest
  ∧ Forall (λ x, is_digit x = true) (list_ascii_of_string ds)
  ∧ (String.length ds ≤ n)%nat.
Proof.
  induction n as [| n IH]; intros s ds rest.
  - destruct s; intros [= <- <-]; repeat split; constructor.
  - destruct s as [| c s]; [intros [= <- <-]; repeat split; [constructor | simpl; lia] |].
    simpl. destruct (is_digit c) eqn:Hc.
    + destruct (span_digits n s) as [d r] eqn:E. intros [= <- <-].
      destruct (IH s d r E) as (-> & Hd & Hlen).
      repeat split; [by constructor | simpl; lia].
    + intros [= <- <-]. repeat split; [constructor | simpl; lia].
Qed.

Lemma span_digits_exact n ds rest :
  Forall (λ x, is_digit x = true) (list_ascii_of_string ds) →
  (String.length ds ≤ n)%nat →
  match rest with EmptyString => True | String c _ => is_digit c = false end →
  span_digits n (ds +:+ rest) = (ds, rest).
Proof.
  revert n. induction ds as [| c ds IH]; intros n Hds Hlen Hrest.
  - simpl. destruct n, rest; simpl; try done. by rewrite Hrest.
  - destruct n as [| n]; [simpl in Hlen; lia |].
    simpl in Hds. apply Forall_cons in Hds as [Hc Hds].
    simpl. rewrite Hc, IH; [done | done | simpl in Hlen; lia | done].
Qed.

Lemma span_doi_chars_spec s : ∀ tail rest,
  span_doi_chars s = (tail, rest) →
  s = tail +:+ rest
  ∧ Forall (λ x, is_doi_char x = true) (list_ascii_of_string tail)
  ∧ doi_stops rest.
Proof.
  induction s as [| c s IH]; intros tail rest.
  - intros [= <- <-]. repeat split. constructor.
  - simpl. destruct (is_doi_char c) eqn:Hc.
    + destruct (span_doi_chars s) as [d r] eqn:E. intros [= <- <-].
      destruct (IH d r eq_refl) as (-> & Hd & Hr). repeat split; [by constructor | done].
    + intros [= <- <-]. repeat split; [constructor | done].
Qed.

Lemma span_doi_chars_exact tail rest :
  Forall (λ x, is_doi_char x = true) (list_ascii_of_string tail) →
  doi_stops rest →
  span_doi_chars (tail +:+ rest) = (tail, rest).
Proof.
  induction tail as [| c tail IH]; intros Htail Hrest.
  - simpl. destruct rest; simpl in *; [done | by rewrite Hrest].
  - simpl in Htail. apply Forall_cons in Htail as [Hc Htail].
    simpl. by rewrite Hc, IH.
Qed.

Lemma match_doi_sound s d rest :
  match_doi s = Some (d, rest) → s = d +:+ rest ∧ doi_shaped d ∧ doi_stops rest.
Proof.
  unfold match_doi.
  destruct s as [| c1 [| c0 [| c s1]]]; try done.
  destruct (Ascii.eqb c1 "1") eqn:E1; [| done].
  destruct (Ascii.eqb c0 "0") eqn:E0; [| done].
  destruct (Ascii.eqb c "010") eqn:Ec; [done |]. cbn [andb negb].
  apply Ascii.eqb_eq in E1 as ->. apply Ascii.eqb_eq in E0 as ->.
  apply Ascii.eqb_neq in Ec.
  destruct (span_digits 9 s1) as [ds s2] eqn:Hds.
  destruct (4 <=? String.length ds)%nat eqn:Hlen; [| done].
  apply Nat.leb_le in Hlen.
  destruct s2 as [| c2 s3]; [done |].
  destruct (Ascii.eqb c2 "/") eqn:E2; [| done]. apply Ascii.eqb_eq in E2 as ->.
  destruct (span_doi_chars s3) as [tail r] eqn:Htail.
  destruct (is_empty tail) eqn:Hempty; [done |]. apply is_empty_false in Hempty.
  intros [= <- <-].
  destruct (span_digits_spec 9 s1 ds _ Hds) as (-> & Hdigits & Hmax).
  destruct (span_doi_chars_spec s3 tail r Htail) as (-> & Hchars & Hstop).
  split; [| split; [| done]].
  - simpl. by rewrite !string_app_assoc.
  - exists c, ds, tail. repeat split; try done; lia.
Qed.

Lemma match_doi_complete d rest :
  doi_shaped d → doi_stops rest → match_doi (d +:+ rest) = Some (d, rest).
Proof.
  intros (c & ds & tail & -> & Hc & Hds & [Hmin Hmax] & Htail & Hchars) Hrest.
  unfold match_doi. cbn [String.append].
  rewrite !Ascii.eqb_refl, (proj2 (Ascii.eqb_neq c "010") Hc). cbn [andb negb].
  rewrite string_app_assoc. cbn [String.append].
  rewrite (span_digits_exact 9 ds) by done.
  rewrite (proj2 (Nat.leb_le _ _) Hmin), Ascii.eqb_refl.
  rewrite (span_doi_chars_exact tail rest) by done.
  by rewrite (proj2 (is_empty_false tail) Htail).
Qed.

Lemma extract_doi_found s d rest : match_doi s = Some (d, rest) → extract_doi s = Some d.
Proof. intros H. destruct s; cbn [extract_doi]; by rewrite H. Qed.

Lemma extract_doi_sound s d :
  extract_doi s = Some d →
  doi_shaped d ∧ ∃ pre post, s = pre +:+ d +:+ post ∧ doi_stops post.
Proof.
  induction s as [| c s IH].
  - simpl. done.
  - cbn [extract_doi].
    destruct (match_doi (String c s)) as [[found rest] |] eqn:E.
    + intros [= ->]. apply match_doi_sound in E as (Hs & Hshape & Hstop).
      split; [done |]. exists EmptyString, rest. by rewrite Hs.
    + intros H. destruct (IH H) as (Hshape & pre & post & -> & Hstop).
      split; [done |]. by exists (String c pre), post.
Qed.

Lemma match_doi_head c s : c ≠ "1"%char → match_doi (String c s) = None.
Proof.
  intros Hc. unfold match_doi. destruct s as [| c0 [| c2 s]]; try done.
  by rewrite (proj2 (Ascii.eqb_neq c "1") Hc).
Qed.

Lemma extract_doi_skip pre s :
  Forall (λ c, c ≠ "1"%char) (list_ascii_of_string pre) →
  extract_doi (pre +:+ s) = extract_doi s.
Proof.
  induction pre as [| c pre IH]; [done |].
  cbn [String.append extract_doi list_ascii_of_string]. intros [Hc Hpre]%Forall_cons.
  rewrite (match_doi_head c _ Hc). by apply IH.
Qed.

(** X12: what [extract_doi] returns is a part of its input that has the
    shape of the pattern (10, one character that is no line feed, four
    to nine digits, a slash, one or more characters of the class) and is
    followed by the end of the input or by a character outside the
    class. *)
Theorem extract_doi_shape s d :
  extract_doi s = Some d →
  doi_shaped d ∧ ∃ pre post, s = pre +:+ d +:+ post ∧ doi_stops post.
Proof.
  intros H. destruct (extract_doi_sound s d H) as (Hshape & pre & post & Hs & Hstop).
  split; [exact Hshape |]. exists pre, post. by split.
Qed.

Lemma extract_doi_shape_witness :
  doi_shaped "10.1000/xyz123"
  ∧ ∃ pre post, "https://doi.org/10.1000/xyz123 (2020)" = pre +:+ "10.1000/xyz123" +:+ post
                ∧ doi_stops post.
Proof. apply extract_doi_shape. reflexivity. Defined.

(** X13: a text of the shape of the pattern is found again when it is
    put after a prefix without the character 1 (such as a resolver URL)
    and before the end of the input or a character outside the class. *)
Theorem extract_doi_from_url pre d post :
  doi_shaped d →
  Forall (λ c, c ≠ "1"%char) (list_ascii_of_string pre) →
  doi_stops post →
  extract_doi (pre +:+ d +:+ post) = Some d.
Proof.
  intros Hshape Hpre Hpost. rewrite extract_doi_skip by done.
  eapply extract_doi_found. by apply match_doi_complete.
Qed.

Lemma extract_doi_from_url_witness :
  extract_doi ("https://doi.org/" +:+ "10.1000/xyz123" +:+ " (2020)") = Some "10.1000/xyz123".
Proof.
  apply extract_doi_from_url.
  - exists "."%char, "1000", "xyz123".
    split; [reflexivity |]. split; [discriminate |]. split; [by repeat constructor |].
    split; [simpl; lia |]. split; [discriminate | by repeat constructor].
  - simpl. repeat constructor; discriminate.
  - reflexivity.
Defined.

(** X14: extracting is idempotent: the DOI extracted from an input is
    what is extracted from that DOI itself. *)
Theorem extract_doi_idempotent s d :
  extract_doi s = Some d → extract_doi d = Some d.
Proof.
  intros [Hshape _]%extract_doi_sound.
  rewrite <- (string_app_nil_r d) at 1.
  eapply extract_doi_found. by apply match_doi_complete.
Qed.

Lemma extract_doi_idempotent_witness : extract_doi "10.1000/xyz123" = Some "10.1000/xyz123".
Proof.
  apply (extract_doi_idempotent "https://doi.org/10.1000/xyz123 (2020)"). reflexivity.
Defined.

(** ** The list of references after a renumbering *)

(** The new list, position by position *)
Lemma compute_renumbering_list refs cited :
  let live := filter (λ x, is_Some (get_reference_by_id refs x)) cited in
  let uncited := filter (λ r, ref_id r ∉ cited) refs in
  ∃ new_references next,
    compute_renumbering refs cited
    = (number_from ∅ 1 (live ++ (ref_id <$> uncited)), new_references, next)
    ∧ length new_references = (length live + length uncited)%nat
    ∧ (∀ i x, live !! i = Some x →
         ∃ ref, get_reference_by_id refs x = Some ref
                ∧ new_references !! i = Some (with_id ref (1 + Z.of_nat i)))
    ∧ (∀ j r, uncited !! j = Some r →
         new_references !! (length live + j)%nat
         = Some (with_id r (1 + Z.of_nat (length live + j)))).
Proof.
  intros live uncited. unfold compute_renumbering.
  rewrite foldl_renumber_cited_live. fold live.
  destruct (foldl_renumber_cited refs live ∅ [] 1) as (added1 & -> & Hlen1 & H1).
  { apply Forall_forall. intros x Hx. by apply list_elem_of_filter in Hx as [? _]. }
  rewrite foldl_renumber_uncited. fold uncited.
  destruct (foldl_assign uncited (number_from ∅ 1 live) ([] ++ added1)
              (1 + Z.of_nat (length live))) as (added2 & -> & Hlen2 & H2).
  eexists _, _. rewrite number_from_app. split; [done |]. simpl.
  split; [by rewrite length_app, Hlen1, Hlen2 |]. split.
  - intros i x Hi. destruct (H1 i x Hi) as (ref & Href & Hadd).
    exists ref. split; [done |]. by apply lookup_app_l_Some.
  - intros j r Hj. rewrite lookup_app_r by lia.
    replace (length live + j - length added1)%nat with j by lia.
    rewrite (H2 j r Hj). do 2 f_equal. lia.
Qed.

Lemma renumbered_ids refs cited new_references m next :
  compute_renumbering refs cited = (m, new_references, next) →
  ∀ i r, new_references !! i = Some r → ref_id r = 1 + Z.of_nat i.
Proof.
  intros Hrun i r Hi.
  destruct (compute_renumbering_list refs cited) as (L & nx & Heq & Hlen & H1 & H2).
  rewrite Hrun in Heq. injection Heq as _ <- _.
  set (live := filter (λ x, is_Some (get_reference_by_id refs x)) cited) in *.
  set (uncited := filter (λ r, ref_id r ∉ cited) refs) in *.
  destruct (decide (i < length live)%nat) as [Hlt | Hge].
  - destruct (lookup_lt_is_Some_2 live i Hlt) as [x Hx].
    destruct (H1 i x Hx) as (ref & _ & Hnew). rewrite Hnew in Hi. by injection Hi as <-.
  - assert (i < length new_references)%nat as Hi' by (by eapply lookup_lt_Some).
    destruct (lookup_lt_is_Some_2 uncited (i - length live)) as [r' Hr']; [lia |].
    pose proof (H2 _ r' Hr') as Hnew.
    replace (length live + (i - length live))%nat with i in Hnew by lia.
    rewrite Hnew in Hi. by injection Hi as <-.
Qed.

Lemma ids_by_position (L : list Reference) base :
  (∀ i r, L !! i = Some r → ref_id r = base + Z.of_nat i) →
  ref_id <$> L = seqZ base (Z.of_nat (length L)).
Proof.
  intros HL. apply list_eq. intros i. rewrite list_lookup_fmap.
  destruct (L !! i) as [r |] eqn:E; simpl.
  - rewrite (HL i r E). symmetry. apply lookup_seqZ_lt.
    apply lookup_lt_Some in E. lia.
  - symmetry. apply lookup_seqZ_ge. apply lookup_ge_None in E. lia.
Qed.

Lemma sorted_by_position (L : list Reference) : ∀ base,
  (∀ i r, L !! i = Some r → ref_id r = base + Z.of_nat i) → sorted_by_id L = L.
Proof.
  induction L as [| a L IH]; intros base HL; [done |].
  simpl. rewrite (IH (base + 1)).
  - apply insert_by_id_head. intros x [j Hj]%list_elem_of_lookup.
    rewrite (HL 0%nat a eq_refl), (HL (S j) x Hj). lia.
  - intros i r Hi. rewrite (HL (S i) r Hi). lia.
Qed.

Lemma lookup_by_position (L : list Reference) : ∀ base i r,
  (∀ i r, L !! i = Some r → ref_id r = base + Z.of_nat i) →
  L !! i = Some r → get_reference_by_id L (base + Z.of_nat i) = Some r.
Proof.
  unfold get_reference_by_id.
  induction L as [| a L IH]; intros base i r HL Hi; [done |].
  simpl. pose proof (HL 0%nat a eq_refl) as Ha.
  destruct i as [| i].
  - injection Hi as ->. assert ((ref_id r =? base + Z.of_nat 0) = true) as ->; [| done].
    apply Z.eqb_eq. lia.
  - assert ((ref_id a =? base + Z.of_nat (S i)) = false) as -> by (apply Z.eqb_neq; lia).
    replace (base + Z.of_nat (S i)) with (base + 1 + Z.of_nat i) by lia.
    apply IH; [| done]. intros j x Hj. rewrite (HL (S j) x Hj). lia.
Qed.

(** X15: after a renumbering with sections, whatever the IDs were
    before, even repeated ones, the stored references carry the IDs 1, 2,
    ... in the order of the list: no ID is repeated, and
    [get_all_references] returns the list as it is stored. *)
Theorem reorder_numbers_consecutively st (sections_content : list (string * string)) :
  sections_content ≠ [] →
  let st' := (reorder_references_by_citation st (Some sections_content)).2 in
  ref_id <$> references st' = seqZ 1 (Z.of_nat (length (references st')))
  ∧ NoDup (ref_id <$> references st')
  ∧ get_all_references st' = references st'.
Proof.
  intros Hne st'. unfold st'. rewrite (reorder_nonempty st _ Hne). cbv zeta.
  destruct (compute_renumbering (references st) (text_citation_order sections_content))
    as [[m L] next] eqn:Hrun. simpl.
  pose proof (renumbered_ids _ _ _ _ _ Hrun) as HL.
  assert (ref_id <$> L = seqZ 1 (Z.of_nat (length L))) as Hids by (by apply ids_by_position).
  split; [done |]. split.
  - rewrite Hids. apply NoDup_seqZ.
  - unfold get_all_references. simpl. by apply (sorted_by_position L 1).
Qed.

Lemma reorder_numbers_consecutively_witness :
  let ref n := {| ref_id := n; formatted := "Silva J. A title. J Med. 2020.";
                  doi := EmptyString; source := FromDoi |} in
  let st := {| references := [ref 2; ref 2; ref 7]; citations := ∅; citation_order := [] |} in
  let st' := (reorder_references_by_citation st (Some [("Intro", "see [7]")])).2 in
  ref_id <$> references st' = seqZ 1 (Z.of_nat (length (references st')))
  ∧ NoDup (ref_id <$> references st')
  ∧ get_all_references st' = references st'.
Proof.
  intros ref st. apply (reorder_numbers_consecutively st). discriminate.
Defined.

Lemma get_reference_by_id_unique refs r :
  NoDup (ref_id <$> refs) → r ∈ refs → get_reference_by_id refs (ref_id r) = Some r.
Proof.
  unfold get_reference_by_id.
  induction refs as [| a refs IH]; intros Hnd Hr; [by apply elem_of_nil in Hr |].
  rewrite fmap_cons in Hnd. apply NoDup_cons in Hnd as [Ha Hnd]. simpl.
  apply elem_of_cons in Hr as [-> | Hr]; [by rewrite Z.eqb_refl |].
  destruct (ref_id a =? ref_id r) eqn:E; [| by apply IH].
  apply Z.eqb_eq in E. destruct Ha. rewrite E. by apply list_elem_of_fmap_2.
Qed.

(** X16: when no two references share an ID, a renumbering with sections
    loses no reference and changes nothing but IDs: the list keeps its
    length, and each reference is the one found under its new ID, as it
    was but for the ID.  A citation rewritten with the returned mapping
    therefore points to the same entry as before. *)
Theorem reorder_keeps_references st (sections_content : list (string * string)) :
  sections_content ≠ [] →
  NoDup (ref_id <$> references st) →
  ∃ m st',
    reorder_references_by_citation st (Some sections_content) = (Some m, st')
    ∧ length (references st') = length (references st)
    ∧ ∀ r, r ∈ references st →
        ∃ new, m !! ref_id r = Some new
               ∧ get_reference_by_id (references st') new = Some (with_id r new).
Proof.
  intros Hne Hids.
  set (cited := text_citation_order sections_content).
  assert (NoDup cited) as Hcited by apply text_citation_order_NoDup.
  rewrite (reorder_nonempty st sections_content Hne). cbv zeta. fold cited.
  destruct (compute_renumbering (references st) cited) as [[m L] next] eqn:Hrun.
  pose proof (renumbered_ids _ _ _ _ _ Hrun) as Hpos.
  destruct (compute_renumbering_list (references st) cited)
    as (L' & next' & Heq & Hlen & H1 & H2).
  rewrite Hrun in Heq. injection Heq as -> <- _.
  pose proof (renumbered_lookup (references st) cited Hids Hcited) as Hm.
  pose proof (live_length (references st) cited Hids Hcited) as Hk.
  pose proof (uncited_length (references st) cited) as Hsum.
  set (live := filter (λ x, is_Some (get_reference_by_id (references st) x)) cited) in *.
  set (uncited := filter (λ r, ref_id r ∉ cited) (references st)) in *.
  eexists _, _. split; [done |]. simpl. split; [lia |].
  intros r Hr. destruct (decide (ref_id r ∈ cited)) as [Hc | Hc].
  - assert (ref_id r ∈ live) as [i Hi]%list_elem_of_lookup.
    { apply list_elem_of_filter. split; [| done].
      apply get_reference_by_id_is_Some. by apply list_elem_of_fmap_2. }
    destruct (H1 i _ Hi) as (ref & Href & Hnew).
    rewrite (get_reference_by_id_unique _ r Hids Hr) in Href. injection Href as <-.
    exists (1 + Z.of_nat i). split.
    + apply Hm. exists i. split; [by apply lookup_app_l_Some | done].
    + by apply lookup_by_position.
  - assert (r ∈ uncited) as [j Hj]%list_elem_of_lookup by (by apply list_elem_of_filter).
    exists (1 + Z.of_nat (length live + j)). split.
    + apply Hm. exists (length live + j)%nat. split; [| done].
      rewrite lookup_app_r by lia.
      replace (length live + j - length live)%nat with j by lia.
      by rewrite list_lookup_fmap, Hj.
    + apply lookup_by_position; [done |]. by apply H2.
Qed.

Lemma reorder_keeps_references_witness :
  let ref n := {| ref_id := n; formatted := "Silva J. A title. J Med. 2020.";
                  doi := EmptyString; source := FromDoi |} in
  let st := {| references := [ref 4; ref 9]; citations := ∅; citation_order := [] |} in
  ∃ m st',
    reorder_references_by_citation st (Some [("Intro", "see [9]")]) = (Some m, st')
    ∧ length (references st') = length (references st).
Proof.
  intros ref st.
  destruct (reorder_keeps_references st [("Intro", "see [9]")]) as (m & st' & H1 & H2 & _).
  - discriminate.
  - apply (bool_decide_unpack _). vm_compute. exact I.
  - exists m, st'. split; [exact H1 | exact H2].
Defined.

(** ** The citation index under the operations *)

Lemma number_from_range m next (l : list Z) k v :
  number_from m next l !! k = Some v →
  m !! k = Some v ∨ next <= v < next + Z.of_nat (length l).
Proof.
  revert m next. induction l as [| x l IH]; intros m next; [by left |].
  cbn [number_from length]. intros [H | H]%IH.
  - destruct (decide (x = k)) as [-> | Hne].
    + rewrite lookup_insert_eq in H. injection H as <-. right. lia.
    + rewrite lookup_insert_ne in H by done. by left.
  - right. lia.
Qed.

Lemma number_from_inj m next (l : list Z) :
  (∀ k v, m !! k = Some v → v < next) →
  (∀ k1 k2 v, m !! k1 = Some v → m !! k2 = Some v → k1 = k2) →
  ∀ k1 k2 v, number_from m next l !! k1 = Some v →
             number_from m next l !! k2 = Some v → k1 = k2.
Proof.
  revert m next. induction l as [| x l IH]; intros m next Hbound Hinj; [done |].
  cbn [number_from]. apply IH.
  - intros k v. destruct (decide (x = k)) as [-> | Hne].
    + rewrite lookup_insert_eq. intros [= <-]. lia.
    + rewrite lookup_insert_ne by done. intros H%Hbound. lia.
  - intros k1 k2 v.
    destruct (decide (x = k1)) as [E1 | H1], (decide (x = k2)) as [E2 | H2].
    + congruence.
    + subst k1. rewrite lookup_insert_eq, lookup_insert_ne by done.
      intros [= <-] H%Hbound. lia.
    + subst k2. rewrite lookup_insert_ne, lookup_insert_eq by done.
      intros H%Hbound [= <-]. lia.
    + rewrite !lookup_insert_ne by done. apply Hinj.
Qed.

Lemma renumbering_inj refs cited m L next :
  compute_renumbering refs cited = (m, L, next) →
  (∀ k1 k2 v, m !! k1 = Some v → m !! k2 = Some v → k1 = k2)
  ∧ (∀ k v, m !! k = Some v → 1 <= v <= Z.of_nat (length L)).
Proof.
  intros Hrun.
  destruct (compute_renumbering_list refs cited) as (L' & next' & Heq & Hlen & _).
  rewrite Hrun in Heq. injection Heq as -> <- _. split.
  - apply number_from_inj; [| done]. intros k v. by rewrite lookup_empty.
  - intros k v [H | H]%number_from_range; [by rewrite lookup_empty in H |].
    rewrite length_app, length_fmap in H. lia.
Qed.

Lemma elem_of_remap_list m (l : list Z) y :
  y ∈ remap_list m l ↔ ∃ x, x ∈ l ∧ m !! x = Some y.
Proof. apply list_elem_of_omap. Qed.

Lemma remap_list_NoDup m (l : list Z) :
  (∀ k1 k2 v, m !! k1 = Some v → m !! k2 = Some v → k1 = k2) →
  NoDup l → NoDup (remap_list m l).
Proof.
  intros Hinj Hnd. unfold remap_list.
  induction Hnd as [| x l' Hx Hl IH]; [constructor |].
  simpl. destruct (m !! x) as [y |] eqn:E; [| done].
  constructor; [| done]. intros (x' & Hx' & Hy)%list_elem_of_omap.
  by rewrite (Hinj x x' y E Hy) in Hx.
Qed.

Lemma list_remove_first_NoDup_keep rid (l : list Z) :
  NoDup l → NoDup (list_remove_first rid l).
Proof.
  intros Hnd. induction Hnd as [| y l' Hy Hl IH]; simpl; [constructor |].
  destruct (decide (y = rid)) as [-> | Hne]; [done |].
  constructor; [| done]. intros Hin. apply Hy.
  destruct (decide (y = rid)) as [-> | Hne']; [done |].
  by apply (elem_of_list_remove_first_ne rid l' y Hne').
Qed.

Lemma NoDup_filter_bool (p : Z → bool) (l : list Z) : NoDup l → NoDup (List.filter p l).
Proof.
  intros Hnd. induction Hnd as [| y l' Hy Hl IH]; simpl; [constructor |].
  destruct (p y); [| done]. constructor; [| done].
  rewrite elem_of_filter_bool. tauto.
Qed.

Lemma add_citation_well_formed st section_name rid :
  index_well_formed st → index_well_formed (add_citation st section_name rid).
Proof.
  intros (Hord & Hlists & Hcov).
  assert (∀ x, x ∈ citation_order st → x ∈ citation_order (add_citation st section_name rid))
    as Hgrow by (intros x; apply add_citation_grows).
  assert (rid ∈ citation_order (add_citation st section_name rid)) as Hrid.
  { unfold add_citation. simpl. case_decide; [done |]. apply elem_of_app. right. by left. }
  split; [| split].
  - unfold add_citation. simpl. case_decide; [done |].
    apply NoDup_app. split; [done |]. split; [| apply NoDup_singleton].
    intros x Hx ->%list_elem_of_singleton. done.
  - intros s l. unfold add_citation. simpl.
    destruct (citations st !! section_name) as [l0 |] eqn:E.
    + rewrite E. simpl. case_decide as Hin; [apply Hlists |].
      destruct (decide (section_name = s)) as [-> | Hne].
      * rewrite lookup_insert_eq. intros [= <-].
        apply NoDup_app. split; [by eapply Hlists |]. split; [| apply NoDup_singleton].
        intros x Hx ->%list_elem_of_singleton. done.
      * rewrite lookup_insert_ne by done. apply Hlists.
    + rewrite lookup_insert_eq. simpl.
      destruct (decide (section_name = s)) as [-> | Hne].
      * rewrite lookup_insert_eq. intros [= <-]. apply NoDup_singleton.
      * rewrite !lookup_insert_ne by done. apply Hlists.
  - intros s l x. unfold add_citation at 1. simpl.
    destruct (citations st !! section_name) as [l0 |] eqn:E.
    + rewrite E. simpl. case_decide as Hin; [intros Hs Hx; by eapply Hgrow, Hcov |].
      destruct (decide (section_name = s)) as [-> | Hne].
      * rewrite lookup_insert_eq. intros [= <-] [Hx | ->%list_elem_of_singleton]%elem_of_app;
          [by eapply Hgrow, Hcov | done].
      * rewrite lookup_insert_ne by done. intros Hs Hx. by eapply Hgrow, Hcov.
    + rewrite lookup_insert_eq. simpl.
      destruct (decide (section_name = s)) as [-> | Hne].
      * rewrite lookup_insert_eq. by intros [= <-] ->%list_elem_of_singleton.
      * rewrite !lookup_insert_ne by done. intros Hs Hx. by eapply Hgrow, Hcov.
Qed.

Lemma remove_reference_well_formed st rid :
  index_well_formed st → index_well_formed (remove_reference st rid).2.
Proof.
  intros (Hord & Hlists & Hcov).
  assert (citation_order (remove_reference st rid).2
          = list_remove_first rid (citation_order st)) as Horder.
  { simpl. case_decide; [done |]. by rewrite list_remove_first_fresh. }
  split; [| split].
  - rewrite Horder. by apply list_remove_first_NoDup_keep.
  - intros s l. simpl. rewrite lookup_fmap.
    destruct (citations st !! s) as [l0 |] eqn:E; [| done].
    intros [= <-]. apply NoDup_filter_bool. by eapply Hlists.
  - intros s l x. rewrite Horder. simpl. rewrite lookup_fmap.
    destruct (citations st !! s) as [l0 |] eqn:E; [| done].
    intros [= <-]. rewrite elem_of_filter_bool, negb_true_iff, Z.eqb_neq.
    intros [Hx Hne]. apply elem_of_list_remove_first_ne; [done |]. by eapply Hcov.
Qed.

Lemma reorder_well_formed st sections_content :
  index_well_formed st →
  index_well_formed (reorder_references_by_citation st sections_content).2.
Proof.
  intros (Hord & Hlists & Hcov).
  destruct sections_content as [[| kv sc] |]; [done | | done].
  rewrite reorder_nonempty by done. cbv zeta.
  destruct (compute_renumbering (references st) (text_citation_order (kv :: sc)))
    as [[m L] next] eqn:Hrun.
  destruct (renumbering_inj _ _ _ _ _ Hrun) as [Hinj _].
  unfold index_well_formed. simpl. split; [| split].
  - by apply remap_list_NoDup.
  - intros s l. rewrite lookup_fmap.
    destruct (citations st !! s) as [l0 |] eqn:E; [| done].
    intros [= <-]. apply remap_list_NoDup; [done |]. by eapply Hlists.
  - intros s l y. rewrite lookup_fmap.
    destruct (citations st !! s) as [l0 |] eqn:E; [| done].
    intros [= <-]. rewrite !elem_of_remap_list. intros (x & Hx & Hy).
    exists x. split; [by eapply Hcov | done].
Qed.

(** X17: the citation index stays well formed: a new manager has no ID
    twice in the global order or in the list of a section, and every ID
    of a section in the global order, and citing, removing a reference,
    renumbering and adding a reference all keep it so. *)
Theorem index_well_formed_kept st :
  index_well_formed init
  ∧ (index_well_formed st →
     (∀ section_name rid, index_well_formed (add_citation st section_name rid))
     ∧ (∀ rid, index_well_formed (remove_reference st rid).2)
     ∧ (∀ sections_content,
          index_well_formed (reorder_references_by_citation st sections_content).2)
     ∧ (∀ authors title journal year volume issue pages doi,
          index_well_formed
            (add_manual_reference st authors title journal year volume issue pages doi).2)
     ∧ (∀ Metadata fetch format extract doi,
          index_well_formed
            (add_reference_from_doi Metadata fetch format extract st doi).2)).
Proof.
  split.
  - split; [constructor |]. split; [intros s l | intros s l x]; simpl;
      by rewrite lookup_empty.
  - intros Hwf. split; [| split; [| split; [| split]]].
    + intros. by apply add_citation_well_formed.
    + intros. by apply remove_reference_well_formed.
    + intros. by apply reorder_well_formed.
    + intros. unfold add_manual_reference. by destruct (_ || _).
    + intros. unfold add_reference_from_doi.
      destruct (is_empty _); [done |]. by destruct (fetch _).
Qed.

Lemma index_well_formed_kept_witness :
  index_well_formed (add_citation init "Intro" 3)
  ∧ index_well_formed (remove_reference init 3).2.
Proof.
  destruct (index_well_formed_kept init) as [Hinit Hkept].
  destruct (Hkept Hinit) as (Hadd & Hremove & _).
  split; [apply Hadd | apply Hremove].
Defined.

(** ** Citations without a reference *)

Lemma add_citation_elem st section_name rid x :
  (x ∈ citation_order (add_citation st section_name rid) → x ∈ citation_order st ∨ x = rid)
  ∧ (∀ s l, citations (add_citation st section_name rid) !! s = Some l → x ∈ l →
            x = rid ∨ ∃ l0, citations st !! s = Some l0 ∧ x ∈ l0).
Proof.
  split.
  - unfold add_citation. simpl. case_decide; [tauto |].
    intros [Hx | ->%list_elem_of_singleton]%elem_of_app; tauto.
  - intros s l. unfold add_citation. simpl.
    destruct (citations st !! section_name) as [l0 |] eqn:E.
    + rewrite E. simpl. case_decide as Hin; [eauto |].
      destruct (decide (section_name = s)) as [-> | Hne].
      * rewrite lookup_insert_eq.
        intros [= <-] [Hx | ->%list_elem_of_singleton]%elem_of_app; eauto.
      * rewrite lookup_insert_ne by done. eauto.
    + rewrite lookup_insert_eq. simpl.
      destruct (decide (section_name = s)) as [-> | Hne].
      * rewrite lookup_insert_eq. intros [= <-] ->%list_elem_of_singleton. by left.
      * rewrite !lookup_insert_ne by done. eauto.
Qed.

Lemma add_citation_live st section_name rid :
  is_Some (get_reference_by_id (references st) rid) →
  index_live st → index_live (add_citation st section_name rid).
Proof.
  intros Hrid [Hord Hlists]. split.
  - intros x [Hx | ->]%add_citation_elem; [by apply Hord | done].
  - intros s l x Hs Hx.
    destruct (proj2 (add_citation_elem st section_name rid x) s l Hs Hx)
      as [-> | (l0 & Hl0 & Hx0)]; [done | by eapply Hlists].
Qed.

Lemma remove_reference_keeps_other st rid x :
  x ≠ rid →
  is_Some (get_reference_by_id (references st) x) →
  is_Some (get_reference_by_id (references (remove_reference st rid).2) x).
Proof.
  intros Hne. rewrite !get_reference_by_id_is_Some, !list_elem_of_fmap.
  intros (r & -> & Hr). exists r. split; [done |]. simpl.
  apply elem_of_filter_bool. split; [done |]. apply negb_true_iff. by apply Z.eqb_neq.
Qed.

Lemma remove_reference_live st rid :
  NoDup (citation_order st) →
  index_live st → index_live (remove_reference st rid).2.
Proof.
  intros Hnd [Hord Hlists].
  assert (citation_order (remove_reference st rid).2
          = list_remove_first rid (citation_order st)) as Horder.
  { simpl. case_decide; [done |]. by rewrite list_remove_first_fresh. }
  split.
  - intros x. rewrite Horder. intros Hx.
    assert (x ≠ rid) as Hne.
    { intros ->. by apply (list_remove_first_NoDup rid (citation_order st)). }
    apply remove_reference_keeps_other; [done |].
    apply Hord. by apply (elem_of_list_remove_first_ne rid _ x Hne).
  - intros s l x Hs. simpl in Hs. rewrite lookup_fmap in Hs.
    destruct (citations st !! s) as [l0 |] eqn:E; [| done].
    injection Hs as <-. rewrite elem_of_filter_bool, negb_true_iff, Z.eqb_neq.
    intros [Hx Hne]. apply remove_reference_keeps_other; [done |]. by eapply Hlists.
Qed.

Lemma reorder_makes_live st (sections_content : list (string * string)) :
  sections_content ≠ [] →
  index_live (reorder_references_by_citation st (Some sections_content)).2.
Proof.
  intros Hne. rewrite reorder_nonempty by done. cbv zeta.
  destruct (compute_renumbering _ _) as [[m L] next] eqn:Hrun.
  destruct (renumbering_inj _ _ _ _ _ Hrun) as [_ Hrange].
  pose proof (renumbered_ids _ _ _ _ _ Hrun) as Hpos.
  assert (Hlive : ∀ l y, y ∈ remap_list m l → is_Some (get_reference_by_id L y)).
  { intros l y (x & _ & Hx)%elem_of_remap_list. apply Hrange in Hx.
    destruct (lookup_lt_is_Some_2 L (Z.to_nat (y - 1))) as [r Hr]; [lia |].
    exists r. replace y with (1 + Z.of_nat (Z.to_nat (y - 1))) by lia.
    by apply lookup_by_position. }
  unfold index_live. simpl. split; [apply Hlive |].
  intros s l y. rewrite lookup_fmap.
  destruct (citations st !! s) as [l0 |]; [| done].
  intros [= <-]. apply Hlive.
Qed.

Lemma append_reference_live st ref :
  index_live st →
  index_live {| references := references st ++ [ref];
                citations := citations st;
                citation_order := citation_order st |}.
Proof.
  intros [Hord Hlists]. split; simpl.
  - intros x [r Hr]%Hord. exists r. by apply get_reference_by_id_app_l.
  - intros s l x Hs Hx. destruct (Hlists s l x Hs Hx) as [r Hr].
    exists r. by apply get_reference_by_id_app_l.
Qed.

(** X18: the citation index points to stored references only.  A
    renumbering with sections leaves no ID in the index without a
    reference, whatever the index held before; and once every ID of the
    index has a reference, citing a stored reference, removing a
    reference (the global order holding no ID twice) and adding a
    reference keep it so. *)
Theorem index_live_kept st :
  (∀ sections_content : list (string * string),
     sections_content ≠ [] →
     index_live (reorder_references_by_citation st (Some sections_content)).2)
  ∧ (index_live st →
     (∀ section_name rid,
        is_Some (get_reference_by_id (references st) rid) →
        index_live (add_citation st section_name rid))
     ∧ (∀ rid, NoDup (citation_order st) → index_live (remove_reference st rid).2)
     ∧ (∀ authors title journal year volume issue pages doi,
          index_live
            (add_manual_reference st authors title journal year volume issue pages doi).2)
     ∧ (∀ Metadata fetch format extract doi,
          index_live (add_reference_from_doi Metadata fetch format extract st doi).2)).
Proof.
  split; [apply reorder_makes_live |].
  intros Hlive. split; [| split; [| split]].
  - intros. by apply add_citation_live.
  - intros. by apply remove_reference_live.
  - intros. unfold add_manual_reference.
    destruct (_ || _); [done |]. by apply append_reference_live.
  - intros. unfold add_reference_from_doi.
    destruct (is_empty _); [done |]. destruct (fetch _); [| done].
    by apply append_reference_live.
Qed.

Lemma index_live_kept_witness :
  let ref n := {| ref_id := n; formatted := "Silva J. A title. J Med. 2020.";
                  doi := EmptyString; source := FromDoi |} in
  let st := {| references := [ref 1; ref 2]; citations := ∅; citation_order := [] |} in
  index_live (add_citation st "Intro" 2)
  ∧ index_live (remove_reference st 1).2.
Proof.
  intros ref st.
  assert (Hst : index_live st).
  { split; [intros x Hx; by apply elem_of_nil in Hx |].
    intros s l x Hs. simpl in Hs. by rewrite lookup_empty in Hs. }
  destruct (index_live_kept st) as [_ Hkept].
  destruct (Hkept Hst) as (Hadd & Hremove & _).
  split; [apply Hadd; by eexists | apply Hremove; constructor].
Defined.

(** ** Scanning the rewritten texts *)

Lemma StronglySorted_filter_le (P : Z → Prop) `{∀ x, Decision (P x)} (l : list Z) :
  StronglySorted Z.le l → StronglySorted Z.le (filter P l).
Proof.
  induction 1 as [| x l Hl IH Hx]; [constructor |].
  rewrite filter_cons. destruct (decide (P x)); [| done].
  constructor; [done |].
  apply Forall_forall. intros y [_ Hy]%list_elem_of_filter.
  by eapply Forall_forall in Hx.
Qed.

Lemma first_appearance_sorted (l : list Z) :
  Sorted Z.le l → Sorted Z.le (first_appearance l).
Proof.
  intros Hl. apply StronglySorted_Sorted.
  apply (Sorted_StronglySorted Z.le) in Hl.
  induction Hl as [| x l Hl IH Hx]; [constructor |].
  simpl. constructor; [apply StronglySorted_filter_le; exact IH |].
  apply Forall_forall. intros y [_ Hy]%list_elem_of_filter.
  rewrite elem_of_first_appearance in Hy. rewrite Forall_forall in Hx. by apply Hx.
Qed.

Lemma seqZ_sorted a n : Sorted Z.le (seqZ a n).
Proof.
  unfold seqZ. generalize (Z.to_nat n) as k, O as s.
  induction k as [| k IH]; intros s; [constructor |].
  simpl. constructor; [apply IH |].
  destruct k; constructor. lia.
Qed.

(** A sorted token fills the next numbers in ascending order. *)
Lemma foldl_append_new_sorted (c r : nat) (l : list Z) :
  Sorted Z.le l →
  (∀ v, v ∈ l → 1 <= v <= Z.of_nat (c + r)) →
  (∀ v, Z.of_nat c < v <= Z.of_nat (c + r) → v ∈ l) →
  foldl (λ acc x, if decide (x ∈ acc) then acc else acc ++ [x]) (seqZ 1 (Z.of_nat c)) l
  = seqZ 1 (Z.of_nat (c + r)).
Proof.
  intros Hs Hin Hall. rewrite foldl_append_new.
  replace (Z.of_nat (c + r)) with (Z.of_nat c + Z.of_nat r) by lia.
  rewrite seqZ_app by lia. f_equal.
  set (A := first_appearance _).
  assert (HA : ∀ v, v ∈ A ↔ v ∈ seqZ (1 + Z.of_nat c) (Z.of_nat r)).
  { intros v. unfold A. rewrite elem_of_first_appearance, list_elem_of_filter, !elem_of_seqZ.
    split.
    - intros [Hv1 Hv2]. specialize (Hin v Hv2). lia.
    - intros Hv. split; [lia |]. apply Hall. lia. }
  rewrite (sort_ids_unique (seqZ (1 + Z.of_nat c) (Z.of_nat r)) A).
  - symmetry. apply sort_ids_unique; [apply seqZ_sorted | done].
  - unfold A. apply first_appearance_sorted.
    apply StronglySorted_Sorted, StronglySorted_filter_le.
    by apply (Sorted_StronglySorted Z.le).
  - apply NoDup_Permutation; [apply NoDup_first_appearance | apply NoDup_seqZ | done].
Qed.

Lemma rescan_tokens_from (f : Z → Z) (toks : list (list Z)) : ∀ acc,
  NoDup acc →
  (∀ i x,
     foldl (λ acc x, if decide (x ∈ acc) then acc else acc ++ [x]) acc (concat toks) !! i
     = Some x → f x = 1 + Z.of_nat i) →
  foldl (λ acc x, if decide (x ∈ acc) then acc else acc ++ [x])
        (seqZ 1 (Z.of_nat (length acc)))
        (concat ((λ ids, sort_ids (f <$> ids)) <$> toks))
  = seqZ 1 (Z.of_nat (length
      (foldl (λ acc x, if decide (x ∈ acc) then acc else acc ++ [x]) acc (concat toks)))).
Proof.
  induction toks as [| ids toks IH]; intros acc Hnd Hf; [done |].
  simpl in *. rewrite !foldl_app in *.
  set (acc1 := foldl _ acc ids) in *.
  assert (Hacc1 : acc1 = acc ++ first_appearance (filter (λ x, x ∉ acc) ids))
    by apply foldl_append_new.
  set (news := first_appearance (filter (λ x, x ∉ acc) ids)) in *.
  assert (Hnd1 : NoDup acc1).
  { rewrite Hacc1. apply NoDup_app. split; [done |]. split; [| apply NoDup_first_appearance].
    intros x Hx. unfold news. rewrite elem_of_first_appearance, list_elem_of_filter. tauto. }
  assert (Hpre : ∀ i x, acc1 !! i = Some x → f x = 1 + Z.of_nat i).
  { intros i x Hi. apply Hf. rewrite foldl_append_new. by apply lookup_app_l_Some. }
  assert (Hfill :
    foldl (λ acc x, if decide (x ∈ acc) then acc else acc ++ [x])
          (seqZ 1 (Z.of_nat (length acc))) (sort_ids (f <$> ids))
    = seqZ 1 (Z.of_nat (length acc1))).
  { rewrite Hacc1, length_app. apply foldl_append_new_sorted.
    - apply sort_ids_sorted.
    - intros v Hv. rewrite sort_ids_perm in Hv.
      apply list_elem_of_fmap in Hv as (x & -> & Hx).
      assert (Hx1 : x ∈ acc1).
      { rewrite Hacc1. apply elem_of_app. destruct (decide (x ∈ acc)); [by left | right].
        unfold news. rewrite elem_of_first_appearance, list_elem_of_filter. done. }
      apply list_elem_of_lookup in Hx1 as [i Hi].
      rewrite (Hpre i x Hi).
      apply lookup_lt_Some in Hi. rewrite Hacc1, length_app in Hi. lia.
    - intros v Hv.
      destruct (lookup_lt_is_Some_2 news (Z.to_nat (v - 1) - length acc)) as [x Hx]; [lia |].
      rewrite sort_ids_perm. apply list_elem_of_fmap. exists x. split.
      + rewrite (Hpre (length acc + (Z.to_nat (v - 1) - length acc))%nat x); [lia |].
        rewrite Hacc1. by rewrite lookup_app_r, Nat.add_comm, Nat.add_sub by lia.
      + apply list_elem_of_lookup_2 in Hx. unfold news in Hx.
        rewrite elem_of_first_appearance, list_elem_of_filter in Hx. tauto. }
  rewrite Hfill. exact (IH acc1 Hnd1 Hf).
Qed.

Lemma rescan_tokens (f : Z → Z) (toks : list (list Z)) :
  (∀ i x, first_appearance (concat toks) !! i = Some x → f x = 1 + Z.of_nat i) →
  first_appearance (concat ((λ ids, sort_ids (f <$> ids)) <$> toks))
  = seqZ 1 (Z.of_nat (length (first_appearance (concat toks)))).
Proof.
  intros Hf. rewrite <- !foldl_append_new_nil.
  apply (rescan_tokens_from f toks []); [constructor |].
  intros i x. rewrite foldl_append_new_nil. apply Hf.
Qed.

Lemma section_text_update sections_content m name :
  section_text (update_citations_in_text sections_content m) name
  = update_text m <$> section_text sections_content name.
Proof.
  unfold section_text, update_citations_in_text.
  induction sections_content as [| [k text] l IH]; [done |].
  simpl. destruct (String.eqb k name); [done | apply IH].
Qed.

Lemma update_citations_in_text_keys sections_content m :
  (update_citations_in_text sections_content m).*1 = sections_content.*1.
Proof.
  unfold update_citations_in_text.
  induction sections_content as [| [k text] l IH]; [done |]. simpl. by f_equal.
Qed.

Lemma elem_of_concat {A} (x : A) (ls : list (list A)) :
  x ∈ concat ls ↔ ∃ l, x ∈ l ∧ l ∈ ls.
Proof.
  induction ls as [| a ls IH]; simpl.
  - split; [by intros ?%elem_of_nil | by intros (? & ? & ?%elem_of_nil)].
  - rewrite elem_of_app, IH. split.
    + intros [H | (l & ? & ?)]; [exists a | exists l]; split; auto; [left | by right].
    + intros (l & Hx & Hl). apply elem_of_cons in Hl as [-> | Hl]; [by left | right; eauto].
Qed.

Lemma text_ids_nonneg text x : x ∈ text_ids text → 0 <= x.
Proof.
  unfold text_ids. intros (l & Hx & (g & -> & _)%list_elem_of_fmap)%elem_of_concat.
  unfold parse_ids in Hx. apply list_elem_of_fmap in Hx as (d & -> & _).
  apply int_of_str_nonneg.
Qed.

Lemma map_id_nonneg m text :
  (∀ k v, m !! k = Some v → 0 <= v) →
  Forall (λ x, 0 <= map_id m x) (text_ids text).
Proof.
  intros Hm. apply Forall_forall. intros x Hx. unfold map_id.
  destruct (m !! x) as [v |] eqn:E; [by eapply Hm | by eapply text_ids_nonneg].
Qed.

Lemma text_ids_sections sections_content (names : list string) :
  concat ((λ name, text_ids (default EmptyString (section_text sections_content name)))
            <$> names)
  = concat (concat ((λ name, text_tokens (default EmptyString
                                            (section_text sections_content name)))
                      <$> names)).
Proof.
  induction names as [| name names IH]; [done |].
  rewrite !fmap_cons. cbn [concat]. rewrite concat_app. f_equal. apply IH.
Qed.

Lemma text_tokens_sections_update sections_content m (names : list string) :
  (∀ k v, m !! k = Some v → 0 <= v) →
  concat ((λ name, text_tokens (default EmptyString
            (section_text (update_citations_in_text sections_content m) name))) <$> names)
  = (λ ids, sort_ids (map_id m <$> ids))
      <$> concat ((λ name, text_tokens (default EmptyString
                                          (section_text sections_content name))) <$> names).
Proof.
  intros Hm. induction names as [| name names IH]; [done |].
  rewrite !fmap_cons. cbn [concat]. rewrite fmap_app, IH. f_equal.
  rewrite section_text_update.
  destruct (section_text sections_content name) as [text |]; simpl.
  - apply text_tokens_update. by apply map_id_nonneg.
  - done.
Qed.

(** The renumbering sends the [i]-th cited ID to [1 + i] when every
    cited ID has a reference. *)
Lemma renumbering_cited refs cited m L next :
  compute_renumbering refs cited = (m, L, next) →
  NoDup cited →
  (∀ x, x ∈ cited → is_Some (get_reference_by_id refs x)) →
  (length cited ≤ length L)%nat
  ∧ ∀ i x, cited !! i = Some x → m !! x = Some (1 + Z.of_nat i).
Proof.
  intros E Hnd Hlive.
  assert (Hl : filter (λ x, is_Some (get_reference_by_id refs x)) cited = cited).
  { apply filter_all_prop, Forall_forall, Hlive. }
  pose proof (compute_renumbering_list refs cited) as H. cbv zeta in H.
  rewrite Hl in H. destruct H as (L' & next' & E' & Hlen & _).
  rewrite E in E'. injection E' as -> <- <-.
  split; [lia |]. intros i x Hi.
  rewrite number_from_app, number_from_fresh.
  - by apply number_from_lookup.
  - apply uncited_ids_fresh. by eapply list_elem_of_lookup_2.
Qed.

Lemma rescan_after_renumbering refs sections_content m L next :
  compute_renumbering refs (text_citation_order sections_content) = (m, L, next) →
  (∀ x, x ∈ text_citation_order sections_content → is_Some (get_reference_by_id refs x)) →
  text_citation_order (update_citations_in_text sections_content m)
  = seqZ 1 (Z.of_nat (length (text_citation_order sections_content))).
Proof.
  intros E Hlive.
  destruct (renumbering_cited _ _ _ _ _ E (text_citation_order_NoDup _) Hlive) as [_ Hm].
  destruct (renumbering_inj _ _ _ _ _ E) as [_ Hrange].
  revert Hm. unfold text_citation_order.
  rewrite update_citations_in_text_keys, !scan_citation_order_eq, !text_ids_sections.
  rewrite text_tokens_sections_update by (intros k v Hk; apply Hrange in Hk; lia).
  intros Hm. apply rescan_tokens.
  intros i x Hi. unfold map_id. by rewrite (Hm i x Hi).
Qed.

(** X19: the renumbering and the rewriting of the texts fit together:
    when every ID cited in the texts has a reference, the texts rewritten
    with the returned mapping cite the numbers 1, 2, ..., k in the order
    of their first appearance, k being the number of IDs cited before. *)
Theorem reorder_then_rescan st (sections_content : list (string * string)) :
  sections_content ≠ [] →
  (∀ x, x ∈ text_citation_order sections_content →
        is_Some (get_reference_by_id (references st) x)) →
  ∃ m st',
    reorder_references_by_citation st (Some sections_content) = (Some m, st')
    ∧ text_citation_order (update_citations_in_text sections_content m)
      = seqZ 1 (Z.of_nat (length (text_citation_order sections_content))).
Proof.
  intros Hne Hlive. rewrite reorder_nonempty by done. cbv zeta.
  destruct (compute_renumbering _ _) as [[m L] next] eqn:Ec.
  eexists _, _. split; [done |]. by eapply rescan_after_renumbering.
Qed.

Lemma reorder_then_rescan_witness :
  let ref n := {| ref_id := n; formatted := "Silva J. A title. J Med. 2020.";
                  doi := EmptyString; source := FromDoi |} in
  let st := {| references := [ref 1; ref 2; ref 3]; citations := ∅; citation_order := [] |} in
  let sections_content := [("Intro", "finding [3] and [1,3]"); ("Methods", "see [2]")] in
  ∃ m st',
    reorder_references_by_citation st (Some sections_content) = (Some m, st')
    ∧ text_citation_order (update_citations_in_text sections_content m)
      = seqZ 1 (Z.of_nat (length (text_citation_order sections_content))).
Proof.
  intros ref st sections_content.
  apply (reorder_then_rescan st sections_content).
  - discriminate.
  - intros x Hx.
    change (text_citation_order _) with [3; 1; 2] in Hx.
    repeat (apply elem_of_cons in Hx as [-> | Hx]); [by eexists .. |].
    by apply elem_of_nil in Hx.
Defined.

(** ** Renumbering a second time *)

Lemma with_id_same r : with_id r (ref_id r) = r.
Proof. by destruct r. Qed.

Lemma uncited_by_position (L : list Reference) (k : nat) :
  (∀ i r, L !! i = Some r → ref_id r = 1 + Z.of_nat i) →
  filter (λ r, ref_id r ∉ seqZ 1 (Z.of_nat k)) L = drop k L.
Proof.
  intros Hpos.
  transitivity (filter (λ r, ref_id r ∉ seqZ 1 (Z.of_nat k)) (take k L ++ drop k L));
    [by rewrite take_drop |].
  rewrite filter_app, filter_none_prop, filter_all_prop; [done | |].
  - apply Forall_forall. intros r [i Hi]%list_elem_of_lookup.
    rewrite lookup_drop in Hi. rewrite (Hpos _ _ Hi), elem_of_seqZ. lia.
  - apply Forall_forall. intros r [i Hi]%list_elem_of_lookup Hr.
    apply lookup_take_Some in Hi as [Hi Hlt]. apply Hr.
    rewrite (Hpos _ _ Hi), elem_of_seqZ. lia.
Qed.

(** Renumbering a list that carries the IDs 1, 2, ... by position, with
    the first [k] of them cited in that order, keeps the list and maps
    every ID to itself. *)
Lemma renumbering_in_place (L : list Reference) (k : nat) :
  (∀ i r, L !! i = Some r → ref_id r = 1 + Z.of_nat i) →
  (k ≤ length L)%nat →
  ∃ next,
    compute_renumbering L (seqZ 1 (Z.of_nat k))
    = (number_from ∅ 1 (seqZ 1 (Z.of_nat (length L))), L, next).
Proof.
  intros Hpos Hk.
  assert (Hl : filter (λ x, is_Some (get_reference_by_id L x)) (seqZ 1 (Z.of_nat k))
               = seqZ 1 (Z.of_nat k)).
  { apply filter_all_prop, Forall_forall. intros x [i Hi]%list_elem_of_lookup.
    apply lookup_seqZ in Hi as [-> Hi].
    destruct (lookup_lt_is_Some_2 L i) as [r Hr]; [lia |].
    exists r. by apply lookup_by_position. }
  pose proof (compute_renumbering_list L (seqZ 1 (Z.of_nat k))) as H. cbv zeta in H.
  rewrite Hl, (uncited_by_position L k Hpos) in H.
  destruct H as (L' & next & E & Hlen & H1 & H2).
  rewrite length_seqZ, length_drop in Hlen.
  assert (Hids : seqZ 1 (Z.of_nat k) ++ (ref_id <$> drop k L)
                 = seqZ 1 (Z.of_nat (length L))).
  { rewrite fmap_drop, (ids_by_position L 1 Hpos).
    rewrite <- (take_drop k (seqZ 1 (Z.of_nat (length L)))) at 2. f_equal.
    apply list_eq. intros i. destruct (decide (i < k)%nat).
    + rewrite lookup_take_lt, !lookup_seqZ_lt by lia. done.
    + rewrite lookup_take_ge, lookup_seqZ_ge by lia. done. }
  assert (HL : L' = L).
  { apply list_eq. intros i.
    destruct (decide (i < k)%nat) as [Hi | Hi].
    + destruct (lookup_lt_is_Some_2 L i) as [r Hr]; [lia |].
      destruct (H1 i (1 + Z.of_nat i)) as (ref & Href & ->); [by apply lookup_seqZ_lt; lia |].
      rewrite (lookup_by_position L 1 i r Hpos Hr) in Href. injection Href as <-.
      rewrite Hr, <- (Hpos i r Hr). by rewrite with_id_same.
    + destruct (L !! i) as [r |] eqn:Hr.
      * assert (Hlt : (i < length L)%nat) by by eapply lookup_lt_Some.
        specialize (H2 (i - k)%nat r). rewrite lookup_drop in H2.
        replace (k + (i - k))%nat with i in H2 by lia.
        rewrite length_seqZ in H2.
        replace (Z.to_nat (Z.of_nat k) + (i - k))%nat with i in H2 by lia.
        rewrite (H2 Hr), <- (Hpos i r Hr). by rewrite with_id_same.
      * apply lookup_ge_None in Hr. apply lookup_ge_None. lia. }
  exists next. by rewrite E, Hids, HL.
Qed.

Lemma number_from_seqZ (n : nat) x v :
  number_from ∅ 1 (seqZ 1 (Z.of_nat n)) !! x = Some v ↔ v = x ∧ 1 <= x <= Z.of_nat n.
Proof.
  rewrite number_from_Some by apply NoDup_seqZ. split.
  - intros (i & [-> Hi]%lookup_seqZ & ->). lia.
  - intros [-> Hx]. exists (Z.to_nat (x - 1)). rewrite lookup_seqZ. lia.
Qed.

Lemma remap_list_fixed m (l : list Z) :
  (∀ x, x ∈ l → m !! x = Some x) → remap_list m l = l.
Proof.
  unfold remap_list. induction l as [| x l IH]; intros Hm; [done |].
  simpl. rewrite (Hm x) by left. f_equal. apply IH. intros y Hy. apply Hm. by right.
Qed.

(** X20: renumbering is idempotent on its own result: when every cited
    ID has a reference, a second renumbering, run on the new state with
    the rewritten texts, returns a mapping that sends every ID to
    itself, leaves the state as it is, and rewriting the texts with it
    changes no text. *)
Theorem reorder_twice st (sections_content : list (string * string)) :
  sections_content ≠ [] →
  (∀ x, x ∈ text_citation_order sections_content →
        is_Some (get_reference_by_id (references st) x)) →
  ∃ m st' m2,
    let sections_content' := update_citations_in_text sections_content m in
    reorder_references_by_citation st (Some sections_content) = (Some m, st')
    ∧ reorder_references_by_citation st' (Some sections_content') = (Some m2, st')
    ∧ (∀ x v, m2 !! x = Some v → v = x)
    ∧ update_citations_in_text sections_content' m2 = sections_content'.
Proof.
  intros Hne Hlive. rewrite reorder_nonempty by done. cbv zeta.
  destruct (compute_renumbering _ _) as [[m L] next] eqn:Ec.
  destruct (renumbering_cited _ _ _ _ _ Ec (text_citation_order_NoDup _) Hlive) as [Hk _].
  destruct (renumbering_inj _ _ _ _ _ Ec) as [_ Hrange].
  pose proof (renumbered_ids _ _ _ _ _ Ec) as Hpos.
  destruct (renumbering_in_place L _ Hpos Hk) as [next2 E2].
  set (m2 := number_from ∅ 1 (seqZ 1 (Z.of_nat (length L)))) in *.
  assert (Hid : ∀ x v, m2 !! x = Some v → v = x).
  { intros x v Hx. by apply number_from_seqZ in Hx as [-> _]. }
  assert (Hfix : ∀ l, remap_list m2 (remap_list m l) = remap_list m l).
  { intros l. apply remap_list_fixed. intros y (x & _ & Hx)%elem_of_remap_list.
    apply number_from_seqZ. split; [done |]. by apply Hrange in Hx. }
  eexists _, _, m2. split; [done |].
  split; [| split; [done |]].
  - rewrite reorder_nonempty by (by destruct sections_content).
    cbv zeta. cbn [references citations citation_order].
    rewrite (rescan_after_renumbering _ _ _ _ _ Ec Hlive), E2.
    f_equal. f_equal; [| apply Hfix].
    apply map_eq. intros s. rewrite !lookup_fmap.
    destruct (citations st !! s); simpl; [| done]. f_equal. apply Hfix.
  - unfold update_citations_in_text. rewrite <- list_fmap_compose.
    apply list_fmap_ext. intros _ [name text] _. simpl. f_equal.
    apply update_text_compose. eapply Forall_impl.
    + apply (map_id_nonneg m). intros k v Hv. apply Hrange in Hv. lia.
    + intros x Hx. simpl. split; [done |].
      unfold map_id at 2. destruct (m2 !! _) as [v |] eqn:Ev; [| done].
      symmetry. by eapply Hid.
Qed.

Lemma reorder_twice_witness :
  let ref n := {| ref_id := n; formatted := "Silva J. A title. J Med. 2020.";
                  doi := EmptyString; source := FromDoi |} in
  let st := {| references := [ref 1; ref 2; ref 3]; citations := ∅; citation_order := [] |} in
  let sections_content := [("Intro", "finding [3] and [1,3]"); ("Methods", "see [2]")] in
  ∃ m st' m2,
    let sections_content' := update_citations_in_text sections_content m in
    reorder_references_by_citation st (Some sections_content) = (Some m, st')
    ∧ reorder_references_by_citation st' (Some sections_content') = (Some m2, st')
    ∧ (∀ x v, m2 !! x = Some v → v = x)
    ∧ update_citations_in_text sections_content' m2 = sections_content'.
Proof.
  intros ref st sections_content.
  apply (reorder_twice st sections_content).
  - discriminate.
  - intros x Hx.
    change (text_citation_order _) with [3; 1; 2] in Hx.
    repeat (apply elem_of_cons in Hx as [-> | Hx]); [by eexists .. |].
    by apply elem_of_nil in Hx.
Defined.

(** ** The summary over a consistent index *)

Lemma size_list_to_set_le (l : list Z) :
  (size (list_to_set l : gset Z) ≤ length l)%nat.
Proof.
  induction l as [| x l IH].
  - by rewrite list_to_set_nil, size_empty.
  - rewrite list_to_set_cons, size_union_alt, size_singleton. simpl.
    assert (size (list_to_set l ∖ {[x]} : gset Z) ≤ size (list_to_set l : gset Z))%nat
      by (apply subseteq_size; by intros y [Hy _]%elem_of_difference).
    lia.
Qed.

Lemma filter_complement_length {A} (P : A → Prop) `{∀ x, Decision (P x)} (l : list A) :
  (length (filter P l) + length (filter (λ x, ¬ P x) l))%nat = length l.
Proof.
  induction l as [| x l IH]; [done |].
  rewrite !filter_cons. destruct (decide (P x)), (decide (¬ P x)); simpl; try tauto; lia.
Qed.

(** X21: when every ID of the citation index has a reference, the number
    of uncited references of the summary is not negative; when, besides,
    no two references share an ID, it is the number of stored references
    whose ID is in the citation list of no section. *)
Theorem uncited_references_counts st :
  index_live st →
  0 <= uncited_references (get_citation_summary st)
  ∧ (NoDup (ref_id <$> references st) →
     uncited_references (get_citation_summary st)
     = Z.of_nat (length (filter (λ r, ref_id r ∉ cited_anywhere (citations st))
                                (references st)))).
Proof.
  intros [_ Hlive].
  assert (Hsub : ∀ x, x ∈ cited_anywhere (citations st) → x ∈ ref_id <$> references st).
  { intros x (s & l & Hs & Hx)%elem_of_cited_anywhere.
    apply get_reference_by_id_is_Some. by eapply Hlive. }
  unfold get_citation_summary. simpl. split.
  - assert (size (cited_anywhere (citations st)) ≤ length (references st))%nat; [| lia].
    etrans; [| etrans; [apply (size_list_to_set_le (ref_id <$> references st)) |]].
    + apply subseteq_size. intros x Hx. apply elem_of_list_to_set. by apply Hsub.
    + by rewrite length_fmap.
  - intros Hnd.
    pose proof (filter_complement_length
                  (λ r, ref_id r ∈ cited_anywhere (citations st)) (references st)) as Hlen.
    assert (size (cited_anywhere (citations st))
            = length (filter (λ r, ref_id r ∈ cited_anywhere (citations st))
                             (references st))) as Hsize.
    { rewrite <- (length_fmap ref_id), <- (size_list_to_set (C := gset Z))
        by by apply NoDup_fmap_filter.
      f_equal. apply set_eq. intros x.
      rewrite elem_of_list_to_set, elem_of_fmap_filter. split.
      - intros Hx. destruct (proj1 (list_elem_of_fmap _ _ _) (Hsub x Hx)) as (r & -> & Hr).
        eauto.
      - by intros (r & -> & Hr & _). }
    rewrite Hsize. lia.
Qed.

Lemma uncited_references_counts_witness :
  let ref n := {| ref_id := n; formatted := "Silva J. A title. J Med. 2020.";
                  doi := EmptyString; source := FromDoi |} in
  let st := add_citation {| references := [ref 1; ref 2; ref 3];
                            citations := ∅; citation_order := [] |} "Intro" 2 in
  0 <= uncited_references (get_citation_summary st).
Proof.
  intros ref st. apply (uncited_references_counts st).
  split.
  - intros x Hx. change (citation_order st) with [2] in Hx.
    apply list_elem_of_singleton in Hx as ->. by eexists.
  - intros s l x Hs Hx.
    change (citations st) with (<[ "Intro" := [2] ]> (∅ : gmap string (list Z))) in Hs.
    apply lookup_insert_Some in Hs as [[_ <-] | [_ Hs]].
    + apply list_elem_of_singleton in Hx as ->. by eexists.
    + by rewrite lookup_empty in Hs.
Defined.

(** ** Removing twice *)

Lemma filter_bool_idemp {A} (p : A → bool) (l : list A) :
  List.filter p (List.filter p l) = List.filter p l.
Proof. apply filter_bool_all. by intros x [_ Hx]%elem_of_filter_bool. Qed.

(** X22: removing a reference that has just been removed changes
    nothing, provided the global order held no ID twice: the second call
    returns the same result and the same state as the first. *)
Theorem remove_reference_idempotent st rid :
  NoDup (citation_order st) →
  remove_reference (remove_reference st rid).2 rid = remove_reference st rid.
Proof.
  intros Hnd.
  assert (citation_order (remove_reference st rid).2
          = list_remove_first rid (citation_order st)) as Horder.
  { simpl. case_decide; [done |]. by rewrite list_remove_first_fresh. }
  unfold remove_reference at 1. cbv zeta. rewrite Horder.
  rewrite decide_False by by apply list_remove_first_NoDup.
  unfold remove_reference. cbn [snd references citations citation_order].
  f_equal. f_equal.
  - apply filter_bool_idemp.
  - apply map_eq. intros s. rewrite !lookup_fmap.
    destruct (citations st !! s); simpl; [| done]. f_equal. apply filter_bool_idemp.
  - case_decide; [done |]. by rewrite list_remove_first_fresh.
Qed.

Lemma remove_reference_idempotent_witness :
  let ref n := {| ref_id := n; formatted := "Silva J. A title. J Med. 2020.";
                  doi := EmptyString; source := FromDoi |} in
  let st := add_citation {| references := [ref 1; ref 2; ref 3];
                            citations := ∅; citation_order := [] |} "Intro" 2 in
  remove_reference (remove_reference st 2).2 2 = remove_reference st 2.
Proof.
  intros ref st. apply (remove_reference_idempotent st 2).
  change (citation_order st) with [2]. apply NoDup_singleton.
Defined.
